(** * gumgum: a shallow embedding of the PDF core and its verified properties

    The development follows the packages of the repository:

    - [Stream]   : pkg/stream (filter dispatcher, RunLength, LZW, PNG
                   predictor);
    - [Cmap]     : pkg/font/ttf/cmap.go (format 4 lookup);
    - [Graphics] : pkg/graphics (matrix, path, state stack, interpreter,
                   content-stream parser);
    - [Cos]      : pkg/cos (reader: Prev chain, object cache, page tree);
    - [Font]     : pkg/font/renderer.go (compound glyph expansion).

    Conventions.  A Go [byte] is a [Z] in [0, 256) and every byte operation
    writes its wrap-around out ([wrap8]).  A Go [int] is a [Z]; where the
    code multiplies untrusted quantities the 64-bit wrap-around is written out
    ([wrap_int]).  A Go [float64] is a primitive binary64 float.  A Go
    [error] is an [option string] ([None] is [nil]). *)

From Stdlib Require Import String Ascii DecimalString.
From Stdlib Require Import ZArith List Lia Bool.
From Stdlib Require Import Floats.PrimFloat.
From Equations Require Import Equations.
Import ListNotations.

Local Open Scope Z_scope.

(** ** Common Go types *)

Definition error := option string.

Definition wrap8 (x : Z) : Z := x mod 256.

Definition wrap16 (x : Z) : Z := x mod 65536.

(** Two's complement wrap-around of a 64-bit Go [int]. *)
Definition wrap_int (x : Z) : Z := (x + 2 ^ 63) mod 2 ^ 64 - 2 ^ 63.

Definition is_byte (b : Z) : Prop := 0 <= b < 256.

(** Go's [len] as an [int]. *)
Definition len {A : Type} (l : list A) : Z := Z.of_nat (length l).

(** Go's slice expression [s[i:j]] for [0 <= i <= j <= len(s)]. *)
Definition slice {A : Type} (s : list A) (i j : Z) : list A :=
  firstn (Z.to_nat (j - i)) (skipn (Z.to_nat i) s).

(** Indexing [s[i]] and the assignment [s[i] = v]; [None] is the run-time
    panic of an index out of range. *)
Definition idx {A : Type} (s : list A) (i : Z) : option A :=
  if Z.ltb i 0 then None else nth_error s (Z.to_nat i).

Fixpoint set_nth {A : Type} (s : list A) (n : nat) (v : A) : list A :=
  match s, n with
  | [], _ => []
  | _ :: s', O => v :: s'
  | x :: s', S n' => x :: set_nth s' n' v
  end.

Definition upd {A : Type} (s : list A) (i : Z) (v : A) : option (list A) :=
  if Z.ltb i 0 || Z.leb (len s) i then None
  else Some (set_nth s (Z.to_nat i) v).

(** [make([]T, n)]: [n] zero values; panics for a negative length. *)
Definition make {A : Type} (zero : A) (n : Z) : option (list A) :=
  if Z.ltb n 0 then None else Some (repeat zero (Z.to_nat n)).

(** The builtin [copy(dst, src)]: overwrites the first
    [min(len(dst), len(src))] elements of [dst]. *)
Fixpoint copy {A : Type} (dst src : list A) : list A :=
  match dst, src with
  | _ :: dst', x :: src' => x :: copy dst' src'
  | _, _ => dst
  end.

(** A value together with the equation that names it, for definitions by
    well-founded recursion whose termination depends on that equation. *)
Definition inspect {A : Type} (a : A) : {b : A | a = b} := exist _ a eq_refl.

(** Execution that may panic: [None] is the panic. *)
Definition bind {A B : Type} (m : option A) (f : A -> option B) : option B :=
  match m with Some a => f a | None => None end.

Notation "x <- m ;; k" := (bind m (fun x => k))
  (at level 100, m at next level, right associativity).

(** The counted loop [for i := lo; i < hi; i++ { s = body(i, s) }]. *)
Definition for_range {St : Type} (lo hi : Z) (body : Z -> St -> option St) (s : St)
  : option St :=
  fold_left (fun acc k => s' <- acc ;; body (lo + Z.of_nat k) s')
            (seq 0 (Z.to_nat (hi - lo))) (Some s).

(** Induction on the length of a list, for the loops that consume their
    input by more than one element per iteration. *)
Lemma list_length_ind {A : Type} (P : list A -> Prop) :
  (forall l, (forall l', (length l' < length l)%nat -> P l') -> P l) ->
  forall l, P l.
Proof.
  intros H l. remember (length l) as n eqn:En. revert l En.
  induction n as [n IHn] using (well_founded_induction PeanoNat.Nat.lt_wf_0).
  intros l ->. apply H. intros l' Hl'. now apply (IHn (length l')).
Qed.

(** ** Facts about slices and loops *)

Lemma len_nonneg {A : Type} (l : list A) : 0 <= len l.
Proof. unfold len. lia. Qed.

Lemma len_app {A : Type} (l1 l2 : list A) : len (l1 ++ l2) = len l1 + len l2.
Proof. unfold len. rewrite length_app. lia. Qed.

Lemma len_cons {A : Type} (x : A) (l : list A) : len (x :: l) = 1 + len l.
Proof. unfold len. simpl length. lia. Qed.

Lemma length_set_nth {A : Type} (s : list A) (n : nat) (v : A) :
  length (set_nth s n v) = length s.
Proof.
  revert n. induction s as [|x s IH]; intros [|n]; simpl; auto.
Qed.

Lemma nth_error_set_nth_eq {A : Type} (s : list A) (n : nat) (v : A) :
  (n < length s)%nat -> nth_error (set_nth s n v) n = Some v.
Proof.
  revert n. induction s as [|x s IH]; intros [|n] H; simpl in *;
    try lia; auto. apply IH. lia.
Qed.

Lemma nth_error_set_nth_ne {A : Type} (s : list A) (n m : nat) (v : A) :
  n <> m -> nth_error (set_nth s n v) m = nth_error s m.
Proof.
  revert n m. induction s as [|x s IH]; intros [|n] [|m] H; simpl;
    try congruence; auto.
Qed.

Lemma idx_Some_lt {A : Type} (s : list A) (i : Z) (x : A) :
  idx s i = Some x -> 0 <= i < len s.
Proof.
  unfold idx, len. destruct (Z.ltb i 0) eqn:E; [discriminate|].
  apply Z.ltb_ge in E. intros H.
  assert (Hlt : (Z.to_nat i < length s)%nat)
    by (apply nth_error_Some; congruence).
  lia.
Qed.

Lemma idx_in_range {A : Type} (s : list A) (i : Z) :
  0 <= i < len s -> exists x, idx s i = Some x.
Proof.
  unfold idx, len. intros H.
  replace (Z.ltb i 0) with false by (symmetry; apply Z.ltb_ge; lia).
  destruct (nth_error s (Z.to_nat i)) eqn:E; eauto.
  apply nth_error_None in E. lia.
Qed.

Lemma upd_in_range {A : Type} (s : list A) (i : Z) (v : A) :
  0 <= i < len s -> upd s i v = Some (set_nth s (Z.to_nat i) v).
Proof.
  unfold upd. intros H.
  replace (Z.ltb i 0) with false by (symmetry; apply Z.ltb_ge; lia).
  replace (Z.leb (len s) i) with false by (symmetry; apply Z.leb_gt; lia).
  reflexivity.
Qed.

Lemma len_set_nth {A : Type} (s : list A) (n : nat) (v : A) :
  len (set_nth s n v) = len s.
Proof. unfold len. now rewrite length_set_nth. Qed.

Lemma idx_set_nth_eq {A : Type} (s : list A) (i : Z) (v : A) :
  0 <= i < len s -> idx (set_nth s (Z.to_nat i) v) i = Some v.
Proof.
  unfold idx, len. intros H.
  replace (Z.ltb i 0) with false by (symmetry; apply Z.ltb_ge; lia).
  apply nth_error_set_nth_eq. lia.
Qed.

Lemma idx_set_nth_ne {A : Type} (s : list A) (i j : Z) (v : A) :
  0 <= i -> i <> j -> idx (set_nth s (Z.to_nat i) v) j = idx s j.
Proof.
  unfold idx. intros Hi Hij. destruct (Z.ltb j 0) eqn:E; [reflexivity|].
  apply Z.ltb_ge in E. apply nth_error_set_nth_ne. lia.
Qed.

(** Two slices of the same length with the same elements are equal. *)
Lemma idx_ext {A : Type} (s t : list A) :
  len s = len t -> (forall i, 0 <= i < len s -> idx s i = idx t i) -> s = t.
Proof.
  unfold len, idx. intros Hlen H. apply nth_error_ext. intros n.
  destruct (Nat.lt_ge_cases n (length s)) as [Hn|Hn].
  - specialize (H (Z.of_nat n)).
    replace (Z.ltb (Z.of_nat n) 0) with false in H
      by (symmetry; apply Z.ltb_ge; lia).
    rewrite Nat2Z.id in H. apply H. lia.
  - rewrite (proj2 (nth_error_None s n)) by lia.
    rewrite (proj2 (nth_error_None t n)) by lia. reflexivity.
Qed.

Lemma idx_app_l {A : Type} (s t : list A) (i : Z) :
  i < len s -> idx (s ++ t) i = idx s i.
Proof.
  unfold idx, len. intros H. destruct (Z.ltb i 0) eqn:E; [reflexivity|].
  apply Z.ltb_ge in E. apply nth_error_app1. lia.
Qed.

Lemma idx_app_r {A : Type} (s t : list A) (j : Z) :
  0 <= j -> idx (s ++ t) (len s + j) = idx t j.
Proof.
  unfold idx, len. intros H.
  replace (Z.ltb (Z.of_nat (length s) + j) 0) with false
    by (symmetry; apply Z.ltb_ge; lia).
  replace (Z.ltb j 0) with false by (symmetry; apply Z.ltb_ge; lia).
  rewrite nth_error_app2 by lia. f_equal. lia.
Qed.

Lemma len_slice {A : Type} (s : list A) (a b : Z) :
  0 <= a <= b -> b <= len s -> len (slice s a b) = b - a.
Proof.
  unfold len, slice. intros H1 H2.
  rewrite length_firstn, length_skipn. lia.
Qed.

Lemma idx_slice {A : Type} (s : list A) (a b j : Z) :
  0 <= a -> 0 <= j < b - a -> idx (slice s a b) j = idx s (a + j).
Proof.
  unfold idx, slice. intros Ha Hj.
  replace (Z.ltb j 0) with false by (symmetry; apply Z.ltb_ge; lia).
  replace (Z.ltb (a + j) 0) with false by (symmetry; apply Z.ltb_ge; lia).
  rewrite nth_error_firstn.
  replace (Nat.ltb (Z.to_nat j) (Z.to_nat (b - a))) with true
    by (symmetry; apply Nat.ltb_lt; lia).
  rewrite nth_error_skipn. f_equal. lia.
Qed.

Lemma slice_full {A : Type} (s : list A) : slice s 0 (len s) = s.
Proof.
  unfold slice, len. simpl. rewrite Z.sub_0_r, Nat2Z.id. apply firstn_all.
Qed.

Lemma slice_app_adjacent {A : Type} (s : list A) (a b c : Z) :
  0 <= a <= b -> b <= c -> c <= len s ->
  slice s a b ++ slice s b c = slice s a c.
Proof.
  intros H1 H2 H3. apply idx_ext.
  - rewrite len_app, !len_slice by lia. lia.
  - rewrite len_app, !len_slice by lia. intros i Hi.
    destruct (Z.lt_ge_cases i (b - a)) as [Hlt|Hge].
    + rewrite idx_app_l by (rewrite len_slice by lia; lia).
      rewrite !idx_slice by lia. reflexivity.
    + replace i with (len (slice s a b) + (i - (b - a)))
        by (rewrite len_slice by lia; lia).
      rewrite idx_app_r by lia. rewrite len_slice by lia.
      rewrite !idx_slice by lia. f_equal. lia.
Qed.

Lemma Forall_slice {A : Type} (P : A -> Prop) (s : list A) (a b : Z) :
  Forall P s -> Forall P (slice s a b).
Proof.
  intros H. unfold slice. rewrite Forall_forall in *. intros x Hx.
  apply H. rewrite <- (firstn_skipn (Z.to_nat a) s). apply in_or_app. right.
  rewrite <- (firstn_skipn (Z.to_nat (b - a)) (skipn (Z.to_nat a) s)).
  apply in_or_app. now left.
Qed.

Lemma copy_same_length {A : Type} (dst src : list A) :
  length dst = length src -> copy dst src = src.
Proof.
  revert src. induction dst as [|d dst IH]; intros [|x src] H; simpl in *;
    try discriminate; auto. f_equal. apply IH. lia.
Qed.

Lemma length_copy {A : Type} (dst src : list A) :
  length (copy dst src) = length dst.
Proof.
  revert src. induction dst as [|d dst IH]; intros [|x src]; simpl; auto.
Qed.

Lemma for_range_empty {St : Type} (lo hi : Z) (body : Z -> St -> option St) (s : St) :
  hi <= lo -> for_range lo hi body s = Some s.
Proof.
  intros H. unfold for_range.
  replace (Z.to_nat (hi - lo)) with O by lia. reflexivity.
Qed.

(** The invariant rule of the counted loop: a body that keeps [P] and does
    not panic takes the loop from [P lo] to [P hi]. *)
Lemma for_range_invariant {St : Type} (P : Z -> St -> Prop)
  (lo hi : Z) (body : Z -> St -> option St) (s : St) :
  lo <= hi ->
  P lo s ->
  (forall i s, lo <= i < hi -> P i s -> exists s', body i s = Some s' /\ P (i + 1) s') ->
  exists s', for_range lo hi body s = Some s' /\ P hi s'.
Proof.
  intros Hle H0 Hstep. unfold for_range.
  assert (G : forall n, (n <= Z.to_nat (hi - lo))%nat ->
    exists s', fold_left (fun acc k => s' <- acc ;; body (lo + Z.of_nat k) s')
                 (seq 0 n) (Some s) = Some s' /\ P (lo + Z.of_nat n) s').
  { induction n as [|n IH]; intros Hn.
    - exists s. split; [reflexivity|]. now replace (lo + Z.of_nat 0) with lo by lia.
    - destruct (IH ltac:(lia)) as (s1 & E1 & P1).
      rewrite seq_S, fold_left_app, E1. cbn [fold_left bind Nat.add].
      destruct (Hstep (lo + Z.of_nat n) s1 ltac:(lia) P1) as (s2 & E2 & P2).
      exists s2. split; [exact E2|].
      now replace (lo + Z.of_nat (S n)) with (lo + Z.of_nat n + 1) by lia. }
  destruct (G (Z.to_nat (hi - lo)) ltac:(lia)) as (s' & E & HP).
  exists s'. split; [exact E|].
  now replace (lo + Z.of_nat (Z.to_nat (hi - lo))) with hi in HP by lia.
Qed.

(** * pkg/stream *)

Module Stream.

(** ** RunLengthDecode (filters.go, [DecodeRunLength]) *)

(** The loop [for i < len(data)] of [DecodeRunLength]; [data] is the part of
    the input from index [i] on, [result] the output so far. *)
Equations? DecodeRunLength_loop (data : list Z) (result : list Z) : list Z
  by wf (length data) lt :=
  DecodeRunLength_loop [] result := result;
  DecodeRunLength_loop (length_ :: rest) result with Z.eqb length_ 128 => {
    | true := result;
    | false with Z.ltb length_ 128 => {
      | true :=
          let count := length_ + 1 in
          let count := if Z.ltb (len rest) count then len rest else count in
          DecodeRunLength_loop (skipn (Z.to_nat count) rest)
                               (result ++ firstn (Z.to_nat count) rest);
      | false with rest => {
        | [] := result;
        | b :: rest' :=
            let repeat_ := 257 - length_ in
            DecodeRunLength_loop rest' (result ++ repeat b (Z.to_nat repeat_)) } } }.
Proof. all: try rewrite length_skipn; simpl; lia. Qed.

Definition DecodeRunLength (data : list Z) : list Z * error :=
  (DecodeRunLength_loop data [], None).

(** ** LZWDecode (filters.go, [DecodeLZW]) *)

(** [lzwDecoder]: the fields that change ([data] and [earlyChange] are
    read only; [clearCode] is 256 and [endCode] 257).  [table] has 4096
    entries; an entry that is not set is [nil], here the empty list. *)
Record lzwDecoder := mkLzwDecoder {
  pos : Z;
  bitPos : Z;
  table : list (list Z);
  codeSize : Z;
  nextCode : Z
}.

Definition clearCode : Z := 256.
Definition endCode : Z := 257.

Definition initial_table : list (list Z) :=
  map (fun i => [Z.of_nat i]) (seq 0 256) ++ repeat [] (4096 - 256).

Definition reset (d : lzwDecoder) : lzwDecoder :=
  mkLzwDecoder (pos d) (bitPos d) initial_table 9 258.

Definition newLZWDecoder : lzwDecoder := reset (mkLzwDecoder 0 0 [] 0 0).

(** The loop [for bitsNeeded > 0] of [readCode]; every iteration reads at
    least one bit, so [fuel], the number of bits needed, is enough.  The
    result is the code, whether it was read, and the position after it. *)
Fixpoint readCode_loop (fuel : nat) (data : list Z) (pos bitPos : Z)
  (code bitsNeeded : Z) : option (Z * bool * (Z * Z)) :=
  if Z.leb bitsNeeded 0 then Some (code, true, (pos, bitPos))
  else
    match fuel with
    | O => None
    | S fuel' =>
        if Z.leb (len data) pos then Some (0, false, (pos, bitPos))
        else
          let bitsAvail := 8 - bitPos in
          let bitsToRead := bitsNeeded in
          let bitsToRead := if Z.ltb bitsAvail bitsToRead then bitsAvail else bitsToRead in
          if Z.ltb bitsToRead 0 then None
          else
            let mask := Z.shiftl 1 bitsToRead - 1 in
            let shift := bitsAvail - bitsToRead in
            byte <- idx data pos ;;
            let bits := Z.land (Z.shiftr byte shift) mask in
            let code := Z.lor (Z.shiftl code bitsToRead) bits in
            let bitsNeeded := bitsNeeded - bitsToRead in
            let bitPos := bitPos + bitsToRead in
            if Z.leb 8 bitPos
            then readCode_loop fuel' data (pos + 1) 0 code bitsNeeded
            else readCode_loop fuel' data pos bitPos code bitsNeeded
    end.

Definition readCode (data : list Z) (d : lzwDecoder)
  : option (Z * bool * lzwDecoder) :=
  if Z.leb (len data) (pos d) then Some (0, false, d)
  else
    r <- readCode_loop (Z.to_nat (codeSize d)) data (pos d) (bitPos d) 0 (codeSize d) ;;
    let '(code, ok, (pos', bitPos')) := r in
    Some (code, ok, mkLzwDecoder pos' bitPos' (table d) (codeSize d) (nextCode d)).

(** The sequence of a code that is neither the end code nor the clear
    code: [Some None] is the invalid code, [None] a panic. *)
Definition code_sequence (d : lzwDecoder) (code : Z) (prevSeq : option (list Z))
  : option (option (list Z)) :=
  if Z.ltb code (nextCode d) then
    seq <- idx (table d) code ;; Some (Some seq)
  else
    match prevSeq with
    | Some prev =>
        if Z.eqb code (nextCode d)
        then first <- idx prev 0 ;; Some (Some (prev ++ [first]))
        else Some None
    | None => Some None
    end.

(** The new table entry and the adjustment of the code size. *)
Definition add_entry (earlyChange : bool) (d : lzwDecoder) (seq : list Z)
  (prevSeq : option (list Z)) : option lzwDecoder :=
  match prevSeq with
  | Some prev =>
      if Z.ltb (nextCode d) 4096 then
        first <- idx seq 0 ;;
        table <- upd (table d) (nextCode d) (prev ++ [first]) ;;
        let nextCode := nextCode d + 1 in
        let threshold := Z.shiftl 1 (codeSize d) in
        let threshold := if earlyChange then threshold - 1 else threshold in
        let codeSize :=
          if Z.leb threshold nextCode && Z.ltb (codeSize d) 12
          then codeSize d + 1 else codeSize d in
        Some (mkLzwDecoder (pos d) (bitPos d) table codeSize nextCode)
      else Some d
  | None => Some d
  end.

(** [fmt.Errorf("invalid LZW code: %d", code)]. *)
Definition itoa (n : Z) : string := NilZero.string_of_int (Z.to_int n).

Definition invalid_code (code : Z) : string :=
  ("invalid LZW code: " ++ itoa code)%string.

(** [prevSeq = seq]: a table entry that is not set is [nil]. *)
Definition as_prevSeq (seq : list Z) : option (list Z) :=
  match seq with
  | [] => None
  | _ => Some seq
  end.

(** The loop [for { ... }] of [decode]; every iteration but the last reads
    a code, so a [fuel] above the number of codes is enough.  [None] is a
    panic or the exhaustion of the fuel. *)
Fixpoint decode_loop (fuel : nat) (data : list Z) (earlyChange : bool)
  (d : lzwDecoder) (result : list Z) (prevSeq : option (list Z))
  : option (list Z * error) :=
  match fuel with
  | O => None
  | S fuel' =>
      r <- readCode data d ;;
      let '(code, ok, d) := r in
      if negb ok then Some (result, None)
      else if Z.eqb code endCode then Some (result, None)
      else if Z.eqb code clearCode
      then decode_loop fuel' data earlyChange (reset d) result None
      else
        s <- code_sequence d code prevSeq ;;
        match s with
        | None => Some ([], Some (invalid_code code))
        | Some seq =>
            d <- add_entry earlyChange d seq prevSeq ;;
            decode_loop fuel' data earlyChange d (result ++ seq) (as_prevSeq seq)
        end
  end.

Definition DecodeLZW (data : list Z) (earlyChange : Z) : option (list Z * error) :=
  if Z.eqb (len data) 0 then Some ([], None)
  else decode_loop (S (length data)) data (Z.eqb earlyChange 1)
                   newLZWDecoder [] None.

(** ** The LZW algorithm, after the words of the specification *)

(** The bits of the input, every byte from its most significant bit on,
    and the number that a run of bits writes. *)
Definition bits_of_byte (b : Z) : list bool :=
  map (fun k => Z.testbit b (Z.of_nat k)) [7; 6; 5; 4; 3; 2; 1; 0]%nat.

Definition bits_of_bytes (data : list Z) : list bool :=
  flat_map bits_of_byte data.

Definition value_of_bits (bits : list bool) : Z :=
  fold_left (fun acc b => 2 * acc + Z.b2z b) bits 0.

(** The next code of [width] bits and the bits after it; no code when
    fewer bits are left. *)
Definition next_code (width : nat) (bits : list bool) : option (Z * list bool) :=
  match width with
  | O => None
  | S _ =>
      if Nat.ltb (length bits) width then None
      else Some (value_of_bits (firstn width bits), skipn width bits)
  end.

(** The string of a code: a single byte below 256, an assigned code from
    258 on, or, for the next unassigned code, the previous string followed
    by its own first byte.  [dict] holds the strings assigned so far. *)
Definition lzw_entry (dict : list (list Z)) (prev : option (list Z)) (code : Z)
  : option (list Z) :=
  if Z.ltb code 256 then Some [code]
  else if Z.leb 258 code && Z.ltb code (258 + len dict)
  then nth_error dict (Z.to_nat (code - 258))
  else if Z.eqb code (258 + len dict) then
    match prev with
    | Some p => Some (p ++ firstn 1 p)
    | None => None
    end
  else None.

(** The table after a string has been emitted: the previous string
    followed by the first byte of the emitted one gets the next code, while
    codes are left. *)
Definition lzw_grow (dict : list (list Z)) (prev : option (list Z)) (seq : list Z)
  : list (list Z) :=
  match prev with
  | Some p => if Z.ltb (258 + len dict) 4096 then dict ++ [p ++ firstn 1 seq] else dict
  | None => dict
  end.

(** The code width after the table has grown from [dict] to [dict']: one
    bit more, up to 12, when the next code to assign has reached
    [(1 << width) - early]. *)
Definition lzw_width (early : Z) (dict dict' : list (list Z)) (width : nat) : nat :=
  if Z.ltb (len dict) (len dict') &&
     Z.leb (2 ^ Z.of_nat width - early) (258 + len dict') &&
     Nat.ltb width 12
  then S width else width.

Lemma next_code_shorter (width : nat) (bits rest : list bool) (code : Z) :
  next_code width bits = Some (code, rest) -> (length rest < length bits)%nat.
Proof.
  unfold next_code. destruct width as [|w]; [discriminate|].
  destruct (Nat.ltb (length bits) (S w)) eqn:E; [discriminate|].
  apply Nat.ltb_ge in E. intros H.
  assert (rest = skipn (S w) bits) as -> by congruence.
  rewrite length_skipn. lia.
Qed.

(** The decoder of the specification: codes of [width] bits, 256 clears
    the table and the previous string, 257 ends the data; the result is the
    output or the code that has no string. *)
Equations? lzw_reference (early : Z) (bits : list bool) (dict : list (list Z))
  (width : nat) (prev : option (list Z)) : list Z + Z
  by wf (length bits) lt :=
  lzw_reference early bits dict width prev with inspect (next_code width bits) => {
    | exist _ None _ := inl [];
    | exist _ (Some (code, rest)) Hcode :=
        if Z.eqb code 257 then inl []
        else if Z.eqb code 256 then lzw_reference early rest [] 9 None
        else
          match lzw_entry dict prev code with
          | None => inr code
          | Some seq =>
              let dict' := lzw_grow dict prev seq in
              match lzw_reference early rest dict' (lzw_width early dict dict' width)
                                  (Some seq) with
              | inl out => inl (seq ++ out)
              | inr err => inr err
              end
          end }.
Proof. all: eapply next_code_shorter; eassumption. Qed.

Lemma lzw_reference_step (early : Z) (bits : list bool) (dict : list (list Z))
  (width : nat) (prev : option (list Z)) :
  lzw_reference early bits dict width prev =
  match next_code width bits with
  | None => inl []
  | Some (code, rest) =>
      if Z.eqb code 257 then inl []
      else if Z.eqb code 256 then lzw_reference early rest [] 9 None
      else
        match lzw_entry dict prev code with
        | None => inr code
        | Some seq =>
            let dict' := lzw_grow dict prev seq in
            match lzw_reference early rest dict' (lzw_width early dict dict' width)
                                (Some seq) with
            | inl out => inl (seq ++ out)
            | inr err => inr err
            end
        end
  end.
Proof.
  funelim (lzw_reference early bits dict width prev);
    match goal with E : next_code _ _ = _ |- _ => now rewrite E end.
Qed.

(** ** Relating the decoder to the specification *)

(** The run of [k] bits at position [P] of the input. *)
Definition bits_at (data : list Z) (P k : nat) : list bool :=
  firstn k (skipn P (bits_of_bytes data)).

(** What one iteration of [readCode] takes from a byte, checked on every
    byte and every run inside it. *)
Definition byte_run_ok (b s t : nat) : bool :=
  Z.eqb (Z.land (Z.shiftr (Z.of_nat b) (8 - Z.of_nat s - Z.of_nat t))
                (Z.shiftl 1 (Z.of_nat t) - 1))
        (value_of_bits (firstn t (skipn s (bits_of_byte (Z.of_nat b))))).

(** The decoder [d] stands before the bits [bits] of [data], and its
    table holds the single bytes and, from code 258 on, the strings
    [dict]; [width] is its code size. *)
Record related (data : list Z) (d : lzwDecoder) (bits : list bool)
  (dict : list (list Z)) (width : nat) : Prop := {
  rel_pos : 0 <= pos d;
  rel_bitPos : 0 <= bitPos d < 8;
  rel_inside : 8 * pos d + bitPos d <= 8 * len data;
  rel_bits : bits = skipn (Z.to_nat (8 * pos d + bitPos d)) (bits_of_bytes data);
  rel_len : len (table d) = 4096;
  rel_single : forall c, 0 <= c < 256 -> idx (table d) c = Some [c];
  rel_dict : forall c, 258 <= c < nextCode d ->
             idx (table d) c = nth_error dict (Z.to_nat (c - 258));
  rel_next : nextCode d = 258 + len dict;
  rel_full : nextCode d <= 4096;
  rel_width : codeSize d = Z.of_nat width;
  rel_range : (9 <= width <= 12)%nat;
  rel_nonempty : Forall (fun e => e <> []) dict
}.

Definition prev_ok (prev : option (list Z)) : Prop :=
  match prev with
  | Some p => p <> []
  | None => True
  end.

Definition initial_single_ok (c : nat) : bool :=
  match idx initial_table (Z.of_nat c) with
  | Some [b] => Z.eqb b (Z.of_nat c)
  | _ => false
  end.

(** What [decode] returns for the result of the specification, after the
    output [result] so far. *)
Definition lzw_result (result : list Z) (r : list Z + Z) : list Z * error :=
  match r with
  | inl out => (result ++ out, None)
  | inr code => ([], Some (invalid_code code))
  end.

(** The decoders that take no part. *)
Definition no_decoder (data : list Z) : option (list Z * error) := None.

(** *** Properties of RunLengthDecode *)

Lemma DecodeRunLength_loop_acc (data result : list Z) :
  DecodeRunLength_loop data result = result ++ DecodeRunLength_loop data [].
Proof.
  revert result.
  induction data as [data IH] using list_length_ind.
  intros result. destruct data as [|n rest]; simp DecodeRunLength_loop.
  - now rewrite app_nil_r.
  - destruct (Z.eqb n 128) eqn:E128; simpl.
    + now rewrite app_nil_r.
    + destruct (Z.ltb n 128) eqn:Elt; simpl.
      * rewrite (IH (skipn _ rest)) by (rewrite length_skipn; simpl; lia).
        symmetry.
        rewrite (IH (skipn _ rest)) by (rewrite length_skipn; simpl; lia).
        simpl. now rewrite app_assoc.
      * destruct rest as [|b rest']; simpl.
        -- now rewrite app_nil_r.
        -- rewrite (IH rest') by (simpl; lia). symmetry.
           rewrite (IH rest') by (simpl; lia). simpl. now rewrite app_assoc.
Qed.

Lemma DecodeRunLength_copy (n : Z) (rest : list Z) :
  0 <= n < 128 ->
  fst (DecodeRunLength (n :: rest)) =
  firstn (Z.to_nat (n + 1)) rest ++
  fst (DecodeRunLength (skipn (Z.to_nat (n + 1)) rest)).
Proof.
  intros Hn. unfold DecodeRunLength; simpl. simp DecodeRunLength_loop.
  replace (Z.eqb n 128) with false by (symmetry; apply Z.eqb_neq; lia).
  simpl. replace (Z.ltb n 128) with true by (symmetry; apply Z.ltb_lt; lia).
  simpl. rewrite DecodeRunLength_loop_acc. unfold len.
  destruct (Z.ltb (Z.of_nat (length rest)) (n + 1)) eqn:E.
  - apply Z.ltb_lt in E. rewrite Nat2Z.id.
    rewrite firstn_all, skipn_all.
    rewrite firstn_all2 by lia. rewrite skipn_all2 by lia. reflexivity.
  - reflexivity.
Qed.

Lemma DecodeRunLength_repeat (n b : Z) (rest : list Z) :
  128 < n ->
  fst (DecodeRunLength (n :: b :: rest)) =
  repeat b (Z.to_nat (257 - n)) ++ fst (DecodeRunLength rest).
Proof.
  intros Hn. unfold DecodeRunLength; simpl. simp DecodeRunLength_loop.
  replace (Z.eqb n 128) with false by (symmetry; apply Z.eqb_neq; lia).
  simpl. replace (Z.ltb n 128) with false by (symmetry; apply Z.ltb_ge; lia).
  simpl. now rewrite DecodeRunLength_loop_acc.
Qed.

Lemma DecodeRunLength_repeat_truncated (n : Z) :
  128 < n -> fst (DecodeRunLength [n]) = [].
Proof.
  intros Hn. unfold DecodeRunLength; simpl. simp DecodeRunLength_loop.
  replace (Z.eqb n 128) with false by (symmetry; apply Z.eqb_neq; lia).
  simpl. replace (Z.ltb n 128) with false by (symmetry; apply Z.ltb_ge; lia).
  reflexivity.
Qed.

(** C10.  [DecodeRunLength] is total and its error is always [nil]; a length
    byte 128 ends decoding; a length byte [n] in 0..127 copies the next
    [n + 1] bytes, or the bytes that remain when fewer are left, in which
    case the output ends there; a length byte [n] in 129..255 repeats the
    next byte [257 - n] times, or produces nothing when no byte is left. *)
Theorem DecodeRunLength_total :
  (forall data, snd (DecodeRunLength data) = None) /\
  fst (DecodeRunLength []) = [] /\
  (forall rest, fst (DecodeRunLength (128 :: rest)) = []) /\
  (forall n rest, 0 <= n <= 127 ->
     fst (DecodeRunLength (n :: rest)) =
     firstn (Z.to_nat (n + 1)) rest ++
     fst (DecodeRunLength (skipn (Z.to_nat (n + 1)) rest))) /\
  (forall n rest, 0 <= n <= 127 -> len rest <= n + 1 ->
     fst (DecodeRunLength (n :: rest)) = rest) /\
  (forall n b rest, 129 <= n <= 255 ->
     fst (DecodeRunLength (n :: b :: rest)) =
     repeat b (Z.to_nat (257 - n)) ++ fst (DecodeRunLength rest)) /\
  (forall n, 129 <= n <= 255 -> fst (DecodeRunLength [n]) = []).
Proof.
  split; [reflexivity|]. split; [reflexivity|]. split; [reflexivity|].
  split; [|split; [|split]].
  - intros n rest Hn. apply DecodeRunLength_copy. lia.
  - intros n rest Hn Hlen. rewrite DecodeRunLength_copy by lia.
    unfold len in Hlen.
    rewrite firstn_all2 by lia. rewrite skipn_all2 by lia.
    apply app_nil_r.
  - intros n b rest Hn. apply DecodeRunLength_repeat. lia.
  - intros n Hn. apply DecodeRunLength_repeat_truncated. lia.
Qed.

(** The cases of C10 on the stream [2 A B C 254 x 3 P Q] (truncated literal
    run at the end). *)
Lemma DecodeRunLength_total_witness :
  fst (DecodeRunLength [2; 65; 66; 67]) = [65; 66; 67] /\
  fst (DecodeRunLength [3; 80; 81]) = [80; 81] /\
  fst (DecodeRunLength [254; 120; 128; 9]) = [120; 120; 120] /\
  fst (DecodeRunLength [200]) = [].
Proof.
  destruct DecodeRunLength_total as (_ & _ & H128 & Hcopy & Htrunc & Hrep & Hrep0).
  split; [|split; [|split]].
  - rewrite (Hcopy 2 [65; 66; 67]) by lia. reflexivity.
  - apply (Htrunc 3 [80; 81]); unfold len; simpl; lia.
  - rewrite (Hrep 254 120 [128; 9]) by lia. rewrite H128. reflexivity.
  - apply (Hrep0 200). lia.
Defined.

(** ** Predictors (predictor.go) *)

Record DecodeParams := mkDecodeParams {
  Predictor : Z;
  Colors : Z;
  BitsPerComponent : Z;
  Columns : Z;
  EarlyChange : Z
}.

Definition DefaultDecodeParams : DecodeParams :=
  mkDecodeParams 1 1 8 1 1.

Definition abs (x : Z) : Z := if Z.ltb x 0 then - x else x.

Definition paeth (a b c : Z) : Z :=
  let p := a + b - c in
  let pa := abs (p - a) in
  let pb := abs (p - b) in
  let pc := abs (p - c) in
  if Z.leb pa pb && Z.leb pa pc then a
  else if Z.leb pb pc then b
  else c.

(** [applyPNGFilter]: the row is copied and then updated in place from left
    to right, so [decoded[i-bytesPerPixel]] is already a decoded byte. *)
Definition applyPNGFilter (row prevRow : list Z) (filterType bytesPerPixel : Z)
  : option (list Z) :=
  let decoded := row in
  if Z.eqb filterType 0 then Some decoded
  else if Z.eqb filterType 1 then
    for_range bytesPerPixel (len decoded) (fun i decoded =>
      x <- idx decoded i ;;
      l <- idx decoded (i - bytesPerPixel) ;;
      upd decoded i (wrap8 (x + l))) decoded
  else if Z.eqb filterType 2 then
    for_range 0 (Z.min (len decoded) (len prevRow)) (fun i decoded =>
      x <- idx decoded i ;;
      u <- idx prevRow i ;;
      upd decoded i (wrap8 (x + u))) decoded
  else if Z.eqb filterType 3 then
    for_range 0 (len decoded) (fun i decoded =>
      left <- (if Z.leb bytesPerPixel i then idx decoded (i - bytesPerPixel)
               else Some 0) ;;
      up <- (if Z.ltb i (len prevRow) then idx prevRow i else Some 0) ;;
      x <- idx decoded i ;;
      upd decoded i (wrap8 (x + wrap8 (Z.quot (left + up) 2)))) decoded
  else if Z.eqb filterType 4 then
    for_range 0 (len decoded) (fun i decoded =>
      a <- (if Z.leb bytesPerPixel i then idx decoded (i - bytesPerPixel)
            else Some 0) ;;
      b <- (if Z.ltb i (len prevRow) then idx prevRow i else Some 0) ;;
      c <- (if Z.leb bytesPerPixel i && Z.ltb (i - bytesPerPixel) (len prevRow)
            then idx prevRow (i - bytesPerPixel) else Some 0) ;;
      x <- idx decoded i ;;
      upd decoded i (wrap8 (x + paeth a b c))) decoded
  else Some decoded.

Definition applyOptimumPredictor (data : list Z) (params : DecodeParams)
  : list Z * error := (data, None).

(** A zero parameter stands for its default. *)
Definition or_default (x d : Z) : Z := if Z.eqb x 0 then d else x.

Definition bytesPerPixel_of (params : DecodeParams) : Z :=
  let colors := or_default (Colors params) 1 in
  let bpc := or_default (BitsPerComponent params) 8 in
  Z.quot (wrap_int (wrap_int (colors * bpc) + 7)) 8.

Definition rowSize_of (params : DecodeParams) : Z :=
  let columns := or_default (Columns params) 1 in
  let colors := or_default (Colors params) 1 in
  let bpc := or_default (BitsPerComponent params) 8 in
  Z.quot (wrap_int (wrap_int (wrap_int (columns * colors) * bpc) + 7)) 8.

(** One iteration of the row loop of [applyPNGPredictor]; the state is
    [(result, prevRow)].  The [break] on [start >= len(data)] cannot be
    taken, since [row < numRows = len(data) / inputRowSize]; it is modelled
    as leaving the state as it is for this and, by the same test, every
    later row. *)
Definition applyPNGPredictor_row (data : list Z) (predictor rowSize bytesPerPixel : Z)
  (row : Z) (st : list Z * list Z) : option (list Z * list Z) :=
  let '(result, prevRow) := st in
  let inputRowSize := rowSize + 1 in
  let start := row * inputRowSize in
  if Z.leb (len data) start then Some st
  else
    filterType <- idx data start ;;
    let fixed := Z.leb 10 predictor && Z.leb predictor 14 && Z.ltb 4 filterType in
    let filterType := if fixed then wrap8 (predictor - 10) else filterType in
    let start := if fixed then start - 1 else start in
    let rowDataStart := start + 1 in
    let rowDataEnd := rowDataStart + rowSize in
    let rowDataEnd := if Z.ltb (len data) rowDataEnd then len data else rowDataEnd in
    rowData <- make 0 rowSize ;;
    let rowData :=
      if Z.ltb rowDataStart (len data)
      then copy rowData (slice data rowDataStart rowDataEnd)
      else rowData in
    decoded <- applyPNGFilter rowData prevRow filterType bytesPerPixel ;;
    Some (result ++ decoded, copy prevRow decoded).

Definition applyPNGPredictor (data : list Z) (params : DecodeParams) (predictor : Z)
  : option (list Z * error) :=
  let bytesPerPixel := bytesPerPixel_of params in
  let rowSize := rowSize_of params in
  let inputRowSize := rowSize + 1 in
  if Z.eqb (len data) 0 || Z.eqb inputRowSize 0 then Some (data, None)
  else
    let numRows := Z.quot (len data) inputRowSize in
    if Z.eqb numRows 0 then Some (applyOptimumPredictor data params)
    else
      _ <- make 0 (numRows * rowSize) ;;
      prevRow <- make 0 rowSize ;;
      st <- for_range 0 numRows
              (applyPNGPredictor_row data predictor rowSize bytesPerPixel)
              ([], prevRow) ;;
      Some (fst st, None).

(** One row of [EncodePNGPredictor]: the Sub filter. *)
Definition encode_row (rowData : list Z) (bytesPerPixel : Z) : option (list Z) :=
  encoded <- make 0 (len rowData) ;;
  for_range 0 (len rowData) (fun i encoded =>
    x <- idx rowData i ;;
    if Z.ltb i bytesPerPixel then upd encoded i x
    else
      l <- idx rowData (i - bytesPerPixel) ;;
      upd encoded i (wrap8 (x - l))) encoded.

Definition EncodePNGPredictor_row (data : list Z) (rowSize bytesPerPixel : Z)
  (row : Z) (st : list Z * list Z) : option (list Z * list Z) :=
  let '(result, prevRow) := st in
  let start := row * rowSize in
  let end_ := start + rowSize in
  let end_ := if Z.ltb (len data) end_ then len data else end_ in
  let rowData := slice data start end_ in
  encoded <- encode_row rowData bytesPerPixel ;;
  Some (result ++ [1] ++ encoded, copy prevRow rowData).

Definition EncodePNGPredictor (data : list Z) (params : DecodeParams)
  : option (list Z * error) :=
  let bytesPerPixel := bytesPerPixel_of params in
  let rowSize := rowSize_of params in
  if Z.eqb (len data) 0 || Z.eqb rowSize 0 then Some (data, None)
  else
    let numRows := Z.quot (len data) rowSize in
    _ <- make 0 (numRows * (rowSize + 1)) ;;
    prevRow <- make 0 rowSize ;;
    st <- for_range 0 numRows
            (EncodePNGPredictor_row data rowSize bytesPerPixel)
            ([], prevRow) ;;
    Some (fst st, None).

(** [applyTIFFPredictor]: horizontal differencing, 8-bit components only. *)
Definition applyTIFFPredictor (data : list Z) (params : DecodeParams)
  : option (list Z * error) :=
  let columns := or_default (Columns params) 1 in
  let colors := or_default (Colors params) 1 in
  let bpc := or_default (BitsPerComponent params) 8 in
  if negb (Z.eqb bpc 8) then Some (data, None)
  else
    let bytesPerRow := wrap_int (columns * colors) in
    if Z.eqb (len data) 0 || Z.eqb bytesPerRow 0 then Some (data, None)
    else
      let numRows := Z.quot (len data) bytesPerRow in
      result <- for_range 0 numRows (fun row result =>
        let rowStart := wrap_int (row * bytesPerRow) in
        for_range colors bytesPerRow (fun col result =>
          x <- idx result (rowStart + col) ;;
          l <- idx result (rowStart + col - colors) ;;
          upd result (rowStart + col) (wrap8 (x + l))) result) data ;;
      Some (result, None).

(** [ApplyPredictor]; the error text is given without its formatted
    argument. *)
Definition ApplyPredictor (data : list Z) (params : DecodeParams)
  : option (list Z * error) :=
  let predictor := Predictor params in
  if Z.eqb predictor 1 then Some (data, None)
  else if Z.eqb predictor 2 then applyTIFFPredictor data params
  else if Z.leb 10 predictor && Z.leb predictor 15
  then applyPNGPredictor data params predictor
  else Some ([], Some "unsupported predictor"%string).

(** ** The filter dispatcher *)

(** [Decode]: the switch on the filter name, then the predictor.  The
    zlib, ASCIIHex and ASCII85 decoders take no part in what is proved
    here and stay abstract. *)
Section Dispatch.

Variables DecodeFlateDecode DecodeASCIIHex DecodeASCII85
  : list Z -> option (list Z * error).

Definition decode_filter (data : list Z) (filter : string) (params : DecodeParams)
  : option (option (list Z * error)) :=
  if String.eqb filter "FlateDecode" then r <- DecodeFlateDecode data ;; Some (Some r)
  else if String.eqb filter "ASCIIHexDecode" then r <- DecodeASCIIHex data ;; Some (Some r)
  else if String.eqb filter "ASCII85Decode" then r <- DecodeASCII85 data ;; Some (Some r)
  else if String.eqb filter "LZWDecode"
  then r <- DecodeLZW data (EarlyChange params) ;; Some (Some r)
  else if String.eqb filter "RunLengthDecode" then Some (Some (DecodeRunLength data))
  else Some None.

Definition Decode (data : list Z) (filter : string) (params : DecodeParams)
  : option (list Z * error) :=
  if String.eqb filter "DCTDecode" || String.eqb filter "JPXDecode"
  then Some (data, None)
  else
    r <- decode_filter data filter params ;;
    match r with
    | None => Some ([], Some ("unsupported filter: " ++ filter)%string)
    | Some (_, Some err) => Some ([], Some err)
    | Some (decoded, None) =>
        if Z.ltb 1 (Predictor params) then
          r <- ApplyPredictor decoded params ;;
          match r with
          | (_, Some err) => Some ([], Some err)
          | (decoded, None) => Some (decoded, None)
          end
        else Some (decoded, None)
    end.

End Dispatch.

(** ** ASCIIHexDecode and ASCII85Decode (filters.go) *)

Definition wrap32 (x : Z) : Z := x mod 2 ^ 32.

Definition isWhitespace (b : Z) : bool :=
  Z.eqb b 32 || Z.eqb b 9 || Z.eqb b 13 || Z.eqb b 10 || Z.eqb b 12 || Z.eqb b 0.

(** The [switch] of [DecodeASCIIHex] on a byte: its nibble, or [None] for
    the [default] case. *)
Definition hex_value (b : Z) : option Z :=
  if Z.leb 48 b && Z.leb b 57 then Some (wrap8 (b - 48))
  else if Z.leb 65 b && Z.leb b 70 then Some (wrap8 (wrap8 (b - 65) + 10))
  else if Z.leb 97 b && Z.leb b 102 then Some (wrap8 (wrap8 (b - 97) + 10))
  else None.

(** The loop [for _, b := range data] of [DecodeASCIIHex]; the state is
    [result], [hexByte] and [haveNibble]. *)
Fixpoint DecodeASCIIHex_loop (data : list Z) (result : list Z) (hexByte : Z)
  (haveNibble : bool) : list Z * Z * bool :=
  match data with
  | [] => (result, hexByte, haveNibble)
  | b :: rest =>
      if Z.eqb b 62 then (result, hexByte, haveNibble)
      else if isWhitespace b then DecodeASCIIHex_loop rest result hexByte haveNibble
      else
        match hex_value b with
        | None => DecodeASCIIHex_loop rest result hexByte haveNibble
        | Some nibble =>
            if haveNibble
            then DecodeASCIIHex_loop rest
                   (result ++ [Z.lor (wrap8 (Z.shiftl hexByte 4)) nibble])
                   hexByte false
            else DecodeASCIIHex_loop rest result nibble true
        end
  end.

(** After the loop: a last nibble without its pair is the high one of a
    byte. *)
Definition DecodeASCIIHex_end (st : list Z * Z * bool) : list Z :=
  let '(result, hexByte, haveNibble) := st in
  if haveNibble then result ++ [wrap8 (Z.shiftl hexByte 4)] else result.

Definition DecodeASCIIHex (data : list Z) : list Z * error :=
  (DecodeASCIIHex_end (DecodeASCIIHex_loop data [] 0 false), None).

(** The four bytes of a group of [DecodeASCII85]. *)
Definition tuple_bytes (tuple : Z) : list Z :=
  [wrap8 (Z.shiftr tuple 24); wrap8 (Z.shiftr tuple 16);
   wrap8 (Z.shiftr tuple 8); wrap8 tuple].

(** The loop [for i := 0; i < len(data); i++] of [DecodeASCII85]; the state
    is [result], the [uint32] [tuple] and [count]. *)
Fixpoint DecodeASCII85_loop (data : list Z) (result : list Z) (tuple count : Z)
  : list Z * Z * Z :=
  match data with
  | [] => (result, tuple, count)
  | b :: rest =>
      if Z.eqb b 126 then (result, tuple, count)
      else if isWhitespace b then DecodeASCII85_loop rest result tuple count
      else if Z.eqb b 122 && Z.eqb count 0
      then DecodeASCII85_loop rest (result ++ [0; 0; 0; 0]) tuple count
      else if Z.ltb b 33 || Z.ltb 117 b
      then DecodeASCII85_loop rest result tuple count
      else
        let tuple := wrap32 (wrap32 (tuple * 85) + wrap8 (b - 33)) in
        let count := count + 1 in
        if Z.eqb count 5
        then DecodeASCII85_loop rest (result ++ tuple_bytes tuple) 0 0
        else DecodeASCII85_loop rest result tuple count
  end.

(** The partial group at the end: [for i := count; i < 5; i++] pads the
    tuple with the digit 84, and the [switch] cuts it to the bytes that
    were encoded. *)
Definition pad_tuple (tuple count : Z) : Z :=
  Nat.iter (Z.to_nat (5 - count)) (fun t => wrap32 (wrap32 (t * 85) + 84)) tuple.

Definition DecodeASCII85_rest (result : list Z) (tuple count : Z) : list Z :=
  if Z.ltb 0 count then
    let tuple := pad_tuple tuple count in
    if Z.eqb count 2 then result ++ firstn 1 (tuple_bytes tuple)
    else if Z.eqb count 3 then result ++ firstn 2 (tuple_bytes tuple)
    else if Z.eqb count 4 then result ++ firstn 3 (tuple_bytes tuple)
    else result
  else result.

Definition DecodeASCII85_end (st : list Z * Z * Z) : list Z :=
  let '(result, tuple, count) := st in DecodeASCII85_rest result tuple count.

Definition DecodeASCII85 (data : list Z) : list Z * error :=
  (DecodeASCII85_end (DecodeASCII85_loop data [] 0 0), None).

(** [Decode] with the two decoders above; zlib stays abstract. *)
Definition Decode_with (DecodeFlateDecode : list Z -> option (list Z * error))
  : list Z -> string -> DecodeParams -> option (list Z * error) :=
  Decode DecodeFlateDecode
         (fun data => Some (DecodeASCIIHex data))
         (fun data => Some (DecodeASCII85 data)).

(** *** Encoders, for stating what the decoders undo *)

(** Two upper-case hexadecimal digits per byte. *)
Definition hex_digit (n : Z) : Z := if Z.ltb n 10 then 48 + n else 55 + n.

Definition hex_of_byte (b : Z) : list Z := [hex_digit (b / 16); hex_digit (b mod 16)].

Definition EncodeASCIIHex (bytes : list Z) : list Z := flat_map hex_of_byte bytes.

(** The bytes before the first [marker]. *)
Fixpoint before (marker : Z) (data : list Z) : list Z :=
  match data with
  | [] => []
  | b :: rest => if Z.eqb b marker then [] else b :: before marker rest
  end.

Definition is_hex (b : Z) : bool :=
  match hex_value b with
  | Some _ => true
  | None => false
  end.

(** The hexadecimal digits that [DecodeASCIIHex] reads. *)
Definition hex_digits (data : list Z) : list Z := filter is_hex (before 62 data).

(** Five digits in base 85 per group of four bytes, from the character
    [!] on; a last group of [n] bytes gives [n + 1] digits. *)
Definition group_value (b0 b1 b2 b3 : Z) : Z :=
  b0 * 2 ^ 24 + b1 * 2 ^ 16 + b2 * 2 ^ 8 + b3.

Definition digit85 (v k : Z) : Z := 33 + (v / 85 ^ k) mod 85.

Definition encode85_group (v : Z) : list Z :=
  [digit85 v 4; digit85 v 3; digit85 v 2; digit85 v 1; digit85 v 0].

Fixpoint EncodeASCII85 (bytes : list Z) : list Z :=
  match bytes with
  | [] => []
  | [b0] => firstn 2 (encode85_group (group_value b0 0 0 0))
  | [b0; b1] => firstn 3 (encode85_group (group_value b0 b1 0 0))
  | [b0; b1; b2] => firstn 4 (encode85_group (group_value b0 b1 b2 0))
  | b0 :: b1 :: b2 :: b3 :: rest =>
      encode85_group (group_value b0 b1 b2 b3) ++ EncodeASCII85 rest
  end.

(** The characters that [DecodeASCII85] reads. *)
Definition is_base85 (b : Z) : bool :=
  (Z.leb 33 b && Z.leb b 117) || Z.eqb b 122.

Definition base85_digits (data : list Z) : list Z := filter is_base85 (before 126 data).

(** The end of the input, or the end marker. *)
Definition ends_input (tail : list Z) : Prop :=
  tail = [] \/ exists rest, tail = 126 :: rest.

(** *** What the TIFF predictor computes *)

(** The byte of the output at index [i] of its row of [bpr] bytes: the
    first pixel of a row is the input, and every later byte is the input
    plus the output [colors] bytes to the left. *)
Definition tiff_sum (colors bpr : Z) (data out : list Z) (i : Z) : Z :=
  match idx data i, idx out (i - colors) with
  | Some x, Some l => if Z.leb colors (i mod bpr) then wrap8 (x + l) else x
  | Some x, None => x
  | None, _ => 0
  end.

(** *** The runs of a RunLengthDecode stream *)

(** The source has the decoder only.  What it reads is a sequence of runs:
    a literal run of 1 to 128 bytes, written as the length byte
    [len - 1] and the bytes, or a byte repeated 2 to 128 times, written as
    the length byte [257 - n] and the byte. *)
Inductive run :=
| Literal (bytes : list Z)
| Repeated (b : Z) (n : Z).

Definition run_ok (r : run) : Prop :=
  match r with
  | Literal bytes => 1 <= len bytes <= 128
  | Repeated b n => 2 <= n <= 128
  end.

Definition encode_run (r : run) : list Z :=
  match r with
  | Literal bytes => (len bytes - 1) :: bytes
  | Repeated b n => [257 - n; b]
  end.

Definition expand_run (r : run) : list Z :=
  match r with
  | Literal bytes => bytes
  | Repeated b n => repeat b (Z.to_nat n)
  end.

(** *** The Sub filter undoes the Sub encoding of a row *)

(** Total indexing, for stating what a loop has written. *)
Definition getz (s : list Z) (i : Z) : Z :=
  match idx s i with Some x => x | None => 0 end.

Lemma idx_getz (s : list Z) (i : Z) :
  0 <= i < len s -> idx s i = Some (getz s i).
Proof.
  intros H. unfold getz. destruct (idx_in_range s i H) as (x & ->). reflexivity.
Qed.

Lemma getz_is_byte (s : list Z) (i : Z) :
  Forall is_byte s -> 0 <= i < len s -> is_byte (getz s i).
Proof.
  intros Hs Hi. pose proof (idx_getz s i Hi) as E.
  unfold idx in E. destruct (Z.ltb i 0); [discriminate|].
  apply nth_error_In in E. rewrite Forall_forall in Hs. now apply Hs.
Qed.

(** The byte that [EncodePNGPredictor] writes at index [j] of a row. *)
Definition sub_at (row : list Z) (bpp j : Z) : Z :=
  if Z.ltb j bpp then getz row j else wrap8 (getz row j - getz row (j - bpp)).

Lemma len_repeat {A : Type} (x : A) (n : nat) : len (repeat x n) = Z.of_nat n.
Proof. unfold len. now rewrite repeat_length. Qed.

Lemma encode_row_spec (row : list Z) (bpp : Z) :
  0 <= bpp ->
  exists enc, encode_row row bpp = Some enc /\ len enc = len row /\
    forall j, 0 <= j < len row -> idx enc j = Some (sub_at row bpp j).
Proof.
  intros Hbpp. unfold encode_row, make.
  pose proof (len_nonneg row) as Hlen.
  replace (Z.ltb (len row) 0) with false by (symmetry; apply Z.ltb_ge; lia).
  cbn [bind].
  set (body := fun (i : Z) (encoded : list Z) => _).
  destruct (for_range_invariant
    (fun i enc => len enc = len row /\
       forall j, 0 <= j < i -> idx enc j = Some (sub_at row bpp j))
    0 (len row) body (repeat 0 (Z.to_nat (len row)))) as (enc & E & Hl & Hi).
  - lia.
  - split; [rewrite len_repeat; lia | intros; lia].
  - intros i enc Hi (Hl & Hj). unfold body.
    rewrite (idx_getz row i) by lia. cbn [bind].
    assert (Hupd : forall v, exists enc', upd enc i v = Some enc' /\
              len enc' = len row /\
              (forall j, 0 <= j < i -> idx enc' j = idx enc j) /\
              idx enc' i = Some v).
    { intros v. eexists. split; [apply upd_in_range; lia|].
      split; [now rewrite len_set_nth|].
      split; [intros; apply idx_set_nth_ne; lia | apply idx_set_nth_eq; lia]. }
    destruct (Z.ltb i bpp) eqn:Eb.
    + destruct (Hupd (getz row i)) as (enc' & -> & Hl' & Hold & Hnew).
      eexists; split; [reflexivity|]. split; [exact Hl'|].
      intros j Hj'. destruct (Z.eq_dec j i) as [->|Hne].
      * rewrite Hnew. unfold sub_at. now rewrite Eb.
      * rewrite Hold by lia. apply Hj. lia.
    + apply Z.ltb_ge in Eb. rewrite (idx_getz row (i - bpp)) by lia. cbn [bind].
      destruct (Hupd (wrap8 (getz row i - getz row (i - bpp))))
        as (enc' & -> & Hl' & Hold & Hnew).
      eexists; split; [reflexivity|]. split; [exact Hl'|].
      intros j Hj'. destruct (Z.eq_dec j i) as [->|Hne].
      * rewrite Hnew. unfold sub_at.
        now replace (Z.ltb i bpp) with false by (symmetry; apply Z.ltb_ge; lia).
      * rewrite Hold by lia. apply Hj. lia.
  - exists enc. auto.
Qed.

Lemma wrap8_sub_add (x l : Z) : is_byte x -> wrap8 (wrap8 (x - l) + l) = x.
Proof.
  unfold wrap8, is_byte. intros H.
  rewrite Zplus_mod_idemp_l. replace (x - l + l) with x by lia.
  now apply Z.mod_small.
Qed.

Lemma applyPNGFilter_sub_encoded (row enc prevRow : list Z) (bpp : Z) :
  1 <= bpp ->
  Forall is_byte row ->
  len enc = len row ->
  (forall j, 0 <= j < len row -> idx enc j = Some (sub_at row bpp j)) ->
  applyPNGFilter enc prevRow 1 bpp = Some row.
Proof.
  intros Hbpp Hrow Hl Henc. unfold applyPNGFilter. cbn [Z.eqb Pos.eqb].
  set (body := fun (i : Z) (decoded : list Z) => _).
  destruct (Z.le_gt_cases (len enc) bpp) as [Hshort|Hlong].
  - rewrite for_range_empty by lia. f_equal. apply idx_ext; [exact Hl|].
    intros j Hj. rewrite Henc by lia. unfold sub_at.
    replace (Z.ltb j bpp) with true by (symmetry; apply Z.ltb_lt; lia).
    symmetry. apply idx_getz. lia.
  - destruct (for_range_invariant
      (fun i dec => len dec = len row /\
         (forall j, 0 <= j < i -> idx dec j = idx row j) /\
         (forall j, i <= j < len row -> idx dec j = idx enc j))
      bpp (len enc) body enc) as (dec & E & Hl' & Hlow & _).
    + lia.
    + split; [exact Hl|]. split; [|reflexivity].
      intros j Hj. rewrite Henc by lia. unfold sub_at.
      replace (Z.ltb j bpp) with true by (symmetry; apply Z.ltb_lt; lia).
      symmetry. apply idx_getz. lia.
    + intros i dec Hi (Hld & Hlow & Hhigh). unfold body.
      rewrite Hhigh, Henc by lia. cbn [bind].
      rewrite Hlow, (idx_getz row (i - bpp)) by lia. cbn [bind].
      rewrite upd_in_range by lia.
      eexists; split; [reflexivity|].
      split; [now rewrite len_set_nth|]. split.
      * intros j Hj. destruct (Z.eq_dec j i) as [->|Hne].
        -- rewrite idx_set_nth_eq by lia. unfold sub_at.
           replace (Z.ltb i bpp) with false by (symmetry; apply Z.ltb_ge; lia).
           rewrite wrap8_sub_add by (apply getz_is_byte; [exact Hrow|lia]).
           symmetry. apply idx_getz. lia.
        -- rewrite idx_set_nth_ne by lia. apply Hlow. lia.
      * intros j Hj. rewrite idx_set_nth_ne by lia. apply Hhigh. lia.
    + rewrite E. f_equal. apply idx_ext; [exact Hl'|].
      intros j Hj. apply Hlow. lia.
Qed.

(** *** The row loops of the encoder and of the decoder *)

Section PlaneRoundTrip.

Variables (plane : list Z) (R bpp n : Z).
Hypothesis HR : 1 <= R.
Hypothesis Hbpp : 1 <= bpp.
Hypothesis Hn : 0 <= n.
Hypothesis Hplane : len plane = n * R.
Hypothesis Hbytes : Forall is_byte plane.

(** Row [r] of the plane. *)
Definition plane_row (r : Z) : list Z := slice plane (r * R) (r * R + R).

(** What the encoder has written after [k] rows: every block starts with
    the filter byte 1 (Sub) and goes on with the Sub encoding of its row. *)
Definition encoded_upto (k : Z) (result : list Z) : Prop :=
  len result = k * (R + 1) /\
  forall r, 0 <= r < k ->
    idx result (r * (R + 1)) = Some 1 /\
    forall j, 0 <= j < R ->
      idx result (r * (R + 1) + 1 + j) = Some (sub_at (plane_row r) bpp j).

Lemma len_plane_row (r : Z) : 0 <= r < n -> len (plane_row r) = R.
Proof.
  intros Hr. unfold plane_row. rewrite len_slice; [lia|nia|nia].
Qed.

Lemma EncodePNGPredictor_rows :
  exists result prevRow,
    for_range 0 n (EncodePNGPredictor_row plane R bpp)
              ([], repeat 0 (Z.to_nat R)) = Some (result, prevRow) /\
    encoded_upto n result.
Proof.
  destruct (for_range_invariant
    (fun k st => encoded_upto k (fst st))
    0 n (EncodePNGPredictor_row plane R bpp) ([], repeat 0 (Z.to_nat R)))
    as ([result prevRow] & E & HP).
  - exact Hn.
  - split; [reflexivity | intros; lia].
  - intros k [result prevRow] Hk (Hl & Hblocks). cbn [fst] in *.
    unfold EncodePNGPredictor_row.
    replace (Z.ltb (len plane) (k * R + R)) with false
      by (symmetry; apply Z.ltb_ge; nia).
    fold (plane_row k).
    destruct (encode_row_spec (plane_row k) bpp ltac:(lia))
      as (enc & -> & Hlenc & Henc).
    rewrite len_plane_row in Hlenc, Henc by lia.
    cbn [bind]. eexists; split; [reflexivity|]. cbn [fst].
    split.
    + rewrite !len_app. change (len [1]) with 1. lia.
    + intros r Hr. destruct (Z.eq_dec r k) as [->|Hne].
      * split.
        -- replace (k * (R + 1)) with (len result + 0) by lia.
           now rewrite idx_app_r by lia.
        -- intros j Hj.
           replace (k * (R + 1) + 1 + j) with (len result + (1 + j)) by lia.
           rewrite idx_app_r by lia.
           change ([1] ++ enc) with (([1] : list Z) ++ enc).
           replace (1 + j) with (len ([1] : list Z) + j) by reflexivity.
           rewrite idx_app_r by lia. now apply Henc.
      * destruct (Hblocks r ltac:(lia)) as (H1 & H2). split.
        -- rewrite idx_app_l by nia. exact H1.
        -- intros j Hj. rewrite idx_app_l by nia. now apply H2.
  - exists result, prevRow. auto.
Qed.

Lemma applyPNGPredictor_rows (data : list Z) (predictor : Z) :
  encoded_upto n data ->
  exists prevRow,
    for_range 0 n (applyPNGPredictor_row data predictor R bpp)
              ([], repeat 0 (Z.to_nat R)) = Some (plane, prevRow).
Proof.
  intros (Hld & Hblocks).
  destruct (for_range_invariant
    (fun k st => fst st = slice plane 0 (k * R) /\ len (snd st) = R)
    0 n (applyPNGPredictor_row data predictor R bpp)
    ([], repeat 0 (Z.to_nat R)))
    as ([result prevRow] & E & Hres & _).
  - exact Hn.
  - cbn [fst snd]. split; [reflexivity|]. rewrite len_repeat. lia.
  - intros k [result prevRow] Hk (Hres & Hprev). cbn [fst snd] in *.
    unfold applyPNGPredictor_row.
    destruct (Hblocks k Hk) as (Hfilter & Hrow).
    replace (Z.leb (len data) (k * (R + 1))) with false
      by (symmetry; apply Z.leb_gt; nia).
    rewrite Hfilter. cbn [bind].
    replace (Z.ltb 4 1) with false by reflexivity.
    rewrite !andb_false_r.
    replace (Z.ltb (len data) (k * (R + 1) + 1 + R)) with false
      by (symmetry; apply Z.ltb_ge; nia).
    unfold make.
    replace (Z.ltb R 0) with false by (symmetry; apply Z.ltb_ge; lia).
    cbn [bind].
    replace (Z.ltb (k * (R + 1) + 1) (len data)) with true
      by (symmetry; apply Z.ltb_lt; nia).
    assert (Hls : len (slice data (k * (R + 1) + 1) (k * (R + 1) + 1 + R)) = R)
      by (rewrite len_slice; [lia|nia|nia]).
    rewrite copy_same_length
      by (rewrite repeat_length; unfold len in Hls; lia).
    rewrite (applyPNGFilter_sub_encoded (plane_row k)).
    + cbn [bind]. eexists; split; [reflexivity|]. cbn [fst snd]. split.
      * rewrite Hres. unfold plane_row.
        rewrite slice_app_adjacent; [f_equal; lia|nia|nia|nia].
      * unfold len in *. rewrite length_copy. exact Hprev.
    + exact Hbpp.
    + apply Forall_slice. exact Hbytes.
    + rewrite len_plane_row by lia. exact Hls.
    + rewrite len_plane_row by lia. intros j Hj.
      rewrite idx_slice by nia. now apply Hrow.
  - cbn [fst] in Hres. exists prevRow. rewrite E. do 2 f_equal.
    rewrite Hres, <- Hplane. apply slice_full.
Qed.

End PlaneRoundTrip.

(** *** Parameter sets *)

(** The parameter sets of the round trip: no negative parameter (zero is
    the default) and a row size that fits a Go [int]. *)
Definition valid_params (params : DecodeParams) : Prop :=
  0 <= Columns params /\ 0 <= Colors params /\ 0 <= BitsPerComponent params /\
  or_default (Columns params) 1 * or_default (Colors params) 1 *
    or_default (BitsPerComponent params) 8 + 7 < 2 ^ 63.

Lemma wrap_int_small (x : Z) : - 2 ^ 63 <= x < 2 ^ 63 -> wrap_int x = x.
Proof.
  intros H. unfold wrap_int. rewrite Z.mod_small; lia.
Qed.

Lemma or_default_pos (x d : Z) : 0 <= x -> 1 <= d -> 1 <= or_default x d.
Proof.
  intros Hx Hd. unfold or_default. destruct (Z.eqb x 0) eqn:E; [lia|].
  apply Z.eqb_neq in E. lia.
Qed.

Lemma valid_params_sizes (params : DecodeParams) :
  valid_params params ->
  1 <= bytesPerPixel_of params /\ 1 <= rowSize_of params.
Proof.
  intros (Hc & Hk & Hb & Hfit). unfold bytesPerPixel_of, rowSize_of.
  pose proof (or_default_pos _ 1 Hc ltac:(lia)) as H1.
  pose proof (or_default_pos _ 1 Hk ltac:(lia)) as H2.
  pose proof (or_default_pos _ 8 Hb ltac:(lia)) as H3.
  set (columns := or_default (Columns params) 1) in *.
  set (colors := or_default (Colors params) 1) in *.
  set (bpc := or_default (BitsPerComponent params) 8) in *.
  assert (Hcc : 1 <= columns * colors) by nia.
  assert (Hkb : 1 <= colors * bpc) by nia.
  assert (Hall : 1 <= columns * colors * bpc) by nia.
  assert (Hkb' : colors * bpc <= columns * colors * bpc) by nia.
  assert (Hcc' : columns * colors <= columns * colors * bpc) by nia.
  rewrite (wrap_int_small (colors * bpc)) by lia.
  rewrite (wrap_int_small (columns * colors)) by lia.
  rewrite (wrap_int_small (columns * colors * bpc)) by lia.
  rewrite !wrap_int_small by lia.
  split; apply Z.quot_le_lower_bound; lia.
Qed.

(** C6 (amended).  For every predictor value in 10..14, every parameter set
    without a negative Columns, Colors or BitsPerComponent whose row size
    fits an [int], and every plane of bytes that is a whole number of rows,
    the encoder returns an encoding and the decoder ([ApplyPredictor] with
    the same parameters, hence [applyPNGPredictor]) restores the plane. *)
Theorem png_predictor_roundtrip (params : DecodeParams) (plane : list Z) :
  10 <= Predictor params <= 14 ->
  valid_params params ->
  Forall is_byte plane ->
  Z.rem (len plane) (rowSize_of params) = 0 ->
  exists encoded,
    EncodePNGPredictor plane params = Some (encoded, None) /\
    ApplyPredictor encoded params = Some (plane, None) /\
    applyPNGPredictor encoded params (Predictor params) = Some (plane, None).
Proof.
  intros Hpred Hvalid Hbytes Hrows.
  destruct (valid_params_sizes params Hvalid) as (Hbpp & HR).
  assert (Hdispatch : forall encoded,
            ApplyPredictor encoded params =
            applyPNGPredictor encoded params (Predictor params)).
  { intros encoded. unfold ApplyPredictor.
    replace (Z.eqb (Predictor params) 1) with false
      by (symmetry; apply Z.eqb_neq; lia).
    replace (Z.eqb (Predictor params) 2) with false
      by (symmetry; apply Z.eqb_neq; lia).
    replace (Z.leb 10 (Predictor params)) with true
      by (symmetry; apply Z.leb_le; lia).
    replace (Z.leb (Predictor params) 15) with true
      by (symmetry; apply Z.leb_le; lia).
    reflexivity. }
  destruct (Z.eq_dec (len plane) 0) as [Hempty|Hnonempty].
  - exists plane. rewrite Hdispatch.
    unfold EncodePNGPredictor, applyPNGPredictor. rewrite Hempty. auto.
  - pose proof (len_nonneg plane) as Hlen.
    set (R := rowSize_of params) in *. set (bpp := bytesPerPixel_of params) in *.
    set (n := Z.quot (len plane) R).
    assert (HnR : len plane = n * R).
    { unfold n. pose proof (Z.quot_rem' (len plane) R). lia. }
    assert (Hn : 1 <= n) by nia.
    destruct (EncodePNGPredictor_rows plane R bpp n HR Hbpp ltac:(lia) HnR)
      as (encoded & prevRow & Eenc & Hblocks).
    destruct (applyPNGPredictor_rows plane R bpp n HR Hbpp ltac:(lia) HnR
                Hbytes encoded (Predictor params) Hblocks) as (prevRow' & Edec).
    exists encoded. rewrite Hdispatch.
    assert (Hencoded : EncodePNGPredictor plane params = Some (encoded, None)).
    { unfold EncodePNGPredictor. fold R bpp n.
      replace (Z.eqb (len plane) 0) with false by (symmetry; apply Z.eqb_neq; lia).
      replace (Z.eqb R 0) with false by (symmetry; apply Z.eqb_neq; lia).
      cbn [orb]. unfold make.
      replace (Z.ltb (n * (R + 1)) 0) with false by (symmetry; apply Z.ltb_ge; nia).
      replace (Z.ltb R 0) with false by (symmetry; apply Z.ltb_ge; lia).
      cbn [bind]. rewrite Eenc. reflexivity. }
    assert (Hdecoded :
      applyPNGPredictor encoded params (Predictor params) = Some (plane, None)).
    { unfold applyPNGPredictor. fold R bpp.
      destruct Hblocks as (Hle & _).
      replace (Z.eqb (len encoded) 0) with false by (symmetry; apply Z.eqb_neq; nia).
      replace (Z.eqb (R + 1) 0) with false by (symmetry; apply Z.eqb_neq; lia).
      cbn [orb]. rewrite Hle, Z.quot_mul by lia.
      replace (Z.eqb n 0) with false by (symmetry; apply Z.eqb_neq; lia).
      unfold make.
      replace (Z.ltb (n * R) 0) with false by (symmetry; apply Z.ltb_ge; nia).
      replace (Z.ltb R 0) with false by (symmetry; apply Z.ltb_ge; lia).
      cbn [bind]. rewrite Edec. reflexivity. }
    auto.
Qed.

(** A 2x2 RGB plane (Columns 2, Colors 3, 8 bits) under predictor 12. *)
Lemma png_predictor_roundtrip_witness :
  exists encoded,
    EncodePNGPredictor [1; 2; 3; 4; 5; 6; 10; 20; 30; 5; 5; 5]
      (mkDecodeParams 12 3 8 2 1) = Some (encoded, None) /\
    ApplyPredictor encoded (mkDecodeParams 12 3 8 2 1) =
      Some ([1; 2; 3; 4; 5; 6; 10; 20; 30; 5; 5; 5], None) /\
    applyPNGPredictor encoded (mkDecodeParams 12 3 8 2 1) 12 =
      Some ([1; 2; 3; 4; 5; 6; 10; 20; 30; 5; 5; 5], None).
Proof.
  apply (png_predictor_roundtrip (mkDecodeParams 12 3 8 2 1)
           [1; 2; 3; 4; 5; 6; 10; 20; 30; 5; 5; 5]).
  - simpl. lia.
  - unfold valid_params. simpl. lia.
  - repeat constructor; unfold is_byte; lia.
  - reflexivity.
Defined.

(** C6 as stated fails on a parameter set with negative Columns and Colors:
    the row size is 1 and the bytes per pixel 0, every row is encoded as
    zeros and decoded as zeros. *)
Lemma png_predictor_roundtrip_negative_params :
  10 <= Predictor (mkDecodeParams 12 (-1) 8 (-1) 1) <= 14 /\
  Forall is_byte [5] /\
  rowSize_of (mkDecodeParams 12 (-1) 8 (-1) 1) = 1 /\
  Z.rem (len [5]) (rowSize_of (mkDecodeParams 12 (-1) 8 (-1) 1)) = 0 /\
  EncodePNGPredictor [5] (mkDecodeParams 12 (-1) 8 (-1) 1) = Some ([1; 0], None) /\
  ApplyPredictor [1; 0] (mkDecodeParams 12 (-1) 8 (-1) 1) = Some ([0], None) /\
  [0] <> [5].
Proof.
  split; [simpl; lia|].
  split; [repeat constructor; unfold is_byte; lia|].
  repeat (split; [reflexivity|]). discriminate.
Qed.

(** *** The LZW decoder follows the algorithm of the specification *)

(** **** Bits *)

Lemma value_of_bits_acc (l : list bool) (acc : Z) :
  fold_left (fun acc b => 2 * acc + Z.b2z b) l acc =
  acc * 2 ^ len l + value_of_bits l.
Proof.
  unfold value_of_bits. revert acc.
  induction l as [|b l IH]; intros acc.
  - cbn. lia.
  - cbn [fold_left]. rewrite IH, (IH (2 * 0 + Z.b2z b)), len_cons.
    rewrite Z.pow_add_r by (pose proof (len_nonneg l); lia). lia.
Qed.

Lemma value_of_bits_app (l1 l2 : list bool) :
  value_of_bits (l1 ++ l2) = value_of_bits l1 * 2 ^ len l2 + value_of_bits l2.
Proof.
  unfold value_of_bits at 1. rewrite fold_left_app.
  now rewrite value_of_bits_acc.
Qed.

Lemma value_of_bits_bound (l : list bool) : 0 <= value_of_bits l < 2 ^ len l.
Proof.
  induction l as [|b l IH].
  - cbn. lia.
  - change (b :: l) with ([b] ++ l). rewrite value_of_bits_app, len_app.
    rewrite Z.pow_add_r by (pose proof (len_nonneg l); unfold len; cbn; lia).
    change (value_of_bits [b]) with (2 * 0 + Z.b2z b).
    change (2 ^ len [b]) with 2.
    destruct b; cbn [Z.b2z]; nia.
Qed.

Lemma length_bits_of_byte (b : Z) : length (bits_of_byte b) = 8%nat.
Proof. reflexivity. Qed.

Lemma length_bits_of_bytes (data : list Z) :
  length (bits_of_bytes data) = (8 * length data)%nat.
Proof.
  unfold bits_of_bytes. induction data as [|b data IH]; [reflexivity|].
  cbn [flat_map]. rewrite length_app, IH, length_bits_of_byte. cbn [length]. lia.
Qed.

(** The bits from position [8 * p] on are those of the bytes from [p] on. *)
Lemma skipn_bits_of_bytes (data : list Z) (p : nat) :
  skipn (8 * p) (bits_of_bytes data) = bits_of_bytes (skipn p data).
Proof.
  revert data. induction p as [|p IH]; intros data.
  - reflexivity.
  - destruct data as [|b data].
    + now rewrite skipn_nil.
    + replace (8 * S p)%nat with (8 * p + 8)%nat by lia.
      rewrite <- skipn_skipn.
      change (bits_of_bytes (b :: data)) with (bits_of_byte b ++ bits_of_bytes data).
      rewrite skipn_app, length_bits_of_byte, Nat.sub_diag.
      rewrite (skipn_all2 (n := 8) (bits_of_byte b)) by (rewrite length_bits_of_byte; lia).
      cbn [app skipn]. apply IH.
Qed.

Lemma length_bits_at (data : list Z) (P k : nat) :
  (P + k <= 8 * length data)%nat -> length (bits_at data P k) = k.
Proof.
  intros H. unfold bits_at.
  rewrite length_firstn, length_skipn, length_bits_of_bytes. lia.
Qed.

Lemma bits_at_split (data : list Z) (P t k : nat) :
  bits_at data P (t + k) = bits_at data P t ++ bits_at data (P + t) k.
Proof.
  unfold bits_at.
  rewrite <- (firstn_skipn t (firstn (t + k) (skipn P (bits_of_bytes data)))).
  rewrite firstn_firstn, <- firstn_skipn_comm, skipn_skipn.
  replace (Nat.min t (t + k)) with t by lia.
  now replace (t + P)%nat with (P + t)%nat by lia.
Qed.

(** Inside one byte the run is a run of the bits of that byte. *)
Lemma bits_at_byte (data : list Z) (p s t : nat) (b : Z) :
  nth_error data p = Some b -> (s + t <= 8)%nat ->
  bits_at data (8 * p + s) t = firstn t (skipn s (bits_of_byte b)).
Proof.
  intros Hb Hst. unfold bits_at.
  replace (8 * p + s)%nat with (s + 8 * p)%nat by lia.
  rewrite <- skipn_skipn, skipn_bits_of_bytes.
  destruct (nth_error_split _ _ Hb) as (l1 & l2 & -> & Hl1).
  rewrite skipn_app, <- Hl1, skipn_all, Nat.sub_diag. cbn [app skipn].
  unfold bits_of_bytes. cbn [flat_map].
  rewrite skipn_app, firstn_app, length_skipn, length_bits_of_byte.
  replace (t - (8 - s))%nat with 0%nat by lia.
  cbn [firstn]. now rewrite app_nil_r.
Qed.

(** Every run inside every byte is read as the specification says. *)
Lemma byte_runs_ok :
  forallb (fun b => forallb (fun s => forallb (fun t => byte_run_ok b s t)
                                              (seq 0 (9 - s)))
                            (seq 0 8))
          (seq 0 256) = true.
Proof. vm_compute. reflexivity. Qed.

Lemma byte_run (b s t : Z) :
  is_byte b -> 0 <= s < 8 -> 0 <= t <= 8 - s ->
  Z.land (Z.shiftr b (8 - s - t)) (Z.shiftl 1 t - 1) =
  value_of_bits (firstn (Z.to_nat t) (skipn (Z.to_nat s) (bits_of_byte b))).
Proof.
  intros Hb Hs Ht. pose proof byte_runs_ok as H.
  unfold is_byte in Hb.
  apply (proj1 (forallb_forall _ _)) with (x := Z.to_nat b) in H;
    [|apply in_seq; lia].
  apply (proj1 (forallb_forall _ _)) with (x := Z.to_nat s) in H;
    [|apply in_seq; lia].
  apply (proj1 (forallb_forall _ _)) with (x := Z.to_nat t) in H;
    [|apply in_seq; lia].
  unfold byte_run_ok in H. apply Z.eqb_eq in H.
  now rewrite !Z2Nat.id in H by lia.
Qed.

Lemma lor_shiftl (code bits t : Z) :
  0 <= t -> 0 <= bits < 2 ^ t ->
  Z.lor (Z.shiftl code t) bits = code * 2 ^ t + bits.
Proof.
  intros Ht Hb.
  assert (Hland : Z.land (Z.shiftl code t) bits = 0).
  { apply Z.bits_inj'. intros n Hn.
    rewrite Z.land_spec, Z.bits_0.
    destruct (Z.lt_ge_cases n t) as [Hlt|Hge].
    - now rewrite Z.shiftl_spec_low.
    - destruct (Z.eq_dec bits 0) as [->|Hne].
      + now rewrite Z.bits_0, andb_false_r.
      + rewrite (Z.bits_above_log2 bits n), andb_false_r; [reflexivity|lia|].
        apply Z.log2_lt_pow2; [lia|].
        apply Z.lt_le_trans with (2 ^ t); [lia|].
        apply Z.pow_le_mono_r; lia. }
  rewrite <- Z.lxor_lor, <- Z.add_nocarry_lxor by assumption.
  now rewrite Z.shiftl_mul_pow2.
Qed.

(** **** Reading a code *)

Section Reading.

Variable data : list Z.
Hypothesis Hdata : Forall is_byte data.

Lemma idx_data (p : Z) :
  0 <= p < len data ->
  exists b, idx data p = Some b /\ nth_error data (Z.to_nat p) = Some b /\ is_byte b.
Proof.
  intros Hp. destruct (idx_in_range data p Hp) as [b Hb].
  exists b. split; [assumption|].
  unfold idx in Hb. destruct (Z.ltb p 0); [discriminate|].
  split; [assumption|].
  rewrite Forall_forall in Hdata. apply Hdata. eapply nth_error_In; eassumption.
Qed.

(** While the input has the [k] bits, the loop returns them after the
    bits of [code], and leaves the position behind them. *)
Lemma readCode_loop_reads (fuel : nat) :
  forall p s code k,
    0 <= p -> 0 <= s < 8 -> 0 <= k <= Z.of_nat fuel ->
    8 * p + s + k <= 8 * len data ->
    exists p' s',
      readCode_loop fuel data p s code k =
      Some (code * 2 ^ k +
            value_of_bits (bits_at data (Z.to_nat (8 * p + s)) (Z.to_nat k)),
            true, (p', s')) /\
      0 <= p' /\ 0 <= s' < 8 /\ 8 * p' + s' = 8 * p + s + k.
Proof.
  induction fuel as [|fuel IH]; intros p s code k Hp Hs Hk Hfit.
  - assert (k = 0) as -> by lia. exists p, s. cbn.
    split; [f_equal; f_equal; f_equal; lia | lia].
  - destruct (Z.eq_dec k 0) as [->|Hk0].
    + exists p, s. cbn. split; [f_equal; f_equal; f_equal; lia | lia].
    + cbn [readCode_loop].
      replace (Z.leb k 0) with false by (symmetry; apply Z.leb_gt; lia).
      replace (Z.leb (len data) p) with false by (symmetry; apply Z.leb_gt; lia).
      set (t := if Z.ltb (8 - s) k then 8 - s else k).
      assert (Ht : 1 <= t <= 8 - s /\ t <= k)
        by (subst t; destruct (Z.ltb_spec (8 - s) k); lia).
      cbv zeta. fold t.
      replace (Z.ltb t 0) with false by (symmetry; apply Z.ltb_ge; lia).
      destruct (idx_data p ltac:(lia)) as (b & Hidx & Hnth & Hb).
      rewrite Hidx. cbn [bind].
      rewrite (byte_run b s t Hb Hs ltac:(lia)).
      rewrite <- (bits_at_byte data (Z.to_nat p) (Z.to_nat s) (Z.to_nat t) b Hnth)
        by lia.
      replace (8 * Z.to_nat p + Z.to_nat s)%nat with (Z.to_nat (8 * p + s)) by lia.
      set (P := Z.to_nat (8 * p + s)).
      assert (Hlen : len (bits_at data P (Z.to_nat t)) = t).
      { unfold len. rewrite length_bits_at; [lia|]. unfold len in Hfit. lia. }
      rewrite lor_shiftl;
        [|lia|pose proof (value_of_bits_bound (bits_at data P (Z.to_nat t))) as Hv;
              now rewrite Hlen in Hv].
      assert (Hsplit :
        code * 2 ^ k + value_of_bits (bits_at data P (Z.to_nat k)) =
        (code * 2 ^ t + value_of_bits (bits_at data P (Z.to_nat t))) * 2 ^ (k - t) +
        value_of_bits (bits_at data (P + Z.to_nat t) (Z.to_nat (k - t)))).
      { replace (Z.to_nat k) with (Z.to_nat t + Z.to_nat (k - t))%nat by lia.
        rewrite bits_at_split, value_of_bits_app.
        unfold len at 1. rewrite length_bits_at by (unfold len in Hfit; lia).
        rewrite Z2Nat.id by lia.
        replace k with (t + (k - t)) at 1 by lia.
        rewrite Z.pow_add_r by lia. ring. }
      rewrite Hsplit.
      destruct (Z.leb_spec 8 (s + t)) as [Hfull|Hpart].
      * destruct (IH (p + 1) 0 (code * 2 ^ t + value_of_bits (bits_at data P (Z.to_nat t)))
                     (k - t) ltac:(lia) ltac:(lia) ltac:(lia) ltac:(lia))
          as (p' & s' & E & Hp' & Hs' & Hpos).
        exists p', s'. rewrite E.
        replace (Z.to_nat (8 * (p + 1) + 0)) with (P + Z.to_nat t)%nat by lia.
        split; [reflexivity|lia].
      * destruct (IH p (s + t) (code * 2 ^ t + value_of_bits (bits_at data P (Z.to_nat t)))
                     (k - t) ltac:(lia) ltac:(lia) ltac:(lia) ltac:(lia))
          as (p' & s' & E & Hp' & Hs' & Hpos).
        exists p', s'. rewrite E.
        replace (Z.to_nat (8 * p + (s + t))) with (P + Z.to_nat t)%nat by lia.
        split; [reflexivity|lia].
Qed.

(** When the input ends before the [k] bits, the loop reports it. *)
Lemma readCode_loop_short (fuel : nat) :
  forall p s code k,
    0 <= p -> 0 <= s < 8 -> 0 <= k <= Z.of_nat fuel ->
    8 * p + s <= 8 * len data < 8 * p + s + k ->
    exists p' s', readCode_loop fuel data p s code k = Some (0, false, (p', s')).
Proof.
  induction fuel as [|fuel IH]; intros p s code k Hp Hs Hk Hshort; [lia|].
  cbn [readCode_loop].
  destruct (Z.leb_spec k 0) as [Hk0|Hk0]; [lia|].
  destruct (Z.leb_spec (len data) p) as [Hend|Hin]; [eauto|].
  assert (E : (if Z.ltb (8 - s) k then 8 - s else k) = 8 - s)
    by (destruct (Z.ltb_spec (8 - s) k); lia).
  cbv zeta. rewrite E.
  replace (Z.ltb (8 - s) 0) with false by (symmetry; apply Z.ltb_ge; lia).
  destruct (idx_data p ltac:(lia)) as (b & Hidx & _ & _).
  rewrite Hidx. cbn [bind].
  replace (Z.leb 8 (s + (8 - s))) with true by (symmetry; apply Z.leb_le; lia).
  apply IH; lia.
Qed.

End Reading.

(** **** The decoder state and the table of the specification *)

Lemma initial_table_single (c : Z) :
  0 <= c < 256 -> idx initial_table c = Some [c].
Proof.
  intros Hc.
  assert (H : forallb initial_single_ok (seq 0 256) = true)
    by (vm_compute; reflexivity).
  apply (proj1 (forallb_forall _ _)) with (x := Z.to_nat c) in H;
    [|apply in_seq; lia].
  unfold initial_single_ok in H. rewrite Z2Nat.id in H by lia.
  destruct (idx initial_table c) as [[|b [|? ?]]|]; try discriminate.
  apply Z.eqb_eq in H. now subst.
Qed.

Lemma related_reset (data : list Z) (d : lzwDecoder) (bits : list bool)
  (dict : list (list Z)) (width : nat) :
  related data d bits dict width -> related data (reset d) bits [] 9.
Proof.
  intros R. destruct R.
  constructor; cbn [reset pos bitPos table codeSize nextCode];
    first [ assumption | apply initial_table_single | intros c Hc; lia
          | lia | reflexivity | constructor ].
Qed.

Lemma related_new (data : list Z) :
  related data newLZWDecoder (bits_of_bytes data) [] 9.
Proof.
  pose proof (len_nonneg data).
  constructor; cbn [newLZWDecoder reset pos bitPos table codeSize nextCode];
    first [ apply initial_table_single | intros c Hc; lia
          | lia | reflexivity | constructor ].
Qed.

Lemma length_remaining (data : list Z) (d : lzwDecoder) (bits : list bool)
  (dict : list (list Z)) (width : nat) :
  related data d bits dict width ->
  Z.of_nat (length bits) = 8 * len data - (8 * pos d + bitPos d).
Proof.
  intros R. destruct R. subst bits.
  rewrite length_skipn, length_bits_of_bytes. unfold len in *. lia.
Qed.

(** [readCode] returns the next code of the specification. *)
Lemma readCode_next_code (data : list Z) (d : lzwDecoder) (bits : list bool)
  (dict : list (list Z)) (width : nat) :
  Forall is_byte data -> related data d bits dict width ->
  match next_code width bits with
  | Some (code, rest) =>
      exists d', readCode data d = Some (code, true, d') /\
                 related data d' rest dict width /\ 0 <= code
  | None => exists c d', readCode data d = Some (c, false, d')
  end.
Proof.
  intros Hdata R. pose proof (length_remaining _ _ _ _ _ R) as Hrem.
  destruct R. unfold next_code, readCode.
  destruct width as [|w]; [lia|].
  destruct (Nat.ltb_spec (length bits) (S w)) as [Hshort|Hfits].
  - destruct (Z.leb_spec (len data) (pos d)); [eauto|].
    destruct (readCode_loop_short data Hdata (Z.to_nat (codeSize d))
                (pos d) (bitPos d) 0 (codeSize d))
      as (p' & s' & E); try lia.
    rewrite E. cbn [bind]. eauto.
  - replace (Z.leb (len data) (pos d)) with false
      by (symmetry; apply Z.leb_gt; lia).
    destruct (readCode_loop_reads data Hdata (Z.to_nat (codeSize d))
                (pos d) (bitPos d) 0 (codeSize d))
      as (p' & s' & E & Hp' & Hs' & Hpos); try lia.
    rewrite E. cbn [bind]. eexists. split; [|split].
    + rewrite rel_width0, Nat2Z.id. unfold bits_at. rewrite <- rel_bits0.
      reflexivity.
    + constructor; cbn [pos bitPos table codeSize nextCode]; try assumption; try lia.
      rewrite rel_bits0, skipn_skipn. f_equal. lia.
    + pose proof (value_of_bits_bound (firstn (S w) bits)). lia.
Qed.

(** The string of a code is the one of the specification, and it is not
    empty. *)
Lemma code_sequence_entry (data : list Z) (d : lzwDecoder) (bits : list bool)
  (dict : list (list Z)) (width : nat) (code : Z) (prev : option (list Z)) :
  related data d bits dict width -> prev_ok prev ->
  0 <= code -> code <> 256 -> code <> 257 ->
  code_sequence d code prev = Some (lzw_entry dict prev code) /\
  forall seq, lzw_entry dict prev code = Some seq -> seq <> [].
Proof.
  intros R Hprev H0 H256 H257. destruct R.
  unfold code_sequence, lzw_entry. rewrite rel_next0.
  destruct (Z.ltb_spec code 256) as [Hlow|Hhigh].
  - replace (Z.ltb code (258 + len dict)) with true
      by (symmetry; apply Z.ltb_lt; pose proof (len_nonneg dict); lia).
    rewrite rel_single0 by lia. cbn [bind]. split; [reflexivity|].
    intros seq [= <-]. discriminate.
  - replace (Z.leb 258 code) with true by (symmetry; apply Z.leb_le; lia).
    cbn [andb].
    destruct (Z.ltb_spec code (258 + len dict)) as [Hin|Hout].
    + rewrite rel_dict0 by lia.
      destruct (nth_error dict (Z.to_nat (code - 258))) as [seq|] eqn:E.
      * cbn [bind]. split; [reflexivity|].
        intros seq' [= <-]. rewrite Forall_forall in rel_nonempty0.
        apply rel_nonempty0. eapply nth_error_In; eassumption.
      * apply nth_error_None in E. unfold len in Hin. lia.
    + destruct prev as [p|].
      * destruct (Z.eqb_spec code (258 + len dict)) as [_|_].
        -- cbn in Hprev. destruct p as [|first p]; [contradiction|].
           cbn. split; [reflexivity|].
           intros seq [= <-]. discriminate.
        -- split; [reflexivity|discriminate].
      * destruct (Z.eqb code (258 + len dict)); split; (reflexivity || discriminate).
Qed.

(** The new entry and the new code size are those of the specification. *)
Lemma add_entry_grows (data : list Z) (early : bool) (d : lzwDecoder)
  (bits : list bool) (dict : list (list Z)) (width : nat)
  (seq : list Z) (prev : option (list Z)) :
  related data d bits dict width -> prev_ok prev -> seq <> [] ->
  exists d',
    add_entry early d seq prev = Some d' /\
    related data d' bits (lzw_grow dict prev seq)
      (lzw_width (if early then 1 else 0) dict (lzw_grow dict prev seq) width).
Proof.
  intros R Hprev Hseq.
  assert (Hsame : lzw_width (if early then 1 else 0) dict dict width = width).
  { unfold lzw_width. now rewrite Z.ltb_irrefl. }
  unfold add_entry, lzw_grow. destruct prev as [p|].
  2:{ exists d. rewrite Hsame. now split. }
  destruct R. rewrite rel_next0.
  destruct (Z.ltb_spec (258 + len dict) 4096) as [Hroom|Hfull].
  2:{ exists d. rewrite Hsame. split; [reflexivity|]. now constructor. }
  destruct seq as [|first seq]; [contradiction|].
  cbn [idx Z.ltb Z.compare Z.to_nat nth_error bind firstn].
  pose proof (len_nonneg dict) as Hdict.
  rewrite upd_in_range by lia. cbn [bind].
  eexists. split; [reflexivity|].
  assert (Hlen : len (dict ++ [p ++ [first]]) = len dict + 1)
    by (rewrite len_app; reflexivity).
  constructor; cbn [pos bitPos table codeSize nextCode]; try assumption.
  - now rewrite len_set_nth.
  - intros c Hc. rewrite idx_set_nth_ne by lia. now apply rel_single0.
  - intros c Hc. destruct (Z.eq_dec c (258 + len dict)) as [->|Hne].
    + rewrite idx_set_nth_eq by lia.
      replace (Z.to_nat (258 + len dict - 258)) with (length dict + 0)%nat
        by (unfold len; lia).
      now rewrite nth_error_app2, Nat.add_comm, Nat.add_sub by lia.
    + rewrite idx_set_nth_ne by lia. rewrite rel_dict0 by lia.
      symmetry. apply nth_error_app1. unfold len in *. lia.
  - rewrite Hlen. lia.
  - lia.
  - unfold lzw_width. rewrite Hlen.
    replace (Z.ltb (len dict) (len dict + 1)) with true
      by (symmetry; apply Z.ltb_lt; lia).
    cbn [andb]. rewrite rel_width0, Z.shiftl_mul_pow2, Z.mul_1_l by lia.
    replace (if early then 2 ^ Z.of_nat width - 1 else 2 ^ Z.of_nat width)
      with (2 ^ Z.of_nat width - (if early then 1 else 0))
      by (destruct early; lia).
    replace (258 + (len dict + 1)) with (258 + len dict + 1) by lia.
    destruct (Z.leb (2 ^ Z.of_nat width - (if early then 1 else 0))
                    (258 + len dict + 1)); cbn [andb]; [|reflexivity].
    destruct (Z.ltb_spec (Z.of_nat width) 12), (Nat.ltb_spec width 12); lia.
  - unfold lzw_width.
    destruct (_ && _ && Nat.ltb width 12) eqn:E; [|assumption].
    apply andb_prop in E. destruct E as [_ E]. apply Nat.ltb_lt in E. lia.
  - apply Forall_app. split; [assumption|].
    constructor; [|constructor]. destruct p; discriminate.
Qed.

(** **** The loop *)

Lemma decode_loop_refines (data : list Z) (early : bool) :
  Forall is_byte data ->
  forall fuel d result prev bits dict width,
    related data d bits dict width -> prev_ok prev ->
    (length bits < 9 * fuel)%nat ->
    decode_loop fuel data early d result prev =
    Some (lzw_result result
            (lzw_reference (if early then 1 else 0) bits dict width prev)).
Proof.
  intros Hdata. induction fuel as [|fuel IH];
    intros d result prev bits dict width R Hprev Hfuel; [lia|].
  cbn [decode_loop]. rewrite lzw_reference_step.
  pose proof (readCode_next_code data d bits dict width Hdata R) as Hread.
  pose proof (rel_range _ _ _ _ _ R) as Hwidth.
  destruct (next_code width bits) as [[code rest]|] eqn:Hnext.
  2:{ destruct Hread as (c & d' & ->). cbn. now rewrite app_nil_r. }
  destruct Hread as (d' & -> & R' & Hcode). cbn [bind negb].
  assert (Hrest : (length rest < 9 * fuel)%nat).
  { unfold next_code in Hnext. destruct width as [|w]; [discriminate|].
    destruct (Nat.ltb_spec (length bits) (S w)); [discriminate|].
    assert (rest = skipn (S w) bits) as -> by congruence.
    rewrite length_skipn. lia. }
  unfold endCode, clearCode.
  destruct (Z.eqb_spec code 257) as [_|H257].
  { cbn. now rewrite app_nil_r. }
  destruct (Z.eqb_spec code 256) as [_|H256].
  { apply IH; [eapply related_reset; eassumption|exact I|assumption]. }
  destruct (code_sequence_entry data d' rest dict width code prev
              R' Hprev Hcode H256 H257) as [-> Hnonempty].
  cbn [bind]. destruct (lzw_entry dict prev code) as [seq|]; [|reflexivity].
  cbv zeta.
  destruct (add_entry_grows data early d' rest dict width seq prev
              R' Hprev (Hnonempty seq eq_refl)) as (d'' & -> & R'').
  cbn [bind].
  replace (as_prevSeq seq) with (Some seq)
    by (pose proof (Hnonempty seq eq_refl); now destruct seq).
  rewrite (IH d'' (result ++ seq) (Some seq) rest _ _ R''
              (Hnonempty seq eq_refl) Hrest).
  destruct (lzw_reference _ rest _ _ (Some seq)) as [out|bad]; cbn [lzw_result].
  - now rewrite app_assoc.
  - reflexivity.
Qed.

Lemma DecodeLZW_refines (data : list Z) (earlyChange : Z) :
  Forall is_byte data ->
  DecodeLZW data earlyChange =
  Some (lzw_result []
          (lzw_reference (if Z.eqb earlyChange 1 then 1 else 0)
                         (bits_of_bytes data) [] 9 None)).
Proof.
  intros Hdata. unfold DecodeLZW.
  destruct (Z.eqb_spec (len data) 0) as [Hempty|_].
  - destruct data; [|unfold len in Hempty; cbn in Hempty; lia].
    rewrite lzw_reference_step. reflexivity.
  - apply decode_loop_refines; [assumption|apply related_new|exact I|].
    rewrite length_bits_of_bytes. lia.
Qed.

(** C3 (amended).  For every byte sequence, [DecodeLZW] returns, and so does
    [Decode] with the filter LZWDecode (which is a supported filter) when no
    predictor is set: the result is that of the LZW algorithm of the
    specification, read from the bits of the input with codes of 9 to 12
    bits, where the early change is 1 when the parameter is 1 and 0
    otherwise.  It is the decoded output, or the error that names the first
    code that has no string. *)
Theorem Decode_LZWDecode_refines
  (flate hex a85 : list Z -> option (list Z * error))
  (data : list Z) (params : DecodeParams) :
  Forall is_byte data ->
  DecodeLZW data (EarlyChange params) =
    Some (lzw_result []
            (lzw_reference (if Z.eqb (EarlyChange params) 1 then 1 else 0)
                           (bits_of_bytes data) [] 9 None)) /\
  (Predictor params <= 1 ->
   Decode flate hex a85 data "LZWDecode" params =
     Some (lzw_result []
             (lzw_reference (if Z.eqb (EarlyChange params) 1 then 1 else 0)
                            (bits_of_bytes data) [] 9 None))).
Proof.
  intros Hdata. pose proof (DecodeLZW_refines data (EarlyChange params) Hdata) as H.
  split; [exact H|]. intros Hpred.
  unfold Decode, decode_filter. cbn [String.eqb Ascii.eqb Bool.eqb orb andb].
  rewrite H. cbn [bind].
  destruct (lzw_reference _ _ _ _ _) as [out|code]; cbn [lzw_result app].
  - now replace (Z.ltb 1 (Predictor params)) with false
      by (symmetry; apply Z.ltb_ge; lia).
  - reflexivity.
Qed.

(** The example of the PDF reference: the codes 256 45 258 258 65 259 66
    257 in nine bytes. *)
Lemma Decode_LZWDecode_refines_witness :
  Forall is_byte [128; 11; 96; 80; 34; 12; 12; 133; 1] /\
  Decode no_decoder no_decoder no_decoder
         [128; 11; 96; 80; 34; 12; 12; 133; 1] "LZWDecode" DefaultDecodeParams =
  Some ([45; 45; 45; 45; 45; 65; 45; 45; 45; 66], None).
Proof.
  assert (Hbytes : Forall is_byte [128; 11; 96; 80; 34; 12; 12; 133; 1])
    by (repeat constructor; unfold is_byte; lia).
  split; [exact Hbytes|].
  destruct (Decode_LZWDecode_refines no_decoder no_decoder no_decoder
              [128; 11; 96; 80; 34; 12; 12; 133; 1] DefaultDecodeParams Hbytes)
    as [_ H].
  rewrite H by (simpl; lia). vm_compute. reflexivity.
Defined.

(** C3 as stated fails on the two bytes 255 255: the first code is 511,
    which is above the next unassigned code 258, and decoding ends with the
    error of an invalid code. *)
Lemma Decode_LZWDecode_invalid_code :
  Forall is_byte [255; 255] /\
  DecodeLZW [255; 255] 1 = Some ([], Some "invalid LZW code: 511"%string) /\
  Decode no_decoder no_decoder no_decoder [255; 255] "LZWDecode"
         DefaultDecodeParams =
  Some ([], Some "invalid LZW code: 511"%string).
Proof.
  split; [repeat constructor; unfold is_byte; lia|].
  split; vm_compute; reflexivity.
Qed.

(** *** ASCIIHexDecode *)

(** A property of bytes that holds on each of the 256 bytes. *)
Lemma byte_cases (P : Z -> bool) :
  forallb P (map Z.of_nat (seq 0 256)) = true ->
  forall b, is_byte b -> P b = true.
Proof.
  intros H b Hb. rewrite forallb_forall in H. apply H.
  apply in_map_iff. exists (Z.to_nat b). unfold is_byte in Hb.
  split; [lia|apply in_seq; lia].
Qed.

Lemma DecodeASCIIHex_loop_byte (b : Z) (tail result : list Z) (h : Z) :
  is_byte b ->
  DecodeASCIIHex_loop (hex_of_byte b ++ tail) result h false =
  DecodeASCIIHex_loop tail (result ++ [b]) (b / 16) false.
Proof.
  intros Hb.
  pose proof (byte_cases
    (fun b => negb (Z.eqb (hex_digit (b / 16)) 62) &&
              negb (isWhitespace (hex_digit (b / 16))) &&
              negb (Z.eqb (hex_digit (b mod 16)) 62) &&
              negb (isWhitespace (hex_digit (b mod 16))) &&
              match hex_value (hex_digit (b / 16)), hex_value (hex_digit (b mod 16)) with
              | Some hi, Some lo =>
                  Z.eqb hi (b / 16) && Z.eqb (Z.lor (wrap8 (Z.shiftl hi 4)) lo) b
              | _, _ => false
              end)
    ltac:(vm_compute; reflexivity) b Hb) as H.
  repeat (apply andb_prop in H; destruct H as [H ?]).
  unfold hex_of_byte. cbn [app DecodeASCIIHex_loop].
  repeat match goal with
         | E : negb ?x = true |- _ => apply negb_true_iff in E; rewrite E
         end.
  destruct (hex_value (hex_digit (b / 16))) as [hi|]; [|discriminate].
  destruct (hex_value (hex_digit (b mod 16))) as [lo|]; [|discriminate].
  match goal with
  | E : _ && _ = true |- _ => apply andb_prop in E; destruct E as [E1 E2]
  end.
  apply Z.eqb_eq in E1, E2. now rewrite E2, E1.
Qed.

Lemma DecodeASCIIHex_loop_encoded (bytes : list Z) :
  Forall is_byte bytes ->
  forall tail result h,
  exists h',
    DecodeASCIIHex_loop (EncodeASCIIHex bytes ++ tail) result h false =
    DecodeASCIIHex_loop tail (result ++ bytes) h' false.
Proof.
  induction 1 as [|b bytes Hb _ IH]; intros tail result h.
  - exists h. cbn. now rewrite app_nil_r.
  - unfold EncodeASCIIHex. cbn [flat_map]. rewrite <- app_assoc.
    rewrite DecodeASCIIHex_loop_byte by assumption.
    destruct (IH tail (result ++ [b]) (b / 16)) as (h' & E).
    exists h'. unfold EncodeASCIIHex in E. rewrite E.
    now rewrite <- app_assoc.
Qed.

(** Decoding the hexadecimal digits of a byte sequence returns the byte
    sequence, with or without the end marker and whatever follows it. *)
Theorem DecodeASCIIHex_encoded (bytes rest : list Z) :
  Forall is_byte bytes ->
  DecodeASCIIHex (EncodeASCIIHex bytes) = (bytes, None) /\
  DecodeASCIIHex (EncodeASCIIHex bytes ++ 62 :: rest) = (bytes, None).
Proof.
  intros Hb. split.
  - destruct (DecodeASCIIHex_loop_encoded bytes Hb [] [] 0) as (h' & E).
    rewrite app_nil_r in E. unfold DecodeASCIIHex. rewrite E. reflexivity.
  - destruct (DecodeASCIIHex_loop_encoded bytes Hb (62 :: rest) [] 0) as (h' & E).
    unfold DecodeASCIIHex. rewrite E. reflexivity.
Qed.

Lemma DecodeASCIIHex_encoded_witness :
  DecodeASCIIHex [52; 56; 54; 57; 62; 48] = ([72; 105], None).
Proof.
  exact (proj2 (DecodeASCIIHex_encoded [72; 105] [48]
                  ltac:(repeat constructor; unfold is_byte; lia))).
Defined.

Lemma is_hex_not_marker (b : Z) : is_hex b = true -> Z.eqb b 62 = false.
Proof.
  unfold is_hex, hex_value. intros H. apply Z.eqb_neq. intros ->.
  discriminate.
Qed.

Lemma is_hex_not_space (b : Z) : is_hex b = true -> isWhitespace b = false.
Proof.
  unfold is_hex, hex_value, isWhitespace. intros H.
  destruct (Z.eqb_spec b 32) as [->|]; [discriminate|].
  destruct (Z.eqb_spec b 9) as [->|]; [discriminate|].
  destruct (Z.eqb_spec b 13) as [->|]; [discriminate|].
  destruct (Z.eqb_spec b 10) as [->|]; [discriminate|].
  destruct (Z.eqb_spec b 12) as [->|]; [discriminate|].
  destruct (Z.eqb_spec b 0) as [->|]; [discriminate|].
  reflexivity.
Qed.

Lemma DecodeASCIIHex_loop_digits (data result : list Z) (h : Z) (have : bool) :
  DecodeASCIIHex_loop data result h have =
  DecodeASCIIHex_loop (hex_digits data) result h have.
Proof.
  unfold hex_digits. revert result h have.
  induction data as [|b data IH]; intros result h have; [reflexivity|].
  cbn [before DecodeASCIIHex_loop].
  destruct (Z.eqb b 62) eqn:E62; [reflexivity|].
  cbn [filter]. destruct (is_hex b) eqn:Ehex.
  - cbn [DecodeASCIIHex_loop]. rewrite E62, (is_hex_not_space b Ehex).
    destruct (hex_value b); [|apply IH].
    destruct have; apply IH.
  - unfold is_hex in Ehex. destruct (hex_value b); [discriminate|].
    destruct (isWhitespace b); apply IH.
Qed.

Lemma DecodeASCIIHex_loop_length (digits : list Z) :
  Forall (fun b => is_hex b = true) digits ->
  forall result h have,
    len (DecodeASCIIHex_end (DecodeASCIIHex_loop digits result h have)) =
    len result + (len digits + (if have then 1 else 0) + 1) / 2.
Proof.
  induction 1 as [|b digits Hb _ IH]; intros result h have.
  - cbn [DecodeASCIIHex_loop DecodeASCIIHex_end]. destruct have.
    + rewrite len_app. reflexivity.
    + cbn. lia.
  - cbn [DecodeASCIIHex_loop].
    rewrite (is_hex_not_marker b Hb), (is_hex_not_space b Hb).
    unfold is_hex in Hb. destruct (hex_value b) as [n|]; [|discriminate].
    rewrite len_cons. pose proof (len_nonneg digits) as Hd.
    destruct have; rewrite IH; clear IH.
    + rewrite len_app. change (len [_]) with 1. Z.div_mod_to_equations. lia.
    + Z.div_mod_to_equations. lia.
Qed.

(** [DecodeASCIIHex] reads the hexadecimal digits before the first end
    marker and nothing else: white space, other bytes and what follows the
    marker have no influence.  Two digits give a byte and a last single
    digit gives one more. *)
Theorem DecodeASCIIHex_reads_digits (data : list Z) :
  DecodeASCIIHex data = DecodeASCIIHex (hex_digits data) /\
  len (fst (DecodeASCIIHex data)) = (len (hex_digits data) + 1) / 2.
Proof.
  unfold DecodeASCIIHex. rewrite (DecodeASCIIHex_loop_digits data).
  split; [reflexivity|]. cbn [fst].
  rewrite DecodeASCIIHex_loop_length.
  - change (len (@nil Z)) with 0.
    now replace (len (hex_digits data) + 0 + 1) with (len (hex_digits data) + 1) by lia.
  - apply Forall_forall. intros b Hb. unfold hex_digits in Hb.
    now apply filter_In in Hb.
Qed.

(** *** ASCII85Decode *)

(** One digit of a group. *)
Lemma DecodeASCII85_loop_digit (d : Z) (tail result : list Z) (tuple count : Z) :
  0 <= d < 85 ->
  DecodeASCII85_loop ((33 + d) :: tail) result tuple count =
  if Z.eqb (count + 1) 5
  then DecodeASCII85_loop tail
         (result ++ tuple_bytes (wrap32 (wrap32 (tuple * 85) + d))) 0 0
  else DecodeASCII85_loop tail result (wrap32 (wrap32 (tuple * 85) + d)) (count + 1).
Proof.
  intros Hd. cbn [DecodeASCII85_loop].
  replace (Z.eqb (33 + d) 126) with false by (symmetry; apply Z.eqb_neq; lia).
  replace (isWhitespace (33 + d)) with false.
  2:{ unfold isWhitespace.
      repeat match goal with
             | |- context [Z.eqb (33 + d) ?k] =>
                 replace (Z.eqb (33 + d) k) with false
                   by (symmetry; apply Z.eqb_neq; lia)
             end.
      reflexivity. }
  replace (Z.eqb (33 + d) 122) with false by (symmetry; apply Z.eqb_neq; lia).
  replace (Z.ltb (33 + d) 33) with false by (symmetry; apply Z.ltb_ge; lia).
  replace (Z.ltb 117 (33 + d)) with false by (symmetry; apply Z.ltb_ge; lia).
  cbn [andb orb].
  replace (wrap8 (33 + d - 33)) with d
    by (unfold wrap8; rewrite Z.mod_small; lia).
  reflexivity.
Qed.

Ltac base85_arith :=
  unfold wrap32, wrap8, group_value, is_byte in *;
  rewrite ?Z.shiftr_div_pow2 by lia;
  change (2 ^ 32) with 4294967296 in *; change (2 ^ 24) with 16777216 in *;
  change (2 ^ 16) with 65536 in *; change (2 ^ 8) with 256 in *;
  change (85 ^ 4) with 52200625 in *; change (85 ^ 3) with 614125 in *;
  change (85 ^ 2) with 7225 in *; change (85 ^ 1) with 85 in *;
  change (85 ^ 0) with 1 in *;
  Z.div_mod_to_equations; lia.

(** The digits of a value below [2 ^ 32] build the value up again, and no
    step leaves the range of [uint32]. *)
Lemma tuple_of_digits (v : Z) :
  0 <= v < 2 ^ 32 ->
  let t1 := wrap32 (wrap32 (0 * 85) + (v / 85 ^ 4) mod 85) in
  let t2 := wrap32 (wrap32 (t1 * 85) + (v / 85 ^ 3) mod 85) in
  let t3 := wrap32 (wrap32 (t2 * 85) + (v / 85 ^ 2) mod 85) in
  let t4 := wrap32 (wrap32 (t3 * 85) + (v / 85 ^ 1) mod 85) in
  let t5 := wrap32 (wrap32 (t4 * 85) + (v / 85 ^ 0) mod 85) in
  t1 = v / 85 ^ 4 /\ t2 = v / 85 ^ 3 /\ t3 = v / 85 ^ 2 /\ t4 = v / 85 ^ 1 /\ t5 = v.
Proof.
  intros Hv.
  assert (E1 : wrap32 (wrap32 (0 * 85) + (v / 85 ^ 4) mod 85) = v / 85 ^ 4)
    by base85_arith.
  cbv zeta. rewrite E1.
  assert (E2 : wrap32 (wrap32 (v / 85 ^ 4 * 85) + (v / 85 ^ 3) mod 85) = v / 85 ^ 3)
    by base85_arith.
  rewrite E2.
  assert (E3 : wrap32 (wrap32 (v / 85 ^ 3 * 85) + (v / 85 ^ 2) mod 85) = v / 85 ^ 2)
    by base85_arith.
  rewrite E3.
  assert (E4 : wrap32 (wrap32 (v / 85 ^ 2 * 85) + (v / 85 ^ 1) mod 85) = v / 85 ^ 1)
    by base85_arith.
  rewrite E4.
  assert (E5 : wrap32 (wrap32 (v / 85 ^ 1 * 85) + (v / 85 ^ 0) mod 85) = v)
    by base85_arith.
  rewrite E5. repeat split; reflexivity.
Qed.

Lemma digit85_range (v k : Z) : 0 <= (v / 85 ^ k) mod 85 < 85.
Proof. apply Z.mod_pos_bound. lia. Qed.

Lemma tuple_bytes_group (b0 b1 b2 b3 : Z) :
  is_byte b0 -> is_byte b1 -> is_byte b2 -> is_byte b3 ->
  tuple_bytes (group_value b0 b1 b2 b3) = [b0; b1; b2; b3].
Proof.
  intros H0 H1 H2 H3. unfold tuple_bytes.
  repeat f_equal; base85_arith.
Qed.

Lemma group_value_range (b0 b1 b2 b3 : Z) :
  is_byte b0 -> is_byte b1 -> is_byte b2 -> is_byte b3 ->
  0 <= group_value b0 b1 b2 b3 < 2 ^ 32.
Proof. intros H0 H1 H2 H3. unfold group_value, is_byte in *. lia. Qed.

(** A whole group. *)
Lemma DecodeASCII85_loop_group (b0 b1 b2 b3 : Z) (tail result : list Z) :
  is_byte b0 -> is_byte b1 -> is_byte b2 -> is_byte b3 ->
  DecodeASCII85_loop (encode85_group (group_value b0 b1 b2 b3) ++ tail) result 0 0 =
  DecodeASCII85_loop tail (result ++ [b0; b1; b2; b3]) 0 0.
Proof.
  intros H0 H1 H2 H3.
  pose proof (group_value_range b0 b1 b2 b3 H0 H1 H2 H3) as Hv.
  destruct (tuple_of_digits _ Hv) as (E1 & E2 & E3 & E4 & E5).
  unfold encode85_group, digit85. cbn [app].
  rewrite !DecodeASCII85_loop_digit by apply digit85_range.
  cbn [Z.add Z.eqb Pos.add Pos.succ Pos.eqb].
  cbv zeta in E5. rewrite E5.
  now rewrite tuple_bytes_group.
Qed.

Lemma is_byte_0 : is_byte 0.
Proof. unfold is_byte. lia. Qed.

(** The last group of one, two or three bytes: the digits that were
    written and the padding give back the bytes. *)
Lemma DecodeASCII85_partial_1 (b0 : Z) (result : list Z) :
  is_byte b0 ->
  let v := group_value b0 0 0 0 in
  DecodeASCII85_rest result
    (wrap32 (wrap32 (wrap32 (wrap32 (0 * 85) + (v / 85 ^ 4) mod 85) * 85) +
             (v / 85 ^ 3) mod 85)) 2 =
  result ++ [b0].
Proof.
  intros H0 v.
  pose proof (group_value_range b0 0 0 0 H0 is_byte_0 is_byte_0 is_byte_0) as Hv.
  destruct (tuple_of_digits v Hv) as (_ & E2 & _).
  cbv zeta in E2. rewrite E2. clear E2.
  unfold DecodeASCII85_rest, pad_tuple, tuple_bytes.
  change (Z.to_nat (5 - 2)) with 3%nat.
  cbn [Z.ltb Z.compare Z.eqb Pos.eqb Nat.iter nat_rect firstn].
  f_equal. f_equal. subst v. base85_arith.
Qed.

Lemma DecodeASCII85_partial_2 (b0 b1 : Z) (result : list Z) :
  is_byte b0 -> is_byte b1 ->
  let v := group_value b0 b1 0 0 in
  DecodeASCII85_rest result
    (wrap32 (wrap32 (wrap32 (wrap32 (wrap32 (wrap32 (0 * 85) + (v / 85 ^ 4) mod 85) * 85) +
                             (v / 85 ^ 3) mod 85) * 85) +
             (v / 85 ^ 2) mod 85)) 3 =
  result ++ [b0; b1].
Proof.
  intros H0 H1 v.
  pose proof (group_value_range b0 b1 0 0 H0 H1 is_byte_0 is_byte_0) as Hv.
  destruct (tuple_of_digits v Hv) as (_ & _ & E3 & _).
  cbv zeta in E3. rewrite E3. clear E3.
  unfold DecodeASCII85_rest, pad_tuple, tuple_bytes.
  change (Z.to_nat (5 - 3)) with 2%nat.
  cbn [Z.ltb Z.compare Z.eqb Pos.eqb Nat.iter nat_rect firstn].
  f_equal. subst v. repeat f_equal; base85_arith.
Qed.

Lemma DecodeASCII85_partial_3 (b0 b1 b2 : Z) (result : list Z) :
  is_byte b0 -> is_byte b1 -> is_byte b2 ->
  let v := group_value b0 b1 b2 0 in
  DecodeASCII85_rest result
    (wrap32 (wrap32 (wrap32 (wrap32 (wrap32 (wrap32 (wrap32 (wrap32 (0 * 85) +
       (v / 85 ^ 4) mod 85) * 85) + (v / 85 ^ 3) mod 85) * 85) +
       (v / 85 ^ 2) mod 85) * 85) + (v / 85 ^ 1) mod 85)) 4 =
  result ++ [b0; b1; b2].
Proof.
  intros H0 H1 H2 v.
  pose proof (group_value_range b0 b1 b2 0 H0 H1 H2 is_byte_0) as Hv.
  destruct (tuple_of_digits v Hv) as (_ & _ & _ & E4 & _).
  cbv zeta in E4. rewrite E4. clear E4.
  unfold DecodeASCII85_rest, pad_tuple, tuple_bytes.
  change (Z.to_nat (5 - 4)) with 1%nat.
  cbn [Z.ltb Z.compare Z.eqb Pos.eqb Nat.iter nat_rect firstn].
  f_equal. subst v. repeat f_equal; base85_arith.
Qed.

Lemma DecodeASCII85_loop_end (tail result : list Z) (tuple count : Z) :
  ends_input tail ->
  DecodeASCII85_loop tail result tuple count = (result, tuple, count).
Proof. intros [->|(rest & ->)]; reflexivity. Qed.

Lemma DecodeASCII85_loop_encoded (tail : list Z) :
  ends_input tail ->
  forall bytes, Forall is_byte bytes ->
  forall result,
    DecodeASCII85_end (DecodeASCII85_loop (EncodeASCII85 bytes ++ tail) result 0 0) =
    result ++ bytes.
Proof.
  intros Htail bytes. induction bytes as [bytes IH] using list_length_ind.
  intros Hbytes result.
  destruct bytes as [|b0 [|b1 [|b2 [|b3 rest]]]].
  - cbn [EncodeASCII85 app]. rewrite DecodeASCII85_loop_end by assumption.
    cbn. now rewrite app_nil_r.
  - inversion Hbytes as [|? ? H0 _]; subst.
    cbn [EncodeASCII85 encode85_group firstn app]. unfold digit85.
    rewrite !DecodeASCII85_loop_digit by apply digit85_range.
    cbn [Z.add Z.eqb Pos.add Pos.succ Pos.eqb].
    rewrite DecodeASCII85_loop_end by assumption.
    cbn [DecodeASCII85_end]. now apply DecodeASCII85_partial_1.
  - inversion Hbytes as [|? ? H0 Hb1]; subst.
    inversion Hb1 as [|? ? H1 _]; subst.
    cbn [EncodeASCII85 encode85_group firstn app]. unfold digit85.
    rewrite !DecodeASCII85_loop_digit by apply digit85_range.
    cbn [Z.add Z.eqb Pos.add Pos.succ Pos.eqb].
    rewrite DecodeASCII85_loop_end by assumption.
    cbn [DecodeASCII85_end]. now apply DecodeASCII85_partial_2.
  - inversion Hbytes as [|? ? H0 Hb1]; subst.
    inversion Hb1 as [|? ? H1 Hb2]; subst.
    inversion Hb2 as [|? ? H2 _]; subst.
    cbn [EncodeASCII85 encode85_group firstn app]. unfold digit85.
    rewrite !DecodeASCII85_loop_digit by apply digit85_range.
    cbn [Z.add Z.eqb Pos.add Pos.succ Pos.eqb].
    rewrite DecodeASCII85_loop_end by assumption.
    cbn [DecodeASCII85_end]. now apply DecodeASCII85_partial_3.
  - inversion Hbytes as [|? ? H0 Hb1]; subst.
    inversion Hb1 as [|? ? H1 Hb2]; subst.
    inversion Hb2 as [|? ? H2 Hb3]; subst.
    inversion Hb3 as [|? ? H3 Hrest]; subst.
    cbn [EncodeASCII85]. rewrite <- app_assoc.
    rewrite DecodeASCII85_loop_group by assumption.
    rewrite (IH rest ltac:(cbn [length]; lia) Hrest).
    now rewrite <- app_assoc.
Qed.

(** Decoding the base-85 digits of a byte sequence returns the byte
    sequence, with or without the end marker and whatever follows it; a
    last group of one, two or three bytes included. *)
Theorem DecodeASCII85_encoded (bytes rest : list Z) :
  Forall is_byte bytes ->
  DecodeASCII85 (EncodeASCII85 bytes) = (bytes, None) /\
  DecodeASCII85 (EncodeASCII85 bytes ++ 126 :: 62 :: rest) = (bytes, None).
Proof.
  intros Hb. unfold DecodeASCII85. split.
  - pose proof (DecodeASCII85_loop_encoded [] ltac:(now left) bytes Hb []) as E.
    rewrite app_nil_r in E. now rewrite E.
  - now rewrite (DecodeASCII85_loop_encoded (126 :: 62 :: rest)
                   ltac:(right; eauto) bytes Hb []).
Qed.

Lemma DecodeASCII85_encoded_witness :
  DecodeASCII85 (EncodeASCII85 [72; 105; 33; 10; 0] ++ [126; 62; 9]) =
  ([72; 105; 33; 10; 0], None).
Proof.
  exact (proj2 (DecodeASCII85_encoded [72; 105; 33; 10; 0] [9]
                  ltac:(repeat constructor; unfold is_byte; lia))).
Defined.

Lemma DecodeASCII85_loop_digits (data result : list Z) (tuple count : Z) :
  DecodeASCII85_loop data result tuple count =
  DecodeASCII85_loop (base85_digits data) result tuple count.
Proof.
  unfold base85_digits. revert result tuple count.
  induction data as [|b data IH]; intros result tuple count; [reflexivity|].
  cbn [before DecodeASCII85_loop].
  destruct (Z.eqb_spec b 126) as [->|H126]; [reflexivity|].
  cbn [filter]. destruct (is_base85 b) eqn:E.
  - cbn [DecodeASCII85_loop].
    replace (Z.eqb b 126) with false by (symmetry; now apply Z.eqb_neq).
    destruct (isWhitespace b); [apply IH|].
    destruct (Z.eqb b 122 && Z.eqb count 0); [apply IH|].
    destruct (Z.ltb b 33 || Z.ltb 117 b); [apply IH|].
    cbv zeta. destruct (Z.eqb (count + 1) 5); apply IH.
  - unfold is_base85 in E. apply orb_false_elim in E. destruct E as [Erange E122].
    rewrite E122. cbn [andb].
    destruct (isWhitespace b); [apply IH|].
    replace (Z.ltb b 33 || Z.ltb 117 b) with true; [apply IH|].
    destruct (Z.ltb_spec b 33), (Z.ltb_spec 117 b); try reflexivity.
    apply andb_false_elim in Erange. destruct Erange as [Erange|Erange];
      [apply Z.leb_gt in Erange|apply Z.leb_gt in Erange]; lia.
Qed.

Lemma DecodeASCII85_loop_acc (data prefix result : list Z) (tuple count : Z) :
  DecodeASCII85_end (DecodeASCII85_loop data (prefix ++ result) tuple count) =
  prefix ++ DecodeASCII85_end (DecodeASCII85_loop data result tuple count).
Proof.
  revert result tuple count.
  induction data as [|b data IH]; intros result tuple count.
  - cbn [DecodeASCII85_loop DecodeASCII85_end]. unfold DecodeASCII85_rest.
    destruct (Z.ltb 0 count); [|reflexivity].
    cbv zeta.
    repeat match goal with
           | |- context [if ?c then _ else _] => destruct c
           end; now rewrite ?app_assoc.
  - cbn [DecodeASCII85_loop].
    destruct (Z.eqb b 126).
    { change (DecodeASCII85_end (prefix ++ result, tuple, count)) with
        (DecodeASCII85_end (DecodeASCII85_loop [] (prefix ++ result) tuple count)).
      change (DecodeASCII85_end (result, tuple, count)) with
        (DecodeASCII85_end (DecodeASCII85_loop [] result tuple count)).
      clear IH. unfold DecodeASCII85_loop, DecodeASCII85_end, DecodeASCII85_rest.
      destruct (Z.ltb 0 count); [|reflexivity].
      cbv zeta.
      repeat match goal with
             | |- context [if ?c then _ else _] => destruct c
             end; now rewrite ?app_assoc. }
    destruct (isWhitespace b); [apply IH|].
    destruct (Z.eqb b 122 && Z.eqb count 0); [rewrite <- app_assoc; apply IH|].
    destruct (Z.ltb b 33 || Z.ltb 117 b); [apply IH|].
    cbv zeta. destruct (Z.eqb (count + 1) 5); [rewrite <- app_assoc|]; apply IH.
Qed.

(** [DecodeASCII85] reads the characters from [!] to [u] and [z] before the
    first [~] and nothing else: white space, other bytes and what follows
    the [~] have no influence.  A [z] that opens the data stands for four
    zero bytes, followed by what the rest of the data decodes to. *)
Theorem DecodeASCII85_reads_digits (data : list Z) :
  DecodeASCII85 data = DecodeASCII85 (base85_digits data) /\
  fst (DecodeASCII85 (122 :: data)) = [0; 0; 0; 0] ++ fst (DecodeASCII85 data).
Proof.
  unfold DecodeASCII85. split.
  - now rewrite (DecodeASCII85_loop_digits data).
  - cbn [fst DecodeASCII85_loop].
    change (isWhitespace 122) with false. cbn [Z.eqb Pos.eqb andb].
    apply (DecodeASCII85_loop_acc data [0; 0; 0; 0] []).
Qed.

(** *** Predictors: what they return on every input *)

(** [paeth] returns the one of [a], [b] and [c] that is nearest to
    [a + b - c]; of two at the same distance it returns [a] before [b]
    and [b] before [c]. *)
Theorem paeth_nearest (a b c : Z) :
  let p := a + b - c in
  let r := paeth a b c in
  (r = a \/ r = b \/ r = c) /\
  Z.abs (p - r) <= Z.abs (p - a) /\
  Z.abs (p - r) <= Z.abs (p - b) /\
  Z.abs (p - r) <= Z.abs (p - c) /\
  (Z.abs (p - a) <= Z.abs (p - b) -> Z.abs (p - a) <= Z.abs (p - c) -> r = a) /\
  (Z.abs (p - b) < Z.abs (p - a) -> Z.abs (p - b) <= Z.abs (p - c) -> r = b).
Proof.
  cbv zeta. unfold paeth, abs.
  repeat match goal with
         | |- context [Z.ltb ?x ?y] => destruct (Z.ltb_spec x y)
         | |- context [Z.leb ?x ?y] => destruct (Z.leb_spec x y)
         end; cbn [andb]; lia.
Qed.

Ltac in_range s i :=
  let x := fresh "x" in
  let E := fresh "E" in
  destruct (idx_in_range s i ltac:(lia)) as (x & E); rewrite E; cbn [bind].

(** [applyPNGFilter] does not panic and keeps the length of the row, for
    every filter type and every previous row. *)
Lemma applyPNGFilter_length (row prevRow : list Z) (filterType bpp : Z) :
  0 <= bpp ->
  exists decoded,
    applyPNGFilter row prevRow filterType bpp = Some decoded /\
    len decoded = len row.
Proof.
  intros Hbpp. unfold applyPNGFilter.
  pose proof (len_nonneg row) as Hrow. pose proof (len_nonneg prevRow) as Hprev.
  destruct (Z.eqb filterType 0); [eauto|].
  destruct (Z.eqb filterType 1).
  { destruct (Z.le_gt_cases (len row) bpp).
    - rewrite for_range_empty by lia. eauto.
    - apply (for_range_invariant (fun _ dec => len dec = len row)); [lia|reflexivity|].
      intros i dec Hi Hl. in_range dec i. in_range dec (i - bpp).
      rewrite upd_in_range by lia. eexists. split; [reflexivity|].
      now rewrite len_set_nth. }
  destruct (Z.eqb filterType 2).
  { apply (for_range_invariant (fun _ dec => len dec = len row)); [lia|reflexivity|].
    intros i dec Hi Hl. in_range dec i. in_range prevRow i.
    rewrite upd_in_range by lia. eexists. split; [reflexivity|].
    now rewrite len_set_nth. }
  destruct (Z.eqb filterType 3).
  { apply (for_range_invariant (fun _ dec => len dec = len row)); [lia|reflexivity|].
    intros i dec Hi Hl.
    assert (exists left, (if Z.leb bpp i then idx dec (i - bpp) else Some 0) = Some left)
      as (left & ->).
    { destruct (Z.leb_spec bpp i); [apply idx_in_range; lia|eauto]. }
    assert (exists up, (if Z.ltb i (len prevRow) then idx prevRow i else Some 0) = Some up)
      as (up & ->).
    { destruct (Z.ltb_spec i (len prevRow)); [apply idx_in_range; lia|eauto]. }
    cbn [bind]. in_range dec i.
    rewrite upd_in_range by lia. eexists. split; [reflexivity|].
    now rewrite len_set_nth. }
  destruct (Z.eqb filterType 4); [|eauto].
  apply (for_range_invariant (fun _ dec => len dec = len row)); [lia|reflexivity|].
  intros i dec Hi Hl.
  assert (exists a, (if Z.leb bpp i then idx dec (i - bpp) else Some 0) = Some a)
    as (a & ->).
  { destruct (Z.leb_spec bpp i); [apply idx_in_range; lia|eauto]. }
  assert (exists b, (if Z.ltb i (len prevRow) then idx prevRow i else Some 0) = Some b)
    as (b & ->).
  { destruct (Z.ltb_spec i (len prevRow)); [apply idx_in_range; lia|eauto]. }
  assert (exists c, (if Z.leb bpp i && Z.ltb (i - bpp) (len prevRow)
                     then idx prevRow (i - bpp) else Some 0) = Some c)
    as (c & ->).
  { destruct (Z.leb_spec bpp i), (Z.ltb_spec (i - bpp) (len prevRow)); cbn [andb];
      [apply idx_in_range; lia|eauto..]. }
  cbn [bind]. in_range dec i.
  rewrite upd_in_range by lia. eexists. split; [reflexivity|].
  now rewrite len_set_nth.
Qed.

(** [applyPNGPredictor] does not panic on parameters that are not negative
    and whose row fits an [int]: an input shorter than one row with its
    filter byte is returned as it is, and otherwise the output has one
    row, without the filter byte, for every whole row of the input; what
    is left after the last whole row is dropped. *)
Theorem applyPNGPredictor_total (data : list Z) (params : DecodeParams)
  (predictor : Z) :
  valid_params params ->
  exists out,
    applyPNGPredictor data params predictor = Some (out, None) /\
    (len data / (rowSize_of params + 1) = 0 -> out = data) /\
    (0 < len data / (rowSize_of params + 1) ->
     len out = len data / (rowSize_of params + 1) * rowSize_of params).
Proof.
  intros Hvalid. destruct (valid_params_sizes params Hvalid) as [Hbpp HR].
  unfold applyPNGPredictor.
  set (R := rowSize_of params) in *. set (bpp := bytesPerPixel_of params) in *.
  pose proof (len_nonneg data) as Hdata.
  rewrite Z.quot_div_nonneg by lia.
  destruct (Z.eqb_spec (len data) 0) as [Hempty|Hne]; cbn [orb].
  { exists data. split; [reflexivity|]. split; [reflexivity|].
    rewrite Hempty, Z.div_0_l by lia. lia. }
  replace (Z.eqb (R + 1) 0) with false by (symmetry; apply Z.eqb_neq; lia).
  set (n := len data / (R + 1)).
  assert (Hn : 0 <= n) by (apply Z.div_pos; lia).
  destruct (Z.eqb_spec n 0) as [Hn0|Hn0].
  { exists data. split; [reflexivity|]. split; [reflexivity|lia]. }
  assert (Hrows : n * (R + 1) <= len data)
    by (subst n; rewrite Z.mul_comm; apply Z.mul_div_le; lia).
  unfold make at 1 2.
  replace (Z.ltb (n * R) 0) with false by (symmetry; apply Z.ltb_ge; nia).
  replace (Z.ltb R 0) with false by (symmetry; apply Z.ltb_ge; lia).
  cbn [bind].
  destruct (for_range_invariant
    (fun k st => len (fst st) = k * R /\ len (snd st) = R)
    0 n (applyPNGPredictor_row data predictor R bpp)
    ([], repeat 0 (Z.to_nat R))) as (st & E & Hout & _).
  - lia.
  - cbn [fst snd]. split; [reflexivity|]. rewrite len_repeat. lia.
  - intros k [result prevRow] Hk [Hres Hprev]. cbn [fst snd] in *.
    unfold applyPNGPredictor_row.
    assert (Hstart : 0 <= k * (R + 1) < len data) by nia.
    replace (Z.leb (len data) (k * (R + 1))) with false
      by (symmetry; apply Z.leb_gt; lia).
    in_range data (k * (R + 1)).
    unfold make. replace (Z.ltb R 0) with false by (symmetry; apply Z.ltb_ge; lia).
    cbn [bind].
    match goal with
    | |- context [applyPNGFilter ?row prevRow ?ft bpp] =>
        destruct (applyPNGFilter_length row prevRow ft bpp ltac:(lia))
          as (decoded & Edec & Hdec)
    end.
    rewrite Edec. cbn [bind]. eexists. split; [reflexivity|]. cbn [fst snd].
    assert (Hlen : len decoded = R).
    { rewrite Hdec.
      match goal with
      | |- context [if ?c then copy ?d ?s else _] =>
          destruct c; [unfold len; rewrite length_copy|]
      end; fold (len (repeat 0 (Z.to_nat R))); rewrite len_repeat; lia. }
    split.
    + rewrite len_app. lia.
    + unfold len. rewrite length_copy. exact Hprev.
  - rewrite E. cbn [bind]. exists (fst st). split; [reflexivity|].
    split; [lia|]. intros _. exact Hout.
Qed.

Lemma applyPNGPredictor_total_witness :
  exists out,
    applyPNGPredictor [2; 10; 20; 2; 1; 2; 9] (mkDecodeParams 12 1 8 2 1) 12 =
      Some (out, None) /\
    len out = 4.
Proof.
  destruct (applyPNGPredictor_total [2; 10; 20; 2; 1; 2; 9]
              (mkDecodeParams 12 1 8 2 1) 12)
    as (out & E & _ & Hlen).
  - unfold valid_params. simpl. lia.
  - exists out. split; [exact E|]. apply Hlen. vm_compute. reflexivity.
Defined.

(** *** The TIFF predictor *)

Lemma idx_Some_getz (s : list Z) (i x : Z) : idx s i = Some x -> getz s i = x.
Proof. unfold getz. now intros ->. Qed.

(** [applyTIFFPredictor] with 8-bit components, on parameters that are not
    negative and fit an [int]: it does not panic, the output has the length
    of the input, and in every whole row each byte after the first pixel is
    the input byte plus the output byte of the pixel to the left; the first
    pixel of a row and what is left after the last whole row are the
    input. *)
Theorem applyTIFFPredictor_sums (data : list Z) (params : DecodeParams) :
  valid_params params ->
  or_default (BitsPerComponent params) 8 = 8 ->
  len data < 2 ^ 63 ->
  let colors := or_default (Colors params) 1 in
  let bpr := or_default (Columns params) 1 * colors in
  exists out,
    applyTIFFPredictor data params = Some (out, None) /\
    len out = len data /\
    forall i, 0 <= i < len data ->
      idx out i =
      if Z.ltb i (len data / bpr * bpr)
      then Some (tiff_sum colors bpr data out i)
      else idx data i.
Proof.
  intros (Hc & Hk & Hb & Hfit) Hbpc Hlen colors bpr.
  pose proof (or_default_pos _ 1 Hc ltac:(lia)) as Hcolumns.
  pose proof (or_default_pos _ 1 Hk ltac:(lia)) as Hcolors.
  fold colors in Hcolors.
  unfold applyTIFFPredictor. rewrite Hbpc in *. cbn [Z.eqb Pos.eqb negb].
  fold colors. fold bpr.
  assert (Hbpr : colors <= bpr /\ bpr < 2 ^ 63) by (subst bpr; nia).
  rewrite wrap_int_small by lia.
  pose proof (len_nonneg data) as Hdata.
  destruct (Z.eqb_spec (len data) 0) as [Hempty|Hne]; cbn [orb].
  { exists data. split; [reflexivity|]. split; [reflexivity|]. intros i Hi. lia. }
  replace (Z.eqb bpr 0) with false by (symmetry; apply Z.eqb_neq; lia).
  rewrite Z.quot_div_nonneg by lia.
  set (n := len data / bpr).
  assert (Hn : 0 <= n) by (apply Z.div_pos; lia).
  assert (Hrows : n * bpr <= len data)
    by (subst n; rewrite Z.mul_comm; apply Z.mul_div_le; lia).
  pose (inner := fun (rowStart col : Z) (result : list Z) =>
    x <- idx result (rowStart + col) ;;
    l <- idx result (rowStart + col - colors) ;;
    upd result (rowStart + col) (wrap8 (x + l))).
  match goal with
  | |- context [for_range 0 n ?f data] =>
      change f with (fun (row : Z) (result : list Z) =>
        for_range colors bpr (inner (wrap_int (row * bpr))) result)
  end.
  set (Inv := fun (bound : Z) (res : list Z) =>
    len res = len data /\
    (forall i, 0 <= i < bound -> idx res i = Some (tiff_sum colors bpr data res i)) /\
    (forall i, bound <= i < len data -> idx res i = idx data i)).
  assert (Hstep : forall r res, 0 <= r < n -> Inv (r * bpr) res ->
    exists res', for_range colors bpr (inner (wrap_int (r * bpr))) res = Some res' /\
                 Inv ((r + 1) * bpr) res').
  { intros r res Hr (Hl & Hdone & Hrest).
    assert (Hrow : 0 <= r * bpr /\ (r + 1) * bpr <= len data) by nia.
    rewrite wrap_int_small by lia.
    destruct (for_range_invariant (fun c res => Inv (r * bpr + c) res)
                colors bpr (inner (r * bpr)) res) as (res' & E & HI).
    - lia.
    - split; [exact Hl|]. split.
      + intros i Hi. destruct (Z.lt_ge_cases i (r * bpr)) as [Hlow|Hhigh].
        * apply Hdone. lia.
        * rewrite Hrest by lia. unfold tiff_sum.
          destruct (idx_in_range data i ltac:(lia)) as (x & Ex). rewrite Ex.
          assert (Emod : i mod bpr = i - r * bpr)
            by (symmetry; apply Z.mod_unique_pos with (q := r); lia).
          rewrite Emod.
          replace (Z.leb colors (i - r * bpr)) with false
            by (symmetry; apply Z.leb_gt; lia).
          now destruct (idx res (i - colors)).
      + intros i Hi. apply Hrest. lia.
    - intros c res1 Hcol (Hl1 & Hdone1 & Hrest1). unfold inner.
      rewrite Hrest1 by lia.
      destruct (idx_in_range data (r * bpr + c) ltac:(lia)) as (x & Ex).
      rewrite Ex. cbn [bind].
      destruct (idx_in_range res1 (r * bpr + c - colors) ltac:(lia)) as (l & El).
      rewrite El. cbn [bind]. rewrite upd_in_range by lia.
      eexists. split; [reflexivity|].
      split; [now rewrite len_set_nth|]. split.
      + intros i Hi. unfold tiff_sum.
        destruct (Z.eq_dec i (r * bpr + c)) as [->|Hne'].
        * rewrite idx_set_nth_eq by lia. rewrite Ex.
          rewrite idx_set_nth_ne by lia. rewrite El.
          assert (Emod : (r * bpr + c) mod bpr = c)
            by (symmetry; apply Z.mod_unique_pos with (q := r); lia).
          rewrite Emod.
          now replace (Z.leb colors c) with true by (symmetry; apply Z.leb_le; lia).
        * rewrite !idx_set_nth_ne by lia. apply Hdone1. lia.
      + intros i Hi. rewrite idx_set_nth_ne by lia. apply Hrest1. lia.
    - exists res'. split; [exact E|].
      now replace ((r + 1) * bpr) with (r * bpr + bpr) by lia. }
  destruct (for_range_invariant (fun r res => Inv (r * bpr) res) 0 n
              (fun row result => for_range colors bpr (inner (wrap_int (row * bpr))) result)
              data) as (out & E & Hl & Hdone & Hrest).
  - lia.
  - split; [reflexivity|]. split; [intros i Hi; lia|reflexivity].
  - intros r res Hr HI. replace (r + 1) with (r + 1) by lia.
    destruct (Hstep r res Hr HI) as (res' & E' & HI'). eauto.
  - exists out. rewrite E. split; [reflexivity|]. split; [exact Hl|].
    intros i Hi. fold n.
    destruct (Z.ltb_spec i (n * bpr)); [apply Hdone|apply Hrest]; lia.
Qed.

Lemma applyTIFFPredictor_sums_witness :
  exists out,
    applyTIFFPredictor [1; 2; 3; 4; 5; 6; 7] (mkDecodeParams 2 1 8 3 1) = Some (out, None) /\
    idx out 2 = Some (tiff_sum 1 3 [1; 2; 3; 4; 5; 6; 7] out 2) /\
    idx out 6 = Some 7.
Proof.
  destruct (applyTIFFPredictor_sums [1; 2; 3; 4; 5; 6; 7] (mkDecodeParams 2 1 8 3 1))
    as (out & E & _ & H);
    [unfold valid_params; simpl; lia|reflexivity|vm_compute; reflexivity|].
  exists out. split; [exact E|]. split.
  - apply (H 2). unfold len. simpl. lia.
  - apply (H 6). unfold len. simpl. lia.
Defined.

(** *** RunLengthDecode reads back the runs *)

Lemma DecodeRunLength_runs (runs : list run) (tail : list Z) :
  Forall run_ok runs ->
  fst (DecodeRunLength (flat_map encode_run runs ++ tail)) =
  flat_map expand_run runs ++ fst (DecodeRunLength tail).
Proof.
  induction 1 as [|r runs Hr _ IH]; [reflexivity|].
  cbn [flat_map]. rewrite <- !app_assoc.
  destruct r as [bytes|b n]; cbn [run_ok encode_run expand_run] in *.
  - cbn [app]. rewrite DecodeRunLength_copy by lia.
    replace (Z.to_nat (len bytes - 1 + 1)) with (length bytes)
      by (unfold len; lia).
    rewrite firstn_app, Nat.sub_diag, firstn_all, firstn_O, app_nil_r.
    rewrite skipn_app, Nat.sub_diag, skipn_all, skipn_O. cbn [app].
    now rewrite IH.
  - cbn [app]. rewrite DecodeRunLength_repeat by lia.
    replace (257 - (257 - n)) with n by lia. now rewrite IH.
Qed.

(** [DecodeRunLength] reads an encoded sequence of runs back: the output is
    the bytes of the runs in their order, whether the encoding ends with
    the input or with the end-of-data byte 128, and whatever follows that
    byte is not read. *)
Theorem DecodeRunLength_encoded (runs : list run) (rest : list Z) :
  Forall run_ok runs ->
  DecodeRunLength (flat_map encode_run runs) =
    (flat_map expand_run runs, None) /\
  DecodeRunLength (flat_map encode_run runs ++ 128 :: rest) =
    (flat_map expand_run runs, None).
Proof.
  intros Hruns. split.
  - pose proof (DecodeRunLength_runs runs [] Hruns) as H.
    rewrite !app_nil_r in H. cbn [DecodeRunLength fst] in H.
    unfold DecodeRunLength. now rewrite H.
  - pose proof (DecodeRunLength_runs runs (128 :: rest) Hruns) as H.
    replace (fst (DecodeRunLength (128 :: rest))) with (@nil Z) in H
      by reflexivity.
    rewrite app_nil_r in H. unfold DecodeRunLength in *. cbn [fst] in H.
    now rewrite H.
Qed.

Lemma DecodeRunLength_encoded_witness :
  DecodeRunLength [2; 65; 66; 67; 254; 120] = ([65; 66; 67; 120; 120; 120], None) /\
  DecodeRunLength [2; 65; 66; 67; 254; 120; 128; 9] =
    ([65; 66; 67; 120; 120; 120], None).
Proof.
  apply (DecodeRunLength_encoded [Literal [65; 66; 67]; Repeated 120 3] [9]).
  repeat constructor; cbn [run_ok]; unfold len; simpl; lia.
Defined.

End Stream.


(** * pkg/font/ttf: cmap format 4 *)

Module Cmap.

(** [CmapFormat4]: [SegCount] and the entries of [EndCode], [StartCode],
    [IDRangeOffset] and [GlyphIDArray] are [uint16]; the entries of
    [IDDelta] are [int16]. *)
Record CmapFormat4 := mkCmapFormat4 {
  SegCount : Z;
  EndCode : list Z;
  StartCode : list Z;
  IDDelta : list Z;
  IDRangeOffset : list Z;
  GlyphIDArray : list Z
}.

(** The body of the [else] branch of the search loop: the segment [mid]
    holds [code]. *)
Definition segment_glyph (c : CmapFormat4) (code mid : Z) : option Z :=
  rangeOffset <- idx (IDRangeOffset c) mid ;;
  if Z.eqb rangeOffset 0 then
    delta <- idx (IDDelta c) mid ;;
    Some (wrap16 (code + delta))
  else
    start <- idx (StartCode c) mid ;;
    let i := Z.quot rangeOffset 2 + wrap16 (code - start) - (SegCount c - mid) in
    if Z.leb 0 i && Z.ltb i (len (GlyphIDArray c)) then
      glyphID <- idx (GlyphIDArray c) i ;;
      if negb (Z.eqb glyphID 0) then
        delta <- idx (IDDelta c) mid ;;
        Some (wrap16 (glyphID + delta))
      else Some 0
    else Some 0.

Lemma quot2_between (lo hi : Z) :
  lo <= hi -> lo <= Z.quot (lo + hi) 2 <= hi.
Proof.
  intros H. pose proof (Z.quot_rem' (lo + hi) 2) as E.
  destruct (Z.le_gt_cases 0 (lo + hi)) as [Hpos|Hneg].
  - pose proof (Z.rem_bound_pos (lo + hi) 2 Hpos ltac:(lia)). lia.
  - pose proof (Z.rem_bound_pos_neg (lo + hi) 2 ltac:(lia) ltac:(lia)). lia.
Qed.

(** The loop [for lo <= hi] of [GetGlyphID]. *)
Equations? search (c : CmapFormat4) (code lo hi : Z) : option Z
  by wf (Z.to_nat (hi - lo + 1)) lt :=
  search c code lo hi with Z_le_gt_dec lo hi => {
    | right _ := Some 0;
    | left Hle with inspect (Z.quot (lo + hi) 2) => {
      | exist _ mid Hmid with idx (EndCode c) mid => {
        | None := None;
        | Some endCode with Z.ltb endCode code => {
          | true := search c code (mid + 1) hi;
          | false with idx (StartCode c) mid => {
            | None := None;
            | Some startCode with Z.ltb code startCode => {
              | true := search c code lo (mid - 1);
              | false := segment_glyph c code mid } } } } } }.
Proof.
  all: pose proof (quot2_between lo hi Hle) as Hq; subst; lia.
Qed.

(** [CmapFormat4.GetGlyphID]; [r] is the rune, an [int32]. *)
Definition GetGlyphID (c : CmapFormat4) (r : Z) : option Z :=
  if Z.ltb 65535 r then Some 0
  else
    let code := wrap16 r in
    search c code 0 (SegCount c - 1).

(** ** Parsing the subtables (cmap.go) *)

(** [binary.BigEndian.Uint16(d[o:o+2])] and [Uint32(d[o:o+4])]. *)
Definition Uint16 (d : list Z) (o : Z) : option Z :=
  b0 <- idx d o ;;
  b1 <- idx d (o + 1) ;;
  Some (Z.lor b1 (Z.shiftl b0 8)).

Definition Uint32 (d : list Z) (o : Z) : option Z :=
  b0 <- idx d o ;;
  b1 <- idx d (o + 1) ;;
  b2 <- idx d (o + 2) ;;
  b3 <- idx d (o + 3) ;;
  Some (Z.lor (Z.lor (Z.lor b3 (Z.shiftl b2 8)) (Z.shiftl b1 16)) (Z.shiftl b0 24)).

(** The conversion [int16(u)] of a [uint16]. *)
Definition to_int16 (u : Z) : Z := if Z.ltb u 32768 then u else u - 65536.

(** The loops [for i := 0; i < count && offset+2 <= len(d); i++] that fill
    an array with 16-bit entries: once the data has run out the test fails
    for every later [i], which leaves the state as it is.  The state is the
    array and [offset]. *)
Definition read_entries (d : list Z) (count : Z) (conv : Z -> Z)
  (st : list Z * Z) : option (list Z * Z) :=
  for_range 0 count (fun i st =>
    let '(arr, offset) := st in
    if Z.leb (offset + 2) (len d) then
      v <- Uint16 d offset ;;
      arr <- upd arr i (conv v) ;;
      Some (arr, offset + 2)
    else Some st) st.

(** [parseCmapFormat4]: the table that becomes [BestFormat], or the
    error. *)
Definition parseCmapFormat4 (d : list Z) : option (CmapFormat4 + string) :=
  if Z.ltb (len d) 14 then Some (inr "format 4 subtable too short"%string)
  else
    length <- Uint16 d 2 ;;
    segCountX2 <- Uint16 d 6 ;;
    let segCount := Z.quot segCountX2 2 in
    if Z.ltb (len d) length then Some (inr "format 4 length exceeds data"%string)
    else
      endCode <- make 0 segCount ;;
      startCode <- make 0 segCount ;;
      idDelta <- make 0 segCount ;;
      idRangeOffset <- make 0 segCount ;;
      let offset := 14 in
      r <- read_entries d segCount (fun v => v) (endCode, offset) ;;
      let '(endCode, offset) := r in
      let offset := offset + 2 in
      r <- read_entries d segCount (fun v => v) (startCode, offset) ;;
      let '(startCode, offset) := r in
      r <- read_entries d segCount to_int16 (idDelta, offset) ;;
      let '(idDelta, offset) := r in
      r <- read_entries d segCount (fun v => v) (idRangeOffset, offset) ;;
      let '(idRangeOffset, offset) := r in
      d2 <- idx d 2 ;;
      d3 <- idx d 3 ;;
      let remaining := length - offset + Z.shiftl d2 8 + d3 in
      glyphIDArray <-
        (if Z.ltb 0 remaining && Z.ltb offset (len d) then
           let glyphArrayLen := Z.quot (len d - offset) 2 in
           arr <- make 0 glyphArrayLen ;;
           r <- read_entries d glyphArrayLen (fun v => v) (arr, offset) ;;
           Some (fst r)
         else Some []) ;;
      Some (inl (mkCmapFormat4 segCount endCode startCode idDelta idRangeOffset
                               glyphIDArray)).

(** ** Format 6 *)

Record CmapFormat6 := mkCmapFormat6 {
  FirstCode : Z;
  EntryCount : Z;
  GlyphIDs : list Z
}.

Definition parseCmapFormat6 (d : list Z) : option (CmapFormat6 + string) :=
  if Z.ltb (len d) 10 then Some (inr "format 6 subtable too short"%string)
  else
    firstCode <- Uint16 d 6 ;;
    entryCount <- Uint16 d 8 ;;
    glyphIDs <- make 0 entryCount ;;
    r <- read_entries d entryCount (fun v => v) (glyphIDs, 10) ;;
    Some (inl (mkCmapFormat6 firstCode entryCount (fst r))).

(** [CmapFormat6.GetGlyphID]; the sum [FirstCode + EntryCount] is a
    [uint16]. *)
Definition GetGlyphID6 (c : CmapFormat6) (r : Z) : option Z :=
  if Z.ltb 65535 r then Some 0
  else
    let code := wrap16 r in
    if Z.ltb code (FirstCode c) || Z.leb (wrap16 (FirstCode c + EntryCount c)) code
    then Some 0
    else idx (GlyphIDs c) (wrap16 (code - FirstCode c)).

(** ** Format 12 *)

Record CmapGroup := mkCmapGroup {
  StartCharCode : Z;
  EndCharCode : Z;
  StartGlyphID : Z
}.

Definition uint32 (x : Z) : Z := x mod 2 ^ 32.

(** [uint16(group.StartGlyphID + (code - group.StartCharCode))]. *)
Definition group_glyph (group : CmapGroup) (code : Z) : Z :=
  wrap16 (uint32 (StartGlyphID group + uint32 (code - StartCharCode group))).

(** The loop [for lo <= hi] of [CmapFormat12.GetGlyphID]. *)
Equations? search12 (groups : list CmapGroup) (code lo hi : Z) : option Z
  by wf (Z.to_nat (hi - lo + 1)) lt :=
  search12 groups code lo hi with Z_le_gt_dec lo hi => {
    | right _ := Some 0;
    | left Hle with inspect (Z.quot (lo + hi) 2) => {
      | exist _ mid Hmid with idx groups mid => {
        | None := None;
        | Some group with Z.ltb (EndCharCode group) code => {
          | true := search12 groups code (mid + 1) hi;
          | false with Z.ltb code (StartCharCode group) => {
            | true := search12 groups code lo (mid - 1);
            | false := Some (group_glyph group code) } } } } }.
Proof.
  all: pose proof (quot2_between lo hi Hle) as Hq; subst; lia.
Qed.

(** [r] is the rune, an [int32]; [code] is [uint32(r)]. *)
Definition GetGlyphID12 (groups : list CmapGroup) (r : Z) : option Z :=
  let code := uint32 r in
  search12 groups code 0 (len groups - 1).

(** The groups are sorted and do not overlap. *)
Definition ordered12 (groups : list CmapGroup) : Prop :=
  (forall i g, idx groups i = Some g -> StartCharCode g <= EndCharCode g) /\
  (forall i j gi gj, 0 <= i -> i < j ->
     idx groups i = Some gi -> idx groups j = Some gj ->
     EndCharCode gi < StartCharCode gj).

(** What the parsers guarantee of a format 6 table. *)
Definition parsed6 (c : CmapFormat6) : Prop :=
  0 <= FirstCode c < 65536 /\ 0 <= EntryCount c < 65536 /\
  len (GlyphIDs c) = EntryCount c /\
  Forall (fun g => 0 <= g < 65536) (GlyphIDs c).

(** The entries of a parsed format 4 table are 16-bit numbers. *)
Definition entries16 (c : CmapFormat4) : Prop :=
  0 <= SegCount c < 32768 /\
  Forall (fun e => 0 <= e < 65536) (EndCode c) /\
  Forall (fun e => - 32768 <= e < 32768) (IDDelta c) /\
  Forall (fun e => 0 <= e < 65536) (IDRangeOffset c) /\
  Forall (fun e => 0 <= e < 65536) (GlyphIDArray c).

(** A format 4 subtable of 24 bytes with the single segment 65535. *)
Definition format4_sample : list Z :=
  [0; 4; 0; 24; 0; 0; 0; 2; 0; 2; 0; 0; 0; 0;
   255; 255; 0; 0; 255; 255; 0; 1; 0; 0].

(** *** The choice of the subtable ([parseCmap]) *)

Record CmapSubtable := mkCmapSubtable {
  PlatformID : Z;
  EncodingID : Z;
  Offset : Z;
  Format : Z
}.

(** The priority that the loop of [parseCmap] gives to a subtable. *)
Definition priority (st : CmapSubtable) : Z :=
  let priority :=
    if Z.eqb (PlatformID st) 0 then 3
    else if Z.eqb (PlatformID st) 3 &&
            (Z.eqb (EncodingID st) 1 || Z.eqb (EncodingID st) 10) then 2
    else if Z.eqb (PlatformID st) 1 && Z.eqb (EncodingID st) 0 then 1
    else 0 in
  if Z.ltb 0 priority && Z.eqb (Format st) 12 then priority + 10 else priority.

(** The loop [for i := range f.Cmap.Subtables] of [parseCmap], from
    [bestSubtable] and [bestPriority]; [None] is the [nil] pointer. *)
Fixpoint best_loop (subtables : list CmapSubtable)
  (bestSubtable : option CmapSubtable) (bestPriority : Z)
  : option CmapSubtable :=
  match subtables with
  | [] => bestSubtable
  | st :: rest =>
      if Z.ltb bestPriority (priority st)
      then best_loop rest (Some st) (priority st)
      else best_loop rest bestSubtable bestPriority
  end.

Definition bestSubtable (subtables : list CmapSubtable) : option CmapSubtable :=
  best_loop subtables None (-1).

(** The subtable that [parseCmap] parses, or its error. *)
Definition selected (subtables : list CmapSubtable) : CmapSubtable + string :=
  match bestSubtable subtables with
  | None => inr "no suitable cmap subtable found"%string
  | Some st => inl st
  end.

(** *** Properties of the format 4 lookup *)

(** What [parseCmapFormat4] guarantees: the four segment arrays are made
    with [segCount] entries, and a start code is a [uint16]. *)
Definition parsed (c : CmapFormat4) : Prop :=
  0 <= SegCount c /\
  len (EndCode c) = SegCount c /\
  len (StartCode c) = SegCount c /\
  len (IDDelta c) = SegCount c /\
  len (IDRangeOffset c) = SegCount c /\
  Forall (fun s => 0 <= s < 65536) (StartCode c).

(** Segment [t] holds [code]. *)
Definition holds (c : CmapFormat4) (t code : Z) : Prop :=
  exists s e, idx (StartCode c) t = Some s /\ idx (EndCode c) t = Some e /\
              s <= code <= e.

(** The segments are sorted by end code and do not overlap: every segment
    starts no later than it ends, and ends before the next one starts. *)
Definition ordered (c : CmapFormat4) : Prop :=
  (forall i s e, idx (StartCode c) i = Some s -> idx (EndCode c) i = Some e ->
     s <= e) /\
  (forall i j e s, 0 <= i -> i < j -> j < SegCount c ->
     idx (EndCode c) i = Some e -> idx (StartCode c) j = Some s -> e < s).

Section OrderedSegments.

Variables (c : CmapFormat4) (code t : Z).
Hypothesis Hparsed : parsed c.
Hypothesis Hordered : ordered c.
Hypothesis Ht : 0 <= t < SegCount c.
Hypothesis Hholds : holds c t code.

(** A segment that ends before [code] is to the left of the segment of
    [code]. *)
Lemma segment_ends_before (m e : Z) :
  0 <= m < SegCount c -> idx (EndCode c) m = Some e -> e < code -> m < t.
Proof.
  intros Hm He Hlt. destruct Hholds as (st & et & Hst & Het & Hin).
  destruct Hparsed as (_ & _ & HlS & _). destruct Hordered as (Hse & Hes).
  destruct (Z.lt_trichotomy m t) as [?|[->|Hgt]]; [assumption| |].
  - rewrite He in Het. injection Het as ->. lia.
  - destruct (idx_in_range (StartCode c) m ltac:(lia)) as (sm & Hsm).
    pose proof (Hes t m et sm ltac:(lia) ltac:(lia) ltac:(lia) Het Hsm).
    pose proof (Hse m sm e Hsm He). lia.
Qed.

(** A segment that starts after [code] is to the right of the segment of
    [code]. *)
Lemma segment_starts_after (m s : Z) :
  0 <= m < SegCount c -> idx (StartCode c) m = Some s -> code < s -> t < m.
Proof.
  intros Hm Hs Hlt. destruct Hholds as (st & et & Hst & Het & Hin).
  destruct Hparsed as (_ & HlE & _). destruct Hordered as (Hse & Hes).
  destruct (Z.lt_trichotomy t m) as [?|[->|Hgt]]; [assumption| |].
  - rewrite Hs in Hst. injection Hst as ->. lia.
  - destruct (idx_in_range (EndCode c) m ltac:(lia)) as (em & Hem).
    pose proof (Hes m t em st ltac:(lia) ltac:(lia) ltac:(lia) Hem Hst).
    pose proof (Hse m s em Hs Hem). lia.
Qed.

(** No other segment holds [code]. *)
Lemma segment_unique (m : Z) :
  0 <= m < SegCount c -> holds c m code -> m = t.
Proof.
  intros Hm (sm & em & Hsm & Hem & Hinm).
  destruct Hholds as (st & et & Hst & Het & Hin). destruct Hordered as (_ & Hes).
  destruct (Z.lt_trichotomy m t) as [Hlt|[?|Hgt]]; [exfalso|assumption|exfalso].
  - pose proof (Hes m t em st ltac:(lia) ltac:(lia) ltac:(lia) Hem Hst). lia.
  - pose proof (Hes t m et sm ltac:(lia) ltac:(lia) ltac:(lia) Het Hsm). lia.
Qed.

Lemma search_finds (lo hi : Z) :
  0 <= lo -> hi < SegCount c -> lo <= t <= hi ->
  search c code lo hi = segment_glyph c code t.
Proof.
  pose proof Hparsed as (_ & HlE & HlS & _).
  funelim (search c code lo hi); intros Hlo Hhi Hrange; try lia;
    pose proof (quot2_between lo hi Hle) as Hq;
    set (mid := Z.quot (lo + hi) 2) in *;
    repeat match goal with
           | H : Z.ltb _ _ = true |- _ => apply Z.ltb_lt in H
           | H : Z.ltb _ _ = false |- _ => apply Z.ltb_ge in H
           end.
  - exfalso. destruct (idx_in_range (EndCode c) mid ltac:(lia)). congruence.
  - match goal with
    | IH : forall _, _ |- _ => apply IH; auto; try lia
    end.
    match goal with
    | He : idx (EndCode c) mid = Some ?e |- _ =>
        pose proof (segment_ends_before mid e ltac:(lia) He ltac:(lia))
    end. lia.
  - exfalso. destruct (idx_in_range (StartCode c) mid ltac:(lia)). congruence.
  - match goal with
    | IH : forall _, _ |- _ => apply IH; auto; try lia
    end.
    match goal with
    | Hs : idx (StartCode c) mid = Some ?s |- _ =>
        pose proof (segment_starts_after mid s ltac:(lia) Hs ltac:(lia))
    end. lia.
  - f_equal. apply segment_unique; [lia|].
    match goal with
    | Hs : idx (StartCode c) mid = Some ?s, He : idx (EndCode c) mid = Some ?e |- _ =>
        exists s, e; repeat split; auto; lia
    end.
Qed.

End OrderedSegments.

Lemma search_none (c : CmapFormat4) (code lo hi : Z) :
  parsed c -> 0 <= lo -> hi < SegCount c ->
  (forall m, lo <= m <= hi -> ~ holds c m code) ->
  search c code lo hi = Some 0.
Proof.
  intros Hparsed. pose proof Hparsed as (_ & HlE & HlS & _).
  funelim (search c code lo hi); intros Hlo Hhi Hnone; try reflexivity;
    pose proof (quot2_between lo hi Hle) as Hq;
    set (mid := Z.quot (lo + hi) 2) in *;
    repeat match goal with
           | H : Z.ltb _ _ = true |- _ => apply Z.ltb_lt in H
           | H : Z.ltb _ _ = false |- _ => apply Z.ltb_ge in H
           end.
  - exfalso. destruct (idx_in_range (EndCode c) mid ltac:(lia)). congruence.
  - match goal with
    | IH : forall _, _ |- _ => apply IH; auto; try lia
    end.
    intros m Hm. apply Hnone. lia.
  - exfalso. destruct (idx_in_range (StartCode c) mid ltac:(lia)). congruence.
  - match goal with
    | IH : forall _, _ |- _ => apply IH; auto; try lia
    end.
    intros m Hm. apply Hnone. lia.
  - exfalso. apply (Hnone mid ltac:(lia)).
    match goal with
    | Hs : idx (StartCode c) mid = Some ?s, He : idx (EndCode c) mid = Some ?e |- _ =>
        exists s, e; repeat split; auto; lia
    end.
Qed.

Lemma wrap16_small (x : Z) : 0 <= x < 65536 -> wrap16 x = x.
Proof. intros H. unfold wrap16. now apply Z.mod_small. Qed.

(** C7 (amended).  For a parsed format 4 table whose segments are sorted and
    disjoint and a code [r] of the Basic Multilingual Plane: when segment [t]
    holds [r], the binary search finds it, and the result is
    [(r + idDelta) mod 65536] if its idRangeOffset is 0; otherwise the entry
    [g] of glyphIdArray at index
    [idRangeOffset/2 + (r - startCode) - (segCount - t)] is read and the
    result is [(g + idDelta) mod 65536], unless the index is outside the
    array or [g] is 0, in which cases the result is 0.  When no segment
    holds [r] the result is 0. *)
Theorem GetGlyphID_format4 (c : CmapFormat4) (r : Z) :
  parsed c -> ordered c -> 0 <= r <= 65535 ->
  (forall t s e delta rangeOffset,
     0 <= t < SegCount c ->
     idx (StartCode c) t = Some s ->
     idx (EndCode c) t = Some e ->
     idx (IDDelta c) t = Some delta ->
     idx (IDRangeOffset c) t = Some rangeOffset ->
     s <= r <= e ->
     GetGlyphID c r =
     Some (if Z.eqb rangeOffset 0 then (r + delta) mod 65536
           else match idx (GlyphIDArray c)
                        (Z.quot rangeOffset 2 + (r - s) - (SegCount c - t)) with
                | Some g => if Z.eqb g 0 then 0 else (g + delta) mod 65536
                | None => 0
                end)) /\
  ((forall t, 0 <= t < SegCount c -> ~ holds c t r) ->
   GetGlyphID c r = Some 0).
Proof.
  intros Hparsed Hordered Hr. unfold GetGlyphID.
  replace (Z.ltb 65535 r) with false by (symmetry; apply Z.ltb_ge; lia).
  rewrite wrap16_small by lia. split.
  - intros t s e delta rangeOffset Ht Hs He Hd Hro Hin.
    rewrite (search_finds c r t Hparsed Hordered Ht) by
      (try (exists s, e; auto); lia).
    unfold segment_glyph. rewrite Hro. cbn [bind].
    destruct (Z.eqb rangeOffset 0); [rewrite Hd; reflexivity|].
    rewrite Hs. cbn [bind].
    assert (Hs16 : 0 <= s < 65536).
    { destruct Hparsed as (_ & _ & _ & _ & _ & H16).
      rewrite Forall_forall in H16. apply H16.
      unfold idx in Hs. destruct (Z.ltb t 0); [discriminate|].
      eapply nth_error_In; eauto. }
    rewrite wrap16_small by lia.
    set (k := Z.quot rangeOffset 2 + (r - s) - (SegCount c - t)).
    destruct (Z.leb 0 k && Z.ltb k (len (GlyphIDArray c))) eqn:Ek.
    + apply andb_prop in Ek as (Ek1 & Ek2).
      apply Z.leb_le in Ek1. apply Z.ltb_lt in Ek2.
      destruct (idx_in_range (GlyphIDArray c) k ltac:(lia)) as (g & ->).
      cbn [bind]. destruct (Z.eqb g 0); cbn [negb]; [reflexivity|].
      rewrite Hd. reflexivity.
    + destruct (idx (GlyphIDArray c) k) as [g|] eqn:Eg; [|reflexivity].
      apply idx_Some_lt in Eg. apply andb_false_iff in Ek as [Ek|Ek].
      * apply Z.leb_gt in Ek. lia.
      * apply Z.ltb_ge in Ek. lia.
  - intros Hnone. apply search_none; auto; try lia.
    intros m Hm. apply Hnone. lia.
Qed.

(** Three segments: 65..70 by delta, 80..90 through glyphIdArray, and the
    final segment 65535. *)
Lemma GetGlyphID_format4_witness :
  GetGlyphID (mkCmapFormat4 3 [70; 90; 65535] [65; 80; 65535] [5; 0; 1]
                            [0; 8; 0] [0; 7; 9; 11]) 81 = Some 11.
Proof.
  pose proof (GetGlyphID_format4
    (mkCmapFormat4 3 [70; 90; 65535] [65; 80; 65535] [5; 0; 1] [0; 8; 0]
                   [0; 7; 9; 11]) 81) as H.
  destruct H as (H & _).
  - unfold parsed, len. simpl. repeat split; try lia.
    repeat constructor; lia.
  - split.
    + intros i s e Hs He. pose proof (idx_Some_lt _ _ _ Hs) as Hi.
      unfold len in Hi; simpl in Hi.
      assert (Hc : i = 0 \/ i = 1 \/ i = 2) by lia.
      destruct Hc as [-> | [-> | ->]]; vm_compute in Hs, He;
        injection Hs as <-; injection He as <-; lia.
    + intros i j e s Hi Hij Hj He Hs. simpl in Hj.
      assert (Hc : (i = 0 /\ j = 1) \/ (i = 0 /\ j = 2) \/ (i = 1 /\ j = 2))
        by lia.
      destruct Hc as [(E1 & E2)|[(E1 & E2)|(E1 & E2)]]; subst i j;
        vm_compute in Hs, He;
        injection Hs as <-; injection He as <-; lia.
  - lia.
  - rewrite (H 1 80 90 0 8); try reflexivity; simpl; lia.
Defined.

(** C7 as stated fails where the glyphIdArray entry is 0: the lookup
    returns 0 and idDelta is not added. *)
Lemma GetGlyphID_zero_entry :
  GetGlyphID (mkCmapFormat4 1 [66] [65] [5] [2] [0; 7]) 65 = Some 0 /\
  idx [2] 0 = Some 2 /\
  idx [0; 7] (Z.quot 2 2 + (65 - 65) - (1 - 0)) = Some 0 /\
  (0 + 5) mod 65536 <> 0.
Proof.
  repeat (split; [reflexivity|]). discriminate.
Qed.


(** *** The parsers and the lookups of the other formats *)

Lemma Forall_set_nth {A : Type} (P : A -> Prop) (s : list A) (n : nat) (v : A) :
  Forall P s -> P v -> Forall P (set_nth s n v).
Proof.
  intros Hs Hv. revert n. induction Hs as [|x s Hx Hs IH]; intros n.
  - destruct n; constructor.
  - destruct n; cbn [set_nth]; constructor; auto.
Qed.

Lemma idx_byte (d : list Z) (o : Z) :
  Forall is_byte d -> 0 <= o < len d -> exists b, idx d o = Some b /\ is_byte b.
Proof.
  intros Hd Ho. destruct (idx_in_range d o Ho) as (b & Hb). exists b.
  split; [assumption|]. unfold idx in Hb. destruct (Z.ltb o 0); [discriminate|].
  rewrite Forall_forall in Hd. apply Hd. eapply nth_error_In; eassumption.
Qed.

Lemma Uint16_range (d : list Z) (o : Z) :
  Forall is_byte d -> 0 <= o -> o + 2 <= len d ->
  exists v, Uint16 d o = Some v /\ 0 <= v < 65536.
Proof.
  intros Hd Ho Hfit. unfold Uint16.
  destruct (idx_byte d o Hd ltac:(lia)) as (b0 & -> & H0).
  destruct (idx_byte d (o + 1) Hd ltac:(lia)) as (b1 & -> & H1).
  cbn [bind]. eexists. split; [reflexivity|].
  unfold is_byte in *. rewrite Z.lor_comm, Stream.lor_shiftl by lia. lia.
Qed.

Lemma to_int16_range (v : Z) : 0 <= v < 65536 -> - 32768 <= to_int16 v < 32768.
Proof. intros H. unfold to_int16. destruct (Z.ltb_spec v 32768); lia. Qed.

(** The filling loops do not panic; they keep the length of the array and
    write converted 16-bit numbers only. *)
Lemma read_entries_ok (d : list Z) (count : Z) (conv : Z -> Z) (P : Z -> Prop)
  (arr : list Z) (offset : Z) :
  Forall is_byte d -> 0 <= count -> len arr = count -> Forall P arr ->
  (forall v, 0 <= v < 65536 -> P (conv v)) -> 0 <= offset ->
  exists arr' offset',
    read_entries d count conv (arr, offset) = Some (arr', offset') /\
    len arr' = count /\ Forall P arr' /\ offset <= offset'.
Proof.
  intros Hd Hcount Hlen HP Hconv Hoff. unfold read_entries.
  destruct (for_range_invariant
    (fun _ st => len (fst st) = count /\ Forall P (fst st) /\ offset <= snd st)
    0 count
    (fun i st =>
       let '(arr, offset) := st in
       if Z.leb (offset + 2) (len d) then
         v <- Uint16 d offset ;;
         arr <- upd arr i (conv v) ;;
         Some (arr, offset + 2)
       else Some st)
    (arr, offset)) as ([arr' offset'] & E & Hl & HP' & Ho').
  - lia.
  - cbn [fst snd]. repeat split; auto. lia.
  - intros i [a o] Hi (Hl & HPa & Ho). cbn [fst snd] in *.
    destruct (Z.leb_spec (o + 2) (len d)) as [Hfit|Hout].
    + destruct (Uint16_range d o Hd ltac:(lia) Hfit) as (v & -> & Hv).
      cbn [bind]. rewrite upd_in_range by lia. cbn [bind].
      eexists. split; [reflexivity|]. cbn [fst snd].
      split; [now rewrite len_set_nth|].
      split; [apply Forall_set_nth; auto|lia].
    + eexists. split; [reflexivity|]. cbn [fst snd]. auto.
  - exists arr', offset'. cbn [fst snd] in *. auto.
Qed.

Lemma make_zeros (n : Z) :
  0 <= n -> make 0 n = Some (repeat 0 (Z.to_nat n)).
Proof.
  intros Hn. unfold make.
  now replace (Z.ltb n 0) with false by (symmetry; apply Z.ltb_ge; lia).
Qed.

Lemma Forall_zeros (P : Z -> Prop) (k : nat) : P 0 -> Forall P (repeat 0 k).
Proof.
  intros H0. apply Forall_forall. intros x Hx. apply repeat_spec in Hx. now subst.
Qed.

Lemma len_zeros (n : Z) : 0 <= n -> len (repeat 0 (Z.to_nat n)) = n.
Proof. intros Hn. unfold len. rewrite repeat_length. lia. Qed.

(** [parseCmapFormat4] does not panic on any byte string.  It fails on less
    than 14 bytes; every table it returns has its four segment arrays of
    [segCount] entries, and 16-bit numbers in all its arrays, however short
    the data is. *)
Theorem parseCmapFormat4_parsed (d : list Z) :
  Forall is_byte d ->
  exists r,
    parseCmapFormat4 d = Some r /\
    (len d < 14 -> r = inr "format 4 subtable too short"%string) /\
    (forall c, r = inl c -> 14 <= len d /\ parsed c /\ entries16 c).
Proof.
  intros Hd. unfold parseCmapFormat4.
  destruct (Z.ltb_spec (len d) 14) as [Hshort|Hlong].
  { eexists. split; [reflexivity|]. split; [reflexivity|]. discriminate. }
  destruct (Uint16_range d 2 Hd ltac:(lia) ltac:(lia)) as (length & -> & Hlength).
  destruct (Uint16_range d 6 Hd ltac:(lia) ltac:(lia)) as (x2 & -> & Hx2).
  cbn [bind].
  destruct (Z.ltb (len d) length).
  { eexists. split; [reflexivity|]. split; [lia|]. discriminate. }
  set (n := Z.quot x2 2).
  assert (Hn : 0 <= n < 32768).
  { subst n. rewrite Z.quot_div_nonneg by lia. Z.div_mod_to_equations. lia. }
  rewrite make_zeros by lia. cbn [bind].
  set (u16 := fun e : Z => 0 <= e < 65536).
  destruct (read_entries_ok d n (fun v => v) u16 (repeat 0 (Z.to_nat n)) 14 Hd
              ltac:(lia) (len_zeros n ltac:(lia))
              (Forall_zeros u16 _ ltac:(unfold u16; lia))
              ltac:(unfold u16; auto) ltac:(lia))
    as (endCode & o1 & -> & HlE & HPE & Ho1).
  cbn [bind].
  destruct (read_entries_ok d n (fun v => v) u16 (repeat 0 (Z.to_nat n)) (o1 + 2) Hd
              ltac:(lia) (len_zeros n ltac:(lia))
              (Forall_zeros u16 _ ltac:(unfold u16; lia))
              ltac:(unfold u16; auto) ltac:(lia))
    as (startCode & o2 & -> & HlS & HPS & Ho2).
  cbn [bind].
  set (i16 := fun e : Z => - 32768 <= e < 32768).
  destruct (read_entries_ok d n to_int16 i16 (repeat 0 (Z.to_nat n)) o2 Hd
              ltac:(lia) (len_zeros n ltac:(lia))
              (Forall_zeros i16 _ ltac:(unfold i16; lia))
              to_int16_range ltac:(lia))
    as (idDelta & o3 & -> & HlD & HPD & Ho3).
  cbn [bind].
  destruct (read_entries_ok d n (fun v => v) u16 (repeat 0 (Z.to_nat n)) o3 Hd
              ltac:(lia) (len_zeros n ltac:(lia))
              (Forall_zeros u16 _ ltac:(unfold u16; lia))
              ltac:(unfold u16; auto) ltac:(lia))
    as (idRangeOffset & o4 & -> & HlR & HPR & Ho4).
  cbn [bind].
  destruct (idx_byte d 2 Hd ltac:(lia)) as (d2 & -> & _).
  destruct (idx_byte d 3 Hd ltac:(lia)) as (d3 & -> & _).
  cbn [bind].
  assert (Hglyphs : exists glyphs,
    (if Z.ltb 0 (length - o4 + Z.shiftl d2 8 + d3) && Z.ltb o4 (len d)
     then
       arr <- make 0 (Z.quot (len d - o4) 2) ;;
       r <- read_entries d (Z.quot (len d - o4) 2) (fun v => v) (arr, o4) ;;
       Some (fst r)
     else Some []) = Some glyphs /\ Forall u16 glyphs).
  { destruct (Z.ltb 0 (length - o4 + Z.shiftl d2 8 + d3)); cbn [andb];
      [|exists []; split; [reflexivity|constructor]].
    destruct (Z.ltb_spec o4 (len d)) as [Hin|Hout];
      [|exists []; split; [reflexivity|constructor]].
    assert (Hg : 0 <= Z.quot (len d - o4) 2)
      by (rewrite Z.quot_div_nonneg by lia; apply Z.div_pos; lia).
    rewrite make_zeros by lia. cbn [bind].
    destruct (read_entries_ok d (Z.quot (len d - o4) 2) (fun v => v) u16
                (repeat 0 (Z.to_nat (Z.quot (len d - o4) 2))) o4 Hd
                ltac:(lia) (len_zeros (Z.quot (len d - o4) 2) ltac:(lia))
                (Forall_zeros u16 _ ltac:(unfold u16; lia))
                ltac:(unfold u16; auto) ltac:(lia))
      as (glyphs & o5 & -> & _ & HPG & _).
    cbn [bind fst]. eauto. }
  destruct Hglyphs as (glyphs & -> & HPG). cbn [bind].
  eexists. split; [reflexivity|]. split; [lia|].
  intros c [= <-]. split; [lia|]. unfold parsed, entries16. cbn.
  repeat split; auto; lia.
Qed.

Lemma parseCmapFormat4_parsed_witness :
  parseCmapFormat4 format4_sample =
    Some (inl (mkCmapFormat4 1 [65535] [65535] [1] [0] [])) /\
  parsed (mkCmapFormat4 1 [65535] [65535] [1] [0] []).
Proof.
  destruct (parseCmapFormat4_parsed format4_sample
              ltac:(repeat constructor; unfold is_byte; lia))
    as (r & E & _ & H).
  assert (Er : r = inl (mkCmapFormat4 1 [65535] [65535] [1] [0] []))
    by (vm_compute in E; congruence).
  split; [rewrite E; now rewrite Er|].
  now destruct (H _ Er) as (_ & Hp & _).
Defined.

Lemma wrap16_range (x : Z) : 0 <= wrap16 x < 65536.
Proof. unfold wrap16. apply Z.mod_pos_bound. lia. Qed.

Lemma segment_glyph_total (c : CmapFormat4) (code mid : Z) :
  parsed c -> 0 <= mid < SegCount c ->
  exists g, segment_glyph c code mid = Some g /\ 0 <= g < 65536.
Proof.
  intros (_ & HlE & HlS & HlD & HlR & _) Hmid. unfold segment_glyph.
  destruct (idx_in_range (IDRangeOffset c) mid ltac:(lia)) as (ro & ->).
  destruct (idx_in_range (IDDelta c) mid ltac:(lia)) as (delta & Hdelta).
  destruct (idx_in_range (StartCode c) mid ltac:(lia)) as (start & ->).
  cbn [bind]. destruct (Z.eqb ro 0).
  { rewrite Hdelta. cbn [bind]. eexists. split; [reflexivity|apply wrap16_range]. }
  match goal with
  | |- context [if Z.leb 0 ?k && Z.ltb ?k _ then _ else _] => set (i := k)
  end.
  destruct (Z.leb_spec 0 i), (Z.ltb_spec i (len (GlyphIDArray c))); cbn [andb];
    try (exists 0; split; [reflexivity|lia]).
  destruct (idx_in_range (GlyphIDArray c) i ltac:(lia)) as (g & ->).
  cbn [bind]. destruct (Z.eqb g 0); cbn [negb];
    [exists 0; split; [reflexivity|lia]|].
  rewrite Hdelta. cbn [bind]. eexists. split; [reflexivity|apply wrap16_range].
Qed.

Lemma search_total (c : CmapFormat4) (code lo hi : Z) :
  parsed c -> 0 <= lo -> hi < SegCount c ->
  exists g, search c code lo hi = Some g /\ 0 <= g < 65536.
Proof.
  intros Hparsed. pose proof Hparsed as (_ & HlE & HlS & _).
  funelim (search c code lo hi); intros Hlo Hhi;
    try (exists 0; split; [reflexivity|lia]);
    pose proof (quot2_between lo hi Hle) as Hq;
    set (mid := Z.quot (lo + hi) 2) in *.
  - exfalso. destruct (idx_in_range (EndCode c) mid ltac:(lia)). congruence.
  - match goal with
    | IH : forall _, _ |- _ => apply IH; auto; lia
    end.
  - exfalso. destruct (idx_in_range (StartCode c) mid ltac:(lia)). congruence.
  - match goal with
    | IH : forall _, _ |- _ => apply IH; auto; lia
    end.
  - apply segment_glyph_total; [assumption|lia].
Qed.

(** The format 4 lookup does not panic on a parsed table, sorted or not,
    whatever the rune: it returns a 16-bit glyph index, and 0 for a rune
    above the Basic Multilingual Plane. *)
Theorem GetGlyphID_total (c : CmapFormat4) (r : Z) :
  parsed c ->
  exists g, GetGlyphID c r = Some g /\ 0 <= g < 65536 /\ (65535 < r -> g = 0).
Proof.
  intros Hparsed. unfold GetGlyphID.
  destruct (Z.ltb_spec 65535 r) as [Hbig|Hbmp].
  - exists 0. repeat split; auto; lia.
  - destruct (search_total c (wrap16 r) 0 (SegCount c - 1) Hparsed ltac:(lia) ltac:(lia))
      as (g & E & Hg).
    exists g. repeat split; auto; lia.
Qed.

(** An unsorted table: the search misses the segment of 70 and returns 0. *)
Lemma GetGlyphID_total_witness :
  GetGlyphID (mkCmapFormat4 2 [90; 70] [80; 65] [0; 0] [0; 0] []) 70 = Some 0.
Proof.
  destruct (GetGlyphID_total (mkCmapFormat4 2 [90; 70] [80; 65] [0; 0] [0; 0] []) 70)
    as (g & E & _).
  - unfold parsed, len. simpl. repeat split; try lia. repeat constructor; lia.
  - rewrite E. vm_compute in E. congruence.
Defined.

(** *** Format 6 *)

(** [parseCmapFormat6] does not panic: it fails on less than 10 bytes and
    otherwise returns a table with [EntryCount] glyph indices, all 16-bit
    numbers. *)
Theorem parseCmapFormat6_parsed (d : list Z) :
  Forall is_byte d ->
  exists r,
    parseCmapFormat6 d = Some r /\
    (len d < 10 -> r = inr "format 6 subtable too short"%string) /\
    (10 <= len d -> exists c, r = inl c /\ parsed6 c).
Proof.
  intros Hd. unfold parseCmapFormat6.
  destruct (Z.ltb_spec (len d) 10) as [Hshort|Hlong].
  { eexists. split; [reflexivity|]. split; [reflexivity|lia]. }
  destruct (Uint16_range d 6 Hd ltac:(lia) ltac:(lia)) as (first & -> & Hfirst).
  destruct (Uint16_range d 8 Hd ltac:(lia) ltac:(lia)) as (count & -> & Hcount).
  cbn [bind]. rewrite make_zeros by lia. cbn [bind].
  set (u16 := fun e : Z => 0 <= e < 65536).
  destruct (read_entries_ok d count (fun v => v) u16 (repeat 0 (Z.to_nat count)) 10 Hd
              ltac:(lia) (len_zeros count ltac:(lia))
              (Forall_zeros u16 _ ltac:(unfold u16; lia))
              ltac:(unfold u16; auto) ltac:(lia))
    as (glyphs & o & -> & Hl & HP & _).
  cbn [bind fst]. eexists. split; [reflexivity|]. split; [lia|].
  intros _. eexists. split; [reflexivity|]. unfold parsed6. cbn. auto.
Qed.

Lemma parseCmapFormat6_parsed_witness :
  parseCmapFormat6 [0; 6; 0; 14; 0; 0; 0; 65; 0; 3; 0; 7; 0; 9] =
  Some (inl (mkCmapFormat6 65 3 [7; 9; 0])).
Proof.
  destruct (parseCmapFormat6_parsed [0; 6; 0; 14; 0; 0; 0; 65; 0; 3; 0; 7; 0; 9]
              ltac:(repeat constructor; unfold is_byte; lia))
    as (r & E & _). rewrite E. vm_compute in E. congruence.
Defined.

(** The format 6 lookup on a parsed table and a code [r] of the Basic
    Multilingual Plane.  When [FirstCode + EntryCount] is below 65536, a
    code in the range of the table gives its entry and every other code
    gives 0.  When the sum reaches 65536 it wraps around as a [uint16], and
    every code gives 0.  The lookup does not panic. *)
Theorem GetGlyphID6_range (c : CmapFormat6) (r : Z) :
  parsed6 c -> 0 <= r <= 65535 ->
  (FirstCode c + EntryCount c < 65536 ->
   if Z.leb (FirstCode c) r && Z.ltb r (FirstCode c + EntryCount c)
   then GetGlyphID6 c r = idx (GlyphIDs c) (r - FirstCode c) /\
        exists g, GetGlyphID6 c r = Some g /\ 0 <= g < 65536
   else GetGlyphID6 c r = Some 0) /\
  (65536 <= FirstCode c + EntryCount c -> GetGlyphID6 c r = Some 0).
Proof.
  intros (Hfirst & Hcount & Hl & HP) Hr. unfold GetGlyphID6.
  replace (Z.ltb 65535 r) with false by (symmetry; apply Z.ltb_ge; lia).
  rewrite (wrap16_small r) by lia. split.
  - intros Hsum. rewrite (wrap16_small (FirstCode c + EntryCount c)) by lia.
    destruct (Z.leb_spec (FirstCode c) r), (Z.ltb_spec r (FirstCode c + EntryCount c));
      cbn [andb].
    + replace (Z.ltb r (FirstCode c)) with false by (symmetry; apply Z.ltb_ge; lia).
      replace (Z.leb (FirstCode c + EntryCount c) r) with false
        by (symmetry; apply Z.leb_gt; lia).
      cbn [orb]. rewrite wrap16_small by lia. split; [reflexivity|].
      destruct (idx_in_range (GlyphIDs c) (r - FirstCode c) ltac:(lia)) as (g & Hg).
      exists g. split; [exact Hg|].
      rewrite Forall_forall in HP. apply HP.
      unfold idx in Hg. destruct (Z.ltb (r - FirstCode c) 0); [discriminate|].
      eapply nth_error_In; eassumption.
    + replace (Z.leb (FirstCode c + EntryCount c) r) with true
        by (symmetry; apply Z.leb_le; lia).
      now rewrite orb_true_r.
    + now replace (Z.ltb r (FirstCode c)) with true by (symmetry; apply Z.ltb_lt; lia).
    + now replace (Z.ltb r (FirstCode c)) with true by (symmetry; apply Z.ltb_lt; lia).
  - intros Hwrap.
    assert (E : wrap16 (FirstCode c + EntryCount c) = FirstCode c + EntryCount c - 65536).
    { unfold wrap16. symmetry. apply Z.mod_unique_pos with (q := 1); lia. }
    rewrite E.
    destruct (Z.ltb_spec r (FirstCode c)); [reflexivity|].
    now replace (Z.leb (FirstCode c + EntryCount c - 65536) r) with true
      by (symmetry; apply Z.leb_le; lia).
Qed.

Lemma GetGlyphID6_range_witness :
  GetGlyphID6 (mkCmapFormat6 65 3 [7; 9; 0]) 66 = Some 9 /\
  GetGlyphID6 (mkCmapFormat6 65534 2 [7; 9]) 65535 = Some 0.
Proof.
  split.
  - destruct (GetGlyphID6_range (mkCmapFormat6 65 3 [7; 9; 0]) 66) as [H _].
    + unfold parsed6, len. simpl. repeat split; try lia. repeat constructor; lia.
    + lia.
    + specialize (H ltac:(simpl; lia)). simpl in H. destruct H as [H _].
      rewrite H. reflexivity.
  - destruct (GetGlyphID6_range (mkCmapFormat6 65534 2 [7; 9]) 65535) as [_ H].
    + unfold parsed6, len. simpl. repeat split; try lia. repeat constructor; lia.
    + lia.
    + apply H. simpl. lia.
Defined.

(** *** Format 12 *)

Lemma search12_total (groups : list CmapGroup) (code lo hi : Z) :
  0 <= lo -> hi < len groups ->
  exists g, search12 groups code lo hi = Some g /\ 0 <= g < 65536.
Proof.
  funelim (search12 groups code lo hi); intros Hlo Hhi;
    try (exists 0; split; [reflexivity|lia]);
    pose proof (quot2_between lo hi Hle) as Hq;
    set (mid := Z.quot (lo + hi) 2) in *.
  - exfalso. destruct (idx_in_range groups mid ltac:(lia)). congruence.
  - match goal with
    | IH : forall _, _ |- _ => apply IH; auto; lia
    end.
  - match goal with
    | IH : forall _, _ |- _ => apply IH; auto; lia
    end.
  - eexists. split; [reflexivity|]. apply wrap16_range.
Qed.

Section OrderedGroups.

Variables (groups : list CmapGroup) (code t : Z) (gt : CmapGroup).
Hypothesis Hordered : ordered12 groups.
Hypothesis Hgt : idx groups t = Some gt.
Hypothesis Hholds : StartCharCode gt <= code <= EndCharCode gt.

Lemma search12_finds (lo hi : Z) :
  0 <= lo -> hi < len groups -> lo <= t <= hi ->
  search12 groups code lo hi = Some (group_glyph gt code).
Proof.
  destruct Hordered as (Hse & Hes).
  pose proof (idx_Some_lt _ _ _ Hgt) as Ht.
  funelim (search12 groups code lo hi); intros Hlo Hhi Hrange; try lia;
    pose proof (quot2_between lo hi Hle) as Hq;
    set (mid := Z.quot (lo + hi) 2) in *;
    repeat match goal with
           | H : Z.ltb _ _ = true |- _ => apply Z.ltb_lt in H
           | H : Z.ltb _ _ = false |- _ => apply Z.ltb_ge in H
           end.
  - exfalso. destruct (idx_in_range groups mid ltac:(lia)). congruence.
  - match goal with
    | IH : forall _, _ |- _ => apply IH; auto; try lia
    end.
    destruct (Z.lt_trichotomy mid t) as [Hc1|[Hc2|Hc3]]; [lia| |].
    + subst t. match goal with
      | Hg : idx groups mid = Some ?g |- _ => rewrite Hg in Hgt; injection Hgt as <-
      end. lia.
    + match goal with
      | Hg : idx groups mid = Some ?g |- _ =>
          pose proof (Hes t mid gt g ltac:(lia) ltac:(lia) Hgt Hg);
          pose proof (Hse mid g Hg)
      end. lia.
  - match goal with
    | IH : forall _, _ |- _ => apply IH; auto; try lia
    end.
    destruct (Z.lt_trichotomy t mid) as [Hc1|[Hc2|Hc3]]; [lia| |].
    + subst t. match goal with
      | Hg : idx groups mid = Some ?g |- _ => rewrite Hg in Hgt; injection Hgt as <-
      end. lia.
    + match goal with
      | Hg : idx groups mid = Some ?g |- _ =>
          pose proof (Hes mid t g gt ltac:(lia) ltac:(lia) Hg Hgt);
          pose proof (Hse mid g Hg)
      end. lia.
  - f_equal. f_equal.
    destruct (Z.lt_trichotomy mid t) as [Hc1|[Hc2|Hc3]].
    + match goal with
      | Hg : idx groups mid = Some ?g |- _ =>
          pose proof (Hes mid t g gt ltac:(lia) ltac:(lia) Hg Hgt)
      end. lia.
    + subst t. congruence.
    + match goal with
      | Hg : idx groups mid = Some ?g |- _ =>
          pose proof (Hes t mid gt g ltac:(lia) ltac:(lia) Hgt Hg)
      end. lia.
Qed.

End OrderedGroups.

Lemma search12_none (groups : list CmapGroup) (code lo hi : Z) :
  0 <= lo -> hi < len groups ->
  (forall m g, lo <= m <= hi -> idx groups m = Some g ->
     ~ StartCharCode g <= code <= EndCharCode g) ->
  search12 groups code lo hi = Some 0.
Proof.
  funelim (search12 groups code lo hi); intros Hlo Hhi Hnone; try reflexivity;
    pose proof (quot2_between lo hi Hle) as Hq;
    set (mid := Z.quot (lo + hi) 2) in *;
    repeat match goal with
           | H : Z.ltb _ _ = true |- _ => apply Z.ltb_lt in H
           | H : Z.ltb _ _ = false |- _ => apply Z.ltb_ge in H
           end.
  - exfalso. destruct (idx_in_range groups mid ltac:(lia)). congruence.
  - match goal with
    | IH : forall _, _ |- _ => apply IH; auto; try lia
    end.
    intros m g Hm. apply Hnone. lia.
  - match goal with
    | IH : forall _, _ |- _ => apply IH; auto; try lia
    end.
    intros m g Hm. apply Hnone. lia.
  - exfalso.
    match goal with
    | Hg : idx groups mid = Some ?g |- _ => apply (Hnone mid g ltac:(lia) Hg)
    end. lia.
Qed.

(** The format 12 lookup does not panic, whatever the groups and the rune.
    When the groups are sorted and do not overlap, a code that a group holds
    gives the start glyph of the group plus the offset of the code in the
    group, cut to 16 bits, and a code that no group holds gives 0. *)
Theorem GetGlyphID12_groups (groups : list CmapGroup) (r : Z) :
  (exists g, GetGlyphID12 groups r = Some g /\ 0 <= g < 65536) /\
  (ordered12 groups ->
   (forall t group,
      idx groups t = Some group ->
      StartCharCode group <= uint32 r <= EndCharCode group ->
      GetGlyphID12 groups r =
      Some ((StartGlyphID group + (uint32 r - StartCharCode group)) mod 65536)) /\
   ((forall t group, idx groups t = Some group ->
       ~ StartCharCode group <= uint32 r <= EndCharCode group) ->
    GetGlyphID12 groups r = Some 0)).
Proof.
  unfold GetGlyphID12. split; [|intros Hordered; split].
  - apply search12_total; lia.
  - intros t group Hgroup Hholds.
    pose proof (idx_Some_lt _ _ _ Hgroup) as Ht.
    rewrite (search12_finds groups (uint32 r) t group Hordered Hgroup Hholds)
      by lia.
    f_equal. unfold group_glyph. generalize (uint32 r). intros code.
    unfold wrap16, uint32. change (2 ^ 32) with 4294967296.
    Z.div_mod_to_equations. lia.
  - intros Hnone. apply search12_none; try lia.
    intros m g _. apply Hnone.
Qed.

Lemma GetGlyphID12_groups_witness :
  GetGlyphID12 [mkCmapGroup 65 90 1; mkCmapGroup 131072 131080 70000] 131075 =
  Some ((70000 + (131075 - 131072)) mod 65536).
Proof.
  destruct (GetGlyphID12_groups
              [mkCmapGroup 65 90 1; mkCmapGroup 131072 131080 70000] 131075)
    as [_ H].
  destruct H as [H _].
  - split.
    + intros i g Hg. pose proof (idx_Some_lt _ _ _ Hg) as Hi.
      unfold len in Hi; simpl in Hi.
      assert (Hc : i = 0 \/ i = 1) by lia.
      destruct Hc as [-> | ->]; vm_compute in Hg; injection Hg as <-; simpl; lia.
    + intros i j gi gj Hi Hij Hgi Hgj.
      pose proof (idx_Some_lt _ _ _ Hgj) as Hj. unfold len in Hj; simpl in Hj.
      assert (Hc : i = 0 /\ j = 1) by lia. destruct Hc as [-> ->].
      vm_compute in Hgi, Hgj. injection Hgi as <-. injection Hgj as <-. simpl; lia.
  - apply (H 1 (mkCmapGroup 131072 131080 70000)); [reflexivity|].
    vm_compute. split; discriminate.
Defined.

(** *** The subtable that is parsed *)

Lemma priority_range (st : CmapSubtable) : 0 <= priority st <= 13.
Proof.
  unfold priority.
  destruct (Z.eqb (PlatformID st) 0);
    [|destruct (Z.eqb (PlatformID st) 3 && _);
      [|destruct (Z.eqb (PlatformID st) 1 && _)]];
    cbn; destruct (Z.eqb (Format st) 12); cbn; lia.
Qed.

Lemma best_loop_first_maximal (subtables : list CmapSubtable) :
  forall best bestPriority st,
  best_loop subtables best bestPriority = Some st ->
  (best = Some st /\
   Forall (fun s => priority s <= bestPriority) subtables) \/
  (exists before after,
     subtables = before ++ st :: after /\
     bestPriority < priority st /\
     Forall (fun s => priority s < priority st) before /\
     Forall (fun s => priority s <= priority st) after).
Proof.
  induction subtables as [|s subtables IH]; intros best bestPriority st E;
    cbn [best_loop] in E.
  - left. split; [exact E | constructor].
  - destruct (Z.ltb_spec bestPriority (priority s)) as [Hlt|Hge].
    + right. destruct (IH _ _ _ E) as [[Hs Hall]|(before & after & -> & Hp & Hb & Ha)].
      * injection Hs as ->. exists [], subtables. repeat split; auto.
      * exists (s :: before), after. repeat split; [lia | | exact Ha].
        constructor; [lia | exact Hb].
    + destruct (IH _ _ _ E) as [[Hs Hall]|(before & after & -> & Hp & Hb & Ha)].
      * left. split; [exact Hs|]. constructor; [lia | exact Hall].
      * right. exists (s :: before), after. repeat split; [lia | | exact Ha].
        constructor; [lia | exact Hb].
Qed.

Lemma best_loop_started (subtables : list CmapSubtable) :
  forall st bestPriority, best_loop subtables (Some st) bestPriority <> None.
Proof.
  induction subtables as [|s subtables IH]; intros st p; cbn [best_loop];
    [discriminate|].
  destruct (Z.ltb p (priority s)); apply IH.
Qed.

(** The subtable that [parseCmap] parses is the first one of the highest
    priority: every subtable before it has a lower priority and none after
    it has a higher one.  A subtable of priority 0 is chosen when nothing
    better is listed, so the error of no suitable subtable is returned for
    the empty list of subtables only. *)
Theorem parseCmap_selects_first_best (subtables : list CmapSubtable) :
  (selected subtables = inr "no suitable cmap subtable found"%string <->
   subtables = []) /\
  (forall st, selected subtables = inl st ->
     exists before after,
       subtables = before ++ st :: after /\
       Forall (fun s => priority s < priority st) before /\
       Forall (fun s => priority s <= priority st) after).
Proof.
  assert (Hsome : forall st, bestSubtable subtables = Some st ->
            exists before after,
              subtables = before ++ st :: after /\
              Forall (fun s => priority s < priority st) before /\
              Forall (fun s => priority s <= priority st) after).
  { intros st E. unfold bestSubtable in E.
    destruct (best_loop_first_maximal _ _ _ _ E)
      as [[Hs _]|(before & after & Hsplit & _ & Hb & Ha)]; [discriminate|].
    exists before, after. auto. }
  unfold selected. split.
  - split.
    + destruct subtables as [|s subtables]; [reflexivity|].
      intros E. exfalso. unfold bestSubtable in *. cbn [best_loop] in *.
      pose proof (priority_range s) as Hs.
      destruct (Z.ltb_spec (-1) (priority s)) as [_|Hge]; [|lia].
      destruct (best_loop subtables (Some s) (priority s)) as [st|] eqn:Eb;
        [discriminate|].
      exact (best_loop_started _ _ _ Eb).
    + intros ->. reflexivity.
  - intros st E. apply Hsome.
    destruct (bestSubtable subtables); [congruence | discriminate].
Qed.

(** A font with a Macintosh subtable, a Windows subtable of format 4, a
    Unicode subtable of format 4 and a Windows subtable of format 12. *)
Definition four_subtables : list CmapSubtable :=
  [mkCmapSubtable 1 0 44 0; mkCmapSubtable 3 1 306 4;
   mkCmapSubtable 0 3 306 4; mkCmapSubtable 3 10 1024 12].

Lemma parseCmap_selects_first_best_witness :
  exists before after,
    four_subtables = before ++ mkCmapSubtable 3 10 1024 12 :: after /\
    Forall (fun s => priority s < priority (mkCmapSubtable 3 10 1024 12)) before /\
    Forall (fun s => priority s <= priority (mkCmapSubtable 3 10 1024 12)) after.
Proof.
  apply (proj2 (parseCmap_selects_first_best four_subtables)
           (mkCmapSubtable 3 10 1024 12)).
  reflexivity.
Defined.

End Cmap.

(** * pkg/graphics *)

Module Graphics.

Local Open Scope string_scope.
Local Open Scope list_scope.
Local Open Scope Z_scope.

(** ** Matrices (state.go) *)

(** The arithmetic a matrix is computed with.  The interpreter computes with
    [float64] ([float64_arith]); the integers ([Z_arith]) give the exact
    reading of the same formulas. *)
Class Arith (F : Type) := {
  zero : F;
  one : F;
  add : F -> F -> F;
  mul : F -> F -> F
}.

#[export] Instance float64_arith : Arith float := {|
  zero := 0%float;
  one := 1%float;
  add := PrimFloat.add;
  mul := PrimFloat.mul
|}.

#[export] Instance Z_arith : Arith Z := {|
  zero := 0;
  one := 1;
  add := Z.add;
  mul := Z.mul
|}.

(** [type Matrix [6]float64]: the rows [A B 0], [C D 0], [E F 1]. *)
Record Matrix (F : Type) := mkMatrix {
  m0 : F; m1 : F; m2 : F; m3 : F; m4 : F; m5 : F
}.
Arguments mkMatrix {F}.
Arguments m0 {F}. Arguments m1 {F}. Arguments m2 {F}.
Arguments m3 {F}. Arguments m4 {F}. Arguments m5 {F}.

Section MatrixOps.

Context {F : Type} `{Arith F}.

Definition Identity : Matrix F := mkMatrix one zero zero one zero zero.

Definition Translate (tx ty : F) : Matrix F := mkMatrix one zero zero one tx ty.

Definition Scale (sx sy : F) : Matrix F := mkMatrix sx zero zero sy zero zero.

(** [Multiply]: result = m * other. *)
Definition Multiply (m other : Matrix F) : Matrix F :=
  mkMatrix
    (add (mul (m0 m) (m0 other)) (mul (m1 m) (m2 other)))
    (add (mul (m0 m) (m1 other)) (mul (m1 m) (m3 other)))
    (add (mul (m2 m) (m0 other)) (mul (m3 m) (m2 other)))
    (add (mul (m2 m) (m1 other)) (mul (m3 m) (m3 other)))
    (add (add (mul (m4 m) (m0 other)) (mul (m5 m) (m2 other))) (m4 other))
    (add (add (mul (m4 m) (m1 other)) (mul (m5 m) (m3 other))) (m5 other)).

(** [Concat]: m = other * m. *)
Definition Concat (m other : Matrix F) : Matrix F := Multiply other m.

(** [Transform]: the matrix applied to the point [(x, y)]. *)
Definition Transform (m : Matrix F) (x y : F) : F * F :=
  (add (add (mul (m0 m) x) (mul (m2 m) y)) (m4 m),
   add (add (mul (m1 m) x) (mul (m3 m) y)) (m5 m)).

End MatrixOps.

(** ** Paths (path.go) *)

Record Point := mkPoint { X : float; Y : float }.

Definition Point_zero : Point := mkPoint 0%float 0%float.

Definition TransformPoint (m : Matrix float) (p : Point) : Point :=
  let '(x, y) := Transform m (X p) (Y p) in mkPoint x y.

Inductive PathOp := PathOpMoveTo | PathOpLineTo | PathOpCurveTo | PathOpClose.

Record PathSegment := mkPathSegment { Op : PathOp; Points : list Point }.

Record Path := mkPath {
  Segments : list PathSegment;
  current : Point;
  start : Point
}.

Definition NewPath : Path := mkPath [] Point_zero Point_zero.

(** [Path.Clone]: fresh slices of the same lengths, filled by [copy]. *)
Definition Path_Clone (p : Path) : Path :=
  mkPath
    (map (fun seg =>
            mkPathSegment (Op seg)
              (copy (repeat Point_zero (length (Points seg))) (Points seg)))
         (Segments p))
    (current p) (start p).

Definition MoveTo (p : Path) (x y : float) : Path :=
  let pt := mkPoint x y in
  mkPath (Segments p ++ [mkPathSegment PathOpMoveTo [pt]]) pt pt.

Definition LineTo (p : Path) (x y : float) : Path :=
  let pt := mkPoint x y in
  mkPath (Segments p ++ [mkPathSegment PathOpLineTo [pt]]) pt (start p).

Definition CurveTo (p : Path) (cp1x cp1y cp2x cp2y endX endY : float) : Path :=
  mkPath
    (Segments p ++
     [mkPathSegment PathOpCurveTo
        [mkPoint cp1x cp1y; mkPoint cp2x cp2y; mkPoint endX endY]])
    (mkPoint endX endY) (start p).

Definition CurveToV (p : Path) (cp2x cp2y endX endY : float) : Path :=
  CurveTo p (X (current p)) (Y (current p)) cp2x cp2y endX endY.

Definition CurveToY (p : Path) (cp1x cp1y endX endY : float) : Path :=
  CurveTo p cp1x cp1y endX endY endX endY.

Definition Close (p : Path) : Path :=
  mkPath (Segments p ++ [mkPathSegment PathOpClose []]) (start p) (start p).

Definition Rect (p : Path) (x y width height : float) : Path :=
  let p := MoveTo p x y in
  let p := LineTo p (x + width)%float y in
  let p := LineTo p (x + width)%float (y + height)%float in
  let p := LineTo p x (y + height)%float in
  Close p.

Definition Clear (p : Path) : Path := mkPath [] Point_zero Point_zero.

Definition Path_Transform (p : Path) (m : Matrix float) : Path :=
  let segs :=
    map (fun seg => mkPathSegment (Op seg) (map (TransformPoint m) (Points seg)))
        (Segments p) in
  match Segments p with
  | [] => mkPath segs Point_zero Point_zero
  | _ :: _ => mkPath segs (TransformPoint m (current p)) (TransformPoint m (start p))
  end.

Inductive FillRule := FillRuleNonZero | FillRuleEvenOdd.

(** ** Colors *)

Definition ColorSpace := string.

Definition ColorSpaceDeviceGray : ColorSpace := "DeviceGray".
Definition ColorSpaceDeviceRGB : ColorSpace := "DeviceRGB".
Definition ColorSpaceCMYK : ColorSpace := "DeviceCMYK".

Record Color := mkColor { Space : ColorSpace; Components : list float }.

Definition clamp (v min max : float) : float :=
  if PrimFloat.ltb v min then min
  else if PrimFloat.ltb max v then max
  else v.

Definition NewGray (gray : float) : Color :=
  mkColor ColorSpaceDeviceGray [clamp gray 0 1].

Definition NewRGB (r g b : float) : Color :=
  mkColor ColorSpaceDeviceRGB [clamp r 0 1; clamp g 0 1; clamp b 0 1].

Definition NewCMYK (c m y k : float) : Color :=
  mkColor ColorSpaceCMYK [clamp c 0 1; clamp m 0 1; clamp y 0 1; clamp k 0 1].

Definition Black : Color := NewGray 0.

(** ** The graphics state (state.go) *)

Record TextState := mkTextState {
  CharSpace : float;
  WordSpace : float;
  HScale : float;
  Leading : float;
  FontName : string;
  FontSize : float;
  RenderMode : Z;
  Rise : float;
  TextMatrix : Matrix float;
  LineMatrix : Matrix float
}.

(** [ClipPath] and [DashPattern] are [None] for Go's [nil]. *)
Record State := mkState {
  CTM : Matrix float;
  ClipPath : option Path;
  StrokeColor : Color;
  FillColor : Color;
  StrokeColorSpace : ColorSpace;
  FillColorSpace : ColorSpace;
  LineWidth : float;
  LineCap : Z;
  LineJoin : Z;
  MiterLimit : float;
  DashPattern : option (list float);
  DashPhase : float;
  TextState_ : TextState;
  StrokeAlpha : float;
  FillAlpha : float;
  BlendMode : string;
  RenderingIntent : string;
  Flatness : float;
  Smoothness : float
}.

Definition NewState : State := {|
  CTM := Identity;
  ClipPath := None;
  StrokeColor := Black;
  FillColor := Black;
  StrokeColorSpace := ColorSpaceDeviceGray;
  FillColorSpace := ColorSpaceDeviceGray;
  LineWidth := 1;
  LineCap := 0;
  LineJoin := 0;
  MiterLimit := 10;
  DashPattern := None;
  DashPhase := 0;
  TextState_ := {|
    CharSpace := 0; WordSpace := 0; HScale := 100; Leading := 0;
    FontName := ""; FontSize := 0; RenderMode := 0; Rise := 0;
    TextMatrix := Identity; LineMatrix := Identity |};
  StrokeAlpha := 1;
  FillAlpha := 1;
  BlendMode := "Normal";
  RenderingIntent := "RelativeColorimetric";
  Flatness := 1;
  Smoothness := 0
|}.

(** [State.Clone]: a copy of the struct, with a fresh dash pattern and a
    cloned clip path when they are not [nil]. *)
Definition State_Clone (s : State) : State := {|
  CTM := CTM s;
  ClipPath := match ClipPath s with
              | Some p => Some (Path_Clone p)
              | None => None
              end;
  StrokeColor := StrokeColor s;
  FillColor := FillColor s;
  StrokeColorSpace := StrokeColorSpace s;
  FillColorSpace := FillColorSpace s;
  LineWidth := LineWidth s;
  LineCap := LineCap s;
  LineJoin := LineJoin s;
  MiterLimit := MiterLimit s;
  DashPattern := match DashPattern s with
                 | Some d => Some (copy (repeat 0%float (length d)) d)
                 | None => None
                 end;
  DashPhase := DashPhase s;
  TextState_ := TextState_ s;
  StrokeAlpha := StrokeAlpha s;
  FillAlpha := FillAlpha s;
  BlendMode := BlendMode s;
  RenderingIntent := RenderingIntent s;
  Flatness := Flatness s;
  Smoothness := Smoothness s
|}.

(** ** The state stack: [states []*State], the current state last *)

Definition StateStack := list State.

Definition NewStateStack : StateStack := [NewState].

(** [Current] appends a new state to an empty stack; [ensure] is that
    effect and [top] the state returned. *)
Definition ensure (s : StateStack) : StateStack :=
  match s with [] => [NewState] | _ :: _ => s end.

Definition top (s : StateStack) : State := last s NewState.

Definition Current (s : StateStack) : StateStack * State :=
  (ensure s, top (ensure s)).

Definition Push (s : StateStack) : StateStack :=
  let '(s, current) := Current s in
  s ++ [State_Clone current].

Definition Pop (s : StateStack) : StateStack :=
  if Nat.ltb 1 (length s) then removelast s else s.

Definition Depth (s : StateStack) : Z := len s.

(** *** Field assignments *)

Definition set_CTM (s : State) v : State :=
  {| CTM := v; ClipPath := ClipPath s; StrokeColor := StrokeColor s; FillColor
     := FillColor s; StrokeColorSpace := StrokeColorSpace s; FillColorSpace :=
     FillColorSpace s; LineWidth := LineWidth s; LineCap := LineCap s;
     LineJoin := LineJoin s; MiterLimit := MiterLimit s; DashPattern :=
     DashPattern s; DashPhase := DashPhase s; TextState_ := TextState_ s;
     StrokeAlpha := StrokeAlpha s; FillAlpha := FillAlpha s; BlendMode :=
     BlendMode s; RenderingIntent := RenderingIntent s; Flatness := Flatness
     s; Smoothness := Smoothness s |}.

Definition set_ClipPath (s : State) v : State :=
  {| CTM := CTM s; ClipPath := v; StrokeColor := StrokeColor s; FillColor :=
     FillColor s; StrokeColorSpace := StrokeColorSpace s; FillColorSpace :=
     FillColorSpace s; LineWidth := LineWidth s; LineCap := LineCap s;
     LineJoin := LineJoin s; MiterLimit := MiterLimit s; DashPattern :=
     DashPattern s; DashPhase := DashPhase s; TextState_ := TextState_ s;
     StrokeAlpha := StrokeAlpha s; FillAlpha := FillAlpha s; BlendMode :=
     BlendMode s; RenderingIntent := RenderingIntent s; Flatness := Flatness
     s; Smoothness := Smoothness s |}.

Definition set_StrokeColor (s : State) v : State :=
  {| CTM := CTM s; ClipPath := ClipPath s; StrokeColor := v; FillColor :=
     FillColor s; StrokeColorSpace := StrokeColorSpace s; FillColorSpace :=
     FillColorSpace s; LineWidth := LineWidth s; LineCap := LineCap s;
     LineJoin := LineJoin s; MiterLimit := MiterLimit s; DashPattern :=
     DashPattern s; DashPhase := DashPhase s; TextState_ := TextState_ s;
     StrokeAlpha := StrokeAlpha s; FillAlpha := FillAlpha s; BlendMode :=
     BlendMode s; RenderingIntent := RenderingIntent s; Flatness := Flatness
     s; Smoothness := Smoothness s |}.

Definition set_FillColor (s : State) v : State :=
  {| CTM := CTM s; ClipPath := ClipPath s; StrokeColor := StrokeColor s;
     FillColor := v; StrokeColorSpace := StrokeColorSpace s; FillColorSpace :=
     FillColorSpace s; LineWidth := LineWidth s; LineCap := LineCap s;
     LineJoin := LineJoin s; MiterLimit := MiterLimit s; DashPattern :=
     DashPattern s; DashPhase := DashPhase s; TextState_ := TextState_ s;
     StrokeAlpha := StrokeAlpha s; FillAlpha := FillAlpha s; BlendMode :=
     BlendMode s; RenderingIntent := RenderingIntent s; Flatness := Flatness
     s; Smoothness := Smoothness s |}.

Definition set_StrokeColorSpace (s : State) v : State :=
  {| CTM := CTM s; ClipPath := ClipPath s; StrokeColor := StrokeColor s;
     FillColor := FillColor s; StrokeColorSpace := v; FillColorSpace :=
     FillColorSpace s; LineWidth := LineWidth s; LineCap := LineCap s;
     LineJoin := LineJoin s; MiterLimit := MiterLimit s; DashPattern :=
     DashPattern s; DashPhase := DashPhase s; TextState_ := TextState_ s;
     StrokeAlpha := StrokeAlpha s; FillAlpha := FillAlpha s; BlendMode :=
     BlendMode s; RenderingIntent := RenderingIntent s; Flatness := Flatness
     s; Smoothness := Smoothness s |}.

Definition set_FillColorSpace (s : State) v : State :=
  {| CTM := CTM s; ClipPath := ClipPath s; StrokeColor := StrokeColor s;
     FillColor := FillColor s; StrokeColorSpace := StrokeColorSpace s;
     FillColorSpace := v; LineWidth := LineWidth s; LineCap := LineCap s;
     LineJoin := LineJoin s; MiterLimit := MiterLimit s; DashPattern :=
     DashPattern s; DashPhase := DashPhase s; TextState_ := TextState_ s;
     StrokeAlpha := StrokeAlpha s; FillAlpha := FillAlpha s; BlendMode :=
     BlendMode s; RenderingIntent := RenderingIntent s; Flatness := Flatness
     s; Smoothness := Smoothness s |}.

Definition set_LineWidth (s : State) v : State :=
  {| CTM := CTM s; ClipPath := ClipPath s; StrokeColor := StrokeColor s;
     FillColor := FillColor s; StrokeColorSpace := StrokeColorSpace s;
     FillColorSpace := FillColorSpace s; LineWidth := v; LineCap := LineCap s;
     LineJoin := LineJoin s; MiterLimit := MiterLimit s; DashPattern :=
     DashPattern s; DashPhase := DashPhase s; TextState_ := TextState_ s;
     StrokeAlpha := StrokeAlpha s; FillAlpha := FillAlpha s; BlendMode :=
     BlendMode s; RenderingIntent := RenderingIntent s; Flatness := Flatness
     s; Smoothness := Smoothness s |}.

Definition set_LineCap (s : State) v : State :=
  {| CTM := CTM s; ClipPath := ClipPath s; StrokeColor := StrokeColor s;
     FillColor := FillColor s; StrokeColorSpace := StrokeColorSpace s;
     FillColorSpace := FillColorSpace s; LineWidth := LineWidth s; LineCap :=
     v; LineJoin := LineJoin s; MiterLimit := MiterLimit s; DashPattern :=
     DashPattern s; DashPhase := DashPhase s; TextState_ := TextState_ s;
     StrokeAlpha := StrokeAlpha s; FillAlpha := FillAlpha s; BlendMode :=
     BlendMode s; RenderingIntent := RenderingIntent s; Flatness := Flatness
     s; Smoothness := Smoothness s |}.

Definition set_LineJoin (s : State) v : State :=
  {| CTM := CTM s; ClipPath := ClipPath s; StrokeColor := StrokeColor s;
     FillColor := FillColor s; StrokeColorSpace := StrokeColorSpace s;
     FillColorSpace := FillColorSpace s; LineWidth := LineWidth s; LineCap :=
     LineCap s; LineJoin := v; MiterLimit := MiterLimit s; DashPattern :=
     DashPattern s; DashPhase := DashPhase s; TextState_ := TextState_ s;
     StrokeAlpha := StrokeAlpha s; FillAlpha := FillAlpha s; BlendMode :=
     BlendMode s; RenderingIntent := RenderingIntent s; Flatness := Flatness
     s; Smoothness := Smoothness s |}.

Definition set_MiterLimit (s : State) v : State :=
  {| CTM := CTM s; ClipPath := ClipPath s; StrokeColor := StrokeColor s;
     FillColor := FillColor s; StrokeColorSpace := StrokeColorSpace s;
     FillColorSpace := FillColorSpace s; LineWidth := LineWidth s; LineCap :=
     LineCap s; LineJoin := LineJoin s; MiterLimit := v; DashPattern :=
     DashPattern s; DashPhase := DashPhase s; TextState_ := TextState_ s;
     StrokeAlpha := StrokeAlpha s; FillAlpha := FillAlpha s; BlendMode :=
     BlendMode s; RenderingIntent := RenderingIntent s; Flatness := Flatness
     s; Smoothness := Smoothness s |}.

Definition set_DashPattern (s : State) v : State :=
  {| CTM := CTM s; ClipPath := ClipPath s; StrokeColor := StrokeColor s;
     FillColor := FillColor s; StrokeColorSpace := StrokeColorSpace s;
     FillColorSpace := FillColorSpace s; LineWidth := LineWidth s; LineCap :=
     LineCap s; LineJoin := LineJoin s; MiterLimit := MiterLimit s;
     DashPattern := v; DashPhase := DashPhase s; TextState_ := TextState_ s;
     StrokeAlpha := StrokeAlpha s; FillAlpha := FillAlpha s; BlendMode :=
     BlendMode s; RenderingIntent := RenderingIntent s; Flatness := Flatness
     s; Smoothness := Smoothness s |}.

Definition set_DashPhase (s : State) v : State :=
  {| CTM := CTM s; ClipPath := ClipPath s; StrokeColor := StrokeColor s;
     FillColor := FillColor s; StrokeColorSpace := StrokeColorSpace s;
     FillColorSpace := FillColorSpace s; LineWidth := LineWidth s; LineCap :=
     LineCap s; LineJoin := LineJoin s; MiterLimit := MiterLimit s;
     DashPattern := DashPattern s; DashPhase := v; TextState_ := TextState_ s;
     StrokeAlpha := StrokeAlpha s; FillAlpha := FillAlpha s; BlendMode :=
     BlendMode s; RenderingIntent := RenderingIntent s; Flatness := Flatness
     s; Smoothness := Smoothness s |}.

Definition set_TextState (s : State) v : State :=
  {| CTM := CTM s; ClipPath := ClipPath s; StrokeColor := StrokeColor s;
     FillColor := FillColor s; StrokeColorSpace := StrokeColorSpace s;
     FillColorSpace := FillColorSpace s; LineWidth := LineWidth s; LineCap :=
     LineCap s; LineJoin := LineJoin s; MiterLimit := MiterLimit s;
     DashPattern := DashPattern s; DashPhase := DashPhase s; TextState_ := v;
     StrokeAlpha := StrokeAlpha s; FillAlpha := FillAlpha s; BlendMode :=
     BlendMode s; RenderingIntent := RenderingIntent s; Flatness := Flatness
     s; Smoothness := Smoothness s |}.

Definition set_RenderingIntent (s : State) v : State :=
  {| CTM := CTM s; ClipPath := ClipPath s; StrokeColor := StrokeColor s;
     FillColor := FillColor s; StrokeColorSpace := StrokeColorSpace s;
     FillColorSpace := FillColorSpace s; LineWidth := LineWidth s; LineCap :=
     LineCap s; LineJoin := LineJoin s; MiterLimit := MiterLimit s;
     DashPattern := DashPattern s; DashPhase := DashPhase s; TextState_ :=
     TextState_ s; StrokeAlpha := StrokeAlpha s; FillAlpha := FillAlpha s;
     BlendMode := BlendMode s; RenderingIntent := v; Flatness := Flatness s;
     Smoothness := Smoothness s |}.

Definition set_Flatness (s : State) v : State :=
  {| CTM := CTM s; ClipPath := ClipPath s; StrokeColor := StrokeColor s;
     FillColor := FillColor s; StrokeColorSpace := StrokeColorSpace s;
     FillColorSpace := FillColorSpace s; LineWidth := LineWidth s; LineCap :=
     LineCap s; LineJoin := LineJoin s; MiterLimit := MiterLimit s;
     DashPattern := DashPattern s; DashPhase := DashPhase s; TextState_ :=
     TextState_ s; StrokeAlpha := StrokeAlpha s; FillAlpha := FillAlpha s;
     BlendMode := BlendMode s; RenderingIntent := RenderingIntent s; Flatness
     := v; Smoothness := Smoothness s |}.

Definition set_CharSpace_ (t : TextState) v : TextState :=
  {| CharSpace := v; WordSpace := WordSpace t; HScale := HScale t; Leading :=
     Leading t; FontName := FontName t; FontSize := FontSize t; RenderMode :=
     RenderMode t; Rise := Rise t; TextMatrix := TextMatrix t; LineMatrix :=
     LineMatrix t |}.

Definition set_CharSpace (s : State) v : State :=
  set_TextState s (set_CharSpace_ (TextState_ s) v).

Definition set_WordSpace_ (t : TextState) v : TextState :=
  {| CharSpace := CharSpace t; WordSpace := v; HScale := HScale t; Leading :=
     Leading t; FontName := FontName t; FontSize := FontSize t; RenderMode :=
     RenderMode t; Rise := Rise t; TextMatrix := TextMatrix t; LineMatrix :=
     LineMatrix t |}.

Definition set_WordSpace (s : State) v : State :=
  set_TextState s (set_WordSpace_ (TextState_ s) v).

Definition set_HScale_ (t : TextState) v : TextState :=
  {| CharSpace := CharSpace t; WordSpace := WordSpace t; HScale := v; Leading
     := Leading t; FontName := FontName t; FontSize := FontSize t; RenderMode
     := RenderMode t; Rise := Rise t; TextMatrix := TextMatrix t; LineMatrix
     := LineMatrix t |}.

Definition set_HScale (s : State) v : State :=
  set_TextState s (set_HScale_ (TextState_ s) v).

Definition set_Leading_ (t : TextState) v : TextState :=
  {| CharSpace := CharSpace t; WordSpace := WordSpace t; HScale := HScale t;
     Leading := v; FontName := FontName t; FontSize := FontSize t; RenderMode
     := RenderMode t; Rise := Rise t; TextMatrix := TextMatrix t; LineMatrix
     := LineMatrix t |}.

Definition set_Leading (s : State) v : State :=
  set_TextState s (set_Leading_ (TextState_ s) v).

Definition set_FontName_ (t : TextState) v : TextState :=
  {| CharSpace := CharSpace t; WordSpace := WordSpace t; HScale := HScale t;
     Leading := Leading t; FontName := v; FontSize := FontSize t; RenderMode
     := RenderMode t; Rise := Rise t; TextMatrix := TextMatrix t; LineMatrix
     := LineMatrix t |}.

Definition set_FontName (s : State) v : State :=
  set_TextState s (set_FontName_ (TextState_ s) v).

Definition set_FontSize_ (t : TextState) v : TextState :=
  {| CharSpace := CharSpace t; WordSpace := WordSpace t; HScale := HScale t;
     Leading := Leading t; FontName := FontName t; FontSize := v; RenderMode
     := RenderMode t; Rise := Rise t; TextMatrix := TextMatrix t; LineMatrix
     := LineMatrix t |}.

Definition set_FontSize (s : State) v : State :=
  set_TextState s (set_FontSize_ (TextState_ s) v).

Definition set_RenderMode_ (t : TextState) v : TextState :=
  {| CharSpace := CharSpace t; WordSpace := WordSpace t; HScale := HScale t;
     Leading := Leading t; FontName := FontName t; FontSize := FontSize t;
     RenderMode := v; Rise := Rise t; TextMatrix := TextMatrix t; LineMatrix
     := LineMatrix t |}.

Definition set_RenderMode (s : State) v : State :=
  set_TextState s (set_RenderMode_ (TextState_ s) v).

Definition set_Rise_ (t : TextState) v : TextState :=
  {| CharSpace := CharSpace t; WordSpace := WordSpace t; HScale := HScale t;
     Leading := Leading t; FontName := FontName t; FontSize := FontSize t;
     RenderMode := RenderMode t; Rise := v; TextMatrix := TextMatrix t;
     LineMatrix := LineMatrix t |}.

Definition set_Rise (s : State) v : State :=
  set_TextState s (set_Rise_ (TextState_ s) v).

Definition set_TextMatrix_ (t : TextState) v : TextState :=
  {| CharSpace := CharSpace t; WordSpace := WordSpace t; HScale := HScale t;
     Leading := Leading t; FontName := FontName t; FontSize := FontSize t;
     RenderMode := RenderMode t; Rise := Rise t; TextMatrix := v; LineMatrix
     := LineMatrix t |}.

Definition set_TextMatrix (s : State) v : State :=
  set_TextState s (set_TextMatrix_ (TextState_ s) v).

Definition set_LineMatrix_ (t : TextState) v : TextState :=
  {| CharSpace := CharSpace t; WordSpace := WordSpace t; HScale := HScale t;
     Leading := Leading t; FontName := FontName t; FontSize := FontSize t;
     RenderMode := RenderMode t; Rise := Rise t; TextMatrix := TextMatrix t;
     LineMatrix := v |}.

Definition set_LineMatrix (s : State) v : State :=
  set_TextState s (set_LineMatrix_ (TextState_ s) v).

(** ** The interpreter *)

(** An operand: a value of Go's [interface{}]. *)
#[local] Set Warnings "-register-all".
Inductive Value :=
| VFloat64 (x : float)
| VInt (x : Z)
| VInt64 (x : Z)
| VString (x : string)
| VBytes (x : list Z)
| VBool (x : bool)
| VNil
| VArray (x : list Value).

Record Operator := mkOperator { Name : string; Operands : list Value }.

(** What a rendering callback is called with.  The callbacks belong to the
    embedder; the interpreter's calls are recorded in order and a callback
    is taken not to write to the state or path it is passed. *)
Inductive Event :=
| EvFill (p : Path) (s : State) (rule : FillRule)
| EvStroke (p : Path) (s : State)
| EvClip (p : Path) (rule : FillRule)
| EvText (text : string) (s : State)
| EvImage (name : string) (s : State).

(** [Interpreter]: the stack, the current path and, for each callback,
    whether it is set ([OnFill != nil]); [events] is the trace of the calls
    made.  [Resources] is read by no operator and is left out. *)
Record Interpreter := mkInterpreter {
  stack : StateStack;
  path : Path;
  OnFill : bool;
  OnStroke : bool;
  OnClip : bool;
  OnText : bool;
  OnImage : bool;
  events : list Event
}.

Definition NewInterpreter : Interpreter :=
  mkInterpreter NewStateStack NewPath false false false false false [].

Definition with_stack (i : Interpreter) (s : StateStack) : Interpreter :=
  mkInterpreter s (path i) (OnFill i) (OnStroke i) (OnClip i) (OnText i)
                (OnImage i) (events i).

Definition with_path (i : Interpreter) (p : Path) : Interpreter :=
  mkInterpreter (stack i) p (OnFill i) (OnStroke i) (OnClip i) (OnText i)
                (OnImage i) (events i).

Definition emit (i : Interpreter) (e : Event) : Interpreter :=
  mkInterpreter (stack i) (path i) (OnFill i) (OnStroke i) (OnClip i)
                (OnText i) (OnImage i) (events i ++ [e]).

(** A write through the pointer [state := i.stack.Current()]. *)
Definition set_top (s : StateStack) (st : State) : StateStack :=
  removelast s ++ [st].

Definition set_state (i : Interpreter) (st : State) : Interpreter :=
  with_stack i (set_top (stack i) st).

Definition string_of_bytes (b : list Z) : string :=
  string_of_list_ascii (map (fun x => ascii_of_nat (Z.to_nat x)) b).

Section Interp.

(** The library functions the interpreter calls: [strconv.ParseFloat(x, 64)]
    and [strconv.Atoi] (the value returned and whether the error is [nil]),
    the conversions between [int] and [float64], and [fmt.Sprintf] with
    the verb v. *)
Variable ParseFloat : string -> float * bool.
Variable Atoi : string -> Z * bool.
Variable float64_of_int : Z -> float.
Variable int_of_float64 : float -> Z.
Variable Sprint : Value -> string.

Definition toFloat (v : Value) : float :=
  match v with
  | VFloat64 x => x
  | VInt x => float64_of_int x
  | VInt64 x => float64_of_int x
  | VString x => fst (ParseFloat x)
  | _ => 0
  end.

Definition toInt (v : Value) : Z :=
  match v with
  | VInt x => x
  | VInt64 x => x
  | VFloat64 x => int_of_float64 x
  | VString x => fst (Atoi x)
  | _ => 0
  end.

Definition toString (v : Value) : string :=
  match v with
  | VString x => x
  | VBytes x => string_of_bytes x
  | _ => Sprint v
  end.

Definition parseColor (space : ColorSpace) (operands : list Value) : Color :=
  let f k := toFloat (nth k operands VNil) in
  if String.eqb space ColorSpaceDeviceGray then
    if Z.leb 1 (len operands) then NewGray (f 0%nat) else Black
  else if String.eqb space ColorSpaceDeviceRGB then
    if Z.leb 3 (len operands) then NewRGB (f 0%nat) (f 1%nat) (f 2%nat) else Black
  else if String.eqb space ColorSpaceCMYK then
    if Z.leb 4 (len operands)
    then NewCMYK (f 0%nat) (f 1%nat) (f 2%nat) (f 3%nat) else Black
  else Black.

(** [applyExtGState] is a placeholder in the source. *)
Definition applyExtGState (i : Interpreter) (name : string) : Interpreter := i.

(** The text of the strings of a [TJ] array. *)
Fixpoint TJ_text (arr : list Value) : string :=
  match arr with
  | [] => ""
  | VString x :: arr' => (x ++ TJ_text arr')%string
  | _ :: arr' => TJ_text arr'
  end.

Definition fill (i : Interpreter) (state : State) (rule : FillRule) : Interpreter :=
  if OnFill i
  then emit i (EvFill (Path_Transform (path i) (CTM state)) state rule)
  else i.

Definition stroke (i : Interpreter) (state : State) : Interpreter :=
  if OnStroke i
  then emit i (EvStroke (Path_Transform (path i) (CTM state)) state)
  else i.

Definition clip (i : Interpreter) (state : State) (rule : FillRule) : Interpreter :=
  let i := if OnClip i then emit i (EvClip (path i) rule) else i in
  set_state i (set_ClipPath state (Some (Path_Clone (path i)))).

Definition show (i : Interpreter) (text : string) (state : State) : Interpreter :=
  if OnText i then emit i (EvText text state) else i.

(** The move to the next line of the operators T-star, quote and
    double-quote. *)
Definition next_line (state : State) : State :=
  let state :=
    set_LineMatrix state
      (Multiply (Translate 0%float (- Leading (TextState_ state))%float)
                (LineMatrix (TextState_ state))) in
  set_TextMatrix state (LineMatrix (TextState_ state)).

Definition dquote : string := String "034"%char "".

(** The [switch op.Name] of [executeOp]. *)
Definition dispatch (i : Interpreter) (state : State) (op : Operator) : Interpreter :=
  let name := Name op in
  let n := len (Operands op) in
  let arg k := nth k (Operands op) VNil in
  let f k := toFloat (arg k) in
  let named x := String.eqb name x in
  if named "q" then with_stack i (Push (stack i))
  else if named "Q" then with_stack i (Pop (stack i))
  else if named "cm" then
    if Z.leb 6 n then
      let m := mkMatrix (f 0%nat) (f 1%nat) (f 2%nat) (f 3%nat) (f 4%nat) (f 5%nat) in
      set_state i (set_CTM state (Multiply (CTM state) m))
    else i
  else if named "w" then
    if Z.leb 1 n then set_state i (set_LineWidth state (f 0%nat)) else i
  else if named "J" then
    if Z.leb 1 n then set_state i (set_LineCap state (toInt (arg 0%nat))) else i
  else if named "j" then
    if Z.leb 1 n then set_state i (set_LineJoin state (toInt (arg 0%nat))) else i
  else if named "M" then
    if Z.leb 1 n then set_state i (set_MiterLimit state (f 0%nat)) else i
  else if named "d" then
    if Z.leb 2 n then
      let state :=
        match arg 0%nat with
        | VArray arr => set_DashPattern state (Some (map toFloat arr))
        | _ => state
        end in
      set_state i (set_DashPhase state (f 1%nat))
    else i
  else if named "ri" then
    if Z.leb 1 n
    then set_state i (set_RenderingIntent state (toString (arg 0%nat))) else i
  else if named "i" then
    if Z.leb 1 n then set_state i (set_Flatness state (f 0%nat)) else i
  else if named "gs" then
    if Z.leb 1 n then applyExtGState i (toString (arg 0%nat)) else i
  else if named "m" then
    if Z.leb 2 n then with_path i (MoveTo (path i) (f 0%nat) (f 1%nat)) else i
  else if named "l" then
    if Z.leb 2 n then with_path i (LineTo (path i) (f 0%nat) (f 1%nat)) else i
  else if named "c" then
    if Z.leb 6 n then
      with_path i (CurveTo (path i) (f 0%nat) (f 1%nat) (f 2%nat) (f 3%nat)
                           (f 4%nat) (f 5%nat))
    else i
  else if named "v" then
    if Z.leb 4 n
    then with_path i (CurveToV (path i) (f 0%nat) (f 1%nat) (f 2%nat) (f 3%nat))
    else i
  else if named "y" then
    if Z.leb 4 n
    then with_path i (CurveToY (path i) (f 0%nat) (f 1%nat) (f 2%nat) (f 3%nat))
    else i
  else if named "h" then with_path i (Close (path i))
  else if named "re" then
    if Z.leb 4 n
    then with_path i (Rect (path i) (f 0%nat) (f 1%nat) (f 2%nat) (f 3%nat))
    else i
  else if named "S" then
    let i := stroke i state in
    with_path i (Clear (path i))
  else if named "s" then
    let i := with_path i (Close (path i)) in
    let i := stroke i state in
    with_path i (Clear (path i))
  else if named "f" || named "F" then
    let i := fill i state FillRuleNonZero in
    with_path i (Clear (path i))
  else if named "f*" then
    let i := fill i state FillRuleEvenOdd in
    with_path i (Clear (path i))
  else if named "B" then
    let i := fill i state FillRuleNonZero in
    let i := stroke i state in
    with_path i (Clear (path i))
  else if named "B*" then
    let i := fill i state FillRuleEvenOdd in
    let i := stroke i state in
    with_path i (Clear (path i))
  else if named "b" then
    let i := with_path i (Close (path i)) in
    let i := fill i state FillRuleNonZero in
    let i := stroke i state in
    with_path i (Clear (path i))
  else if named "b*" then
    let i := with_path i (Close (path i)) in
    let i := fill i state FillRuleEvenOdd in
    let i := stroke i state in
    with_path i (Clear (path i))
  else if named "n" then with_path i (Clear (path i))
  else if named "W" then clip i state FillRuleNonZero
  else if named "W*" then clip i state FillRuleEvenOdd
  else if named "CS" then
    if Z.leb 1 n
    then set_state i (set_StrokeColorSpace state (toString (arg 0%nat))) else i
  else if named "cs" then
    if Z.leb 1 n
    then set_state i (set_FillColorSpace state (toString (arg 0%nat))) else i
  else if named "SC" || named "SCN" then
    set_state i (set_StrokeColor state
                   (parseColor (StrokeColorSpace state) (Operands op)))
  else if named "sc" || named "scn" then
    set_state i (set_FillColor state
                   (parseColor (FillColorSpace state) (Operands op)))
  else if named "G" then
    if Z.leb 1 n then
      let state := set_StrokeColorSpace state ColorSpaceDeviceGray in
      set_state i (set_StrokeColor state (NewGray (f 0%nat)))
    else i
  else if named "g" then
    if Z.leb 1 n then
      let state := set_FillColorSpace state ColorSpaceDeviceGray in
      set_state i (set_FillColor state (NewGray (f 0%nat)))
    else i
  else if named "RG" then
    if Z.leb 3 n then
      let state := set_StrokeColorSpace state ColorSpaceDeviceRGB in
      set_state i (set_StrokeColor state (NewRGB (f 0%nat) (f 1%nat) (f 2%nat)))
    else i
  else if named "rg" then
    if Z.leb 3 n then
      let state := set_FillColorSpace state ColorSpaceDeviceRGB in
      set_state i (set_FillColor state (NewRGB (f 0%nat) (f 1%nat) (f 2%nat)))
    else i
  else if named "K" then
    if Z.leb 4 n then
      let state := set_StrokeColorSpace state ColorSpaceCMYK in
      set_state i (set_StrokeColor state
                     (NewCMYK (f 0%nat) (f 1%nat) (f 2%nat) (f 3%nat)))
    else i
  else if named "k" then
    if Z.leb 4 n then
      let state := set_FillColorSpace state ColorSpaceCMYK in
      set_state i (set_FillColor state
                     (NewCMYK (f 0%nat) (f 1%nat) (f 2%nat) (f 3%nat)))
    else i
  else if named "BT" then
    let state := set_TextMatrix state Identity in
    set_state i (set_LineMatrix state Identity)
  else if named "ET" then i
  else if named "Tc" then
    if Z.leb 1 n then set_state i (set_CharSpace state (f 0%nat)) else i
  else if named "Tw" then
    if Z.leb 1 n then set_state i (set_WordSpace state (f 0%nat)) else i
  else if named "Tz" then
    if Z.leb 1 n then set_state i (set_HScale state (f 0%nat)) else i
  else if named "TL" then
    if Z.leb 1 n then set_state i (set_Leading state (f 0%nat)) else i
  else if named "Tf" then
    if Z.leb 2 n then
      let state := set_FontName state (toString (arg 0%nat)) in
      set_state i (set_FontSize state (f 1%nat))
    else i
  else if named "Tr" then
    if Z.leb 1 n then set_state i (set_RenderMode state (toInt (arg 0%nat))) else i
  else if named "Ts" then
    if Z.leb 1 n then set_state i (set_Rise state (f 0%nat)) else i
  else if named "Td" then
    if Z.leb 2 n then
      let tx := f 0%nat in
      let ty := f 1%nat in
      let state :=
        set_LineMatrix state
          (Multiply (Translate tx ty) (LineMatrix (TextState_ state))) in
      set_state i (set_TextMatrix state (LineMatrix (TextState_ state)))
    else i
  else if named "TD" then
    if Z.leb 2 n then
      let tx := f 0%nat in
      let ty := f 1%nat in
      let state := set_Leading state (- ty)%float in
      let state :=
        set_LineMatrix state
          (Multiply (Translate tx ty) (LineMatrix (TextState_ state))) in
      set_state i (set_TextMatrix state (LineMatrix (TextState_ state)))
    else i
  else if named "Tm" then
    if Z.leb 6 n then
      let state :=
        set_TextMatrix state
          (mkMatrix (f 0%nat) (f 1%nat) (f 2%nat) (f 3%nat) (f 4%nat) (f 5%nat)) in
      set_state i (set_LineMatrix state (TextMatrix (TextState_ state)))
    else i
  else if named "T*" then set_state i (next_line state)
  else if named "Tj" then
    if Z.leb 1 n then show i (toString (arg 0%nat)) state else i
  else if named "TJ" then
    if Z.leb 1 n then
      match arg 0%nat with
      | VArray arr =>
          let text := TJ_text arr in
          if OnText i && negb (String.eqb text "")
          then emit i (EvText text state) else i
      | _ => i
      end
    else i
  else if named "'" then
    let state := next_line state in
    let i := set_state i state in
    if Z.leb 1 n then show i (toString (arg 0%nat)) state else i
  else if named dquote then
    if Z.leb 3 n then
      let state := set_WordSpace state (f 0%nat) in
      let state := set_CharSpace state (f 1%nat) in
      let state := next_line state in
      let i := set_state i state in
      show i (toString (arg 2%nat)) state
    else i
  else if named "Do" then
    if Z.leb 1 n then
      if OnImage i then emit i (EvImage (toString (arg 0%nat)) state) else i
    else i
  else i.

(** [executeOp]: [state := i.stack.Current()], the switch, [return nil]. *)
Definition executeOp (i : Interpreter) (op : Operator) : Interpreter * error :=
  let '(s, state) := Current (stack i) in
  let i := with_stack i s in
  (dispatch i state op, None).

(** [Execute]: an error of [executeOp] is logged and execution goes on with
    the next operator; the result is always [nil]. *)
Definition Execute (i : Interpreter) (ops : list Operator) : Interpreter * error :=
  (fold_left (fun i op => fst (executeOp i op)) ops i, None).

(** ** The content-stream parser *)

Definition chr_is (c : ascii) (x : ascii) : bool := Ascii.eqb c x.

Definition code (c : ascii) : Z := Z.of_nat (nat_of_ascii c).

Definition isDelimiter (c : ascii) : bool :=
  chr_is c "(" || chr_is c ")" || chr_is c "<" || chr_is c ">" ||
  chr_is c "[" || chr_is c "]" || chr_is c "/" || chr_is c "%".

Definition isSpace (c : ascii) : bool :=
  chr_is c " " || chr_is c "009" || chr_is c "013" || chr_is c "010".

(** [if current.Len() > 0 { tokens = append(tokens, current.String());
    current.Reset() }]. *)
Definition flush (tokens : list string) (current : string) : list string :=
  match current with
  | EmptyString => tokens
  | _ => tokens ++ [current]
  end.

(** The inner loop of the name case: the characters up to the next
    delimiter or space, and the input after them. *)
Fixpoint read_name (s : list ascii) : string * list ascii :=
  match s with
  | [] => (EmptyString, [])
  | c :: s' =>
      if negb (isDelimiter c) && negb (isSpace c)
      then let '(name, rest) := read_name s' in (String c name, rest)
      else (EmptyString, s)
  end.

(** The inner loop of the comment case stops at the end of the line; the
    [i++] of the outer loop then passes over the end-of-line character. *)
Fixpoint skip_comment (s : list ascii) : list ascii :=
  match s with
  | [] => []
  | c :: s' =>
      if chr_is c "010" || chr_is c "013" then s' else skip_comment s'
  end.

Lemma read_name_length (s : list ascii) :
  (length (snd (read_name s)) <= length s)%nat.
Proof.
  induction s as [|c s IH]; simpl; [lia|].
  destruct (negb (isDelimiter c) && negb (isSpace c)); simpl; [|lia].
  destruct (read_name s). simpl in *. lia.
Qed.

Lemma skip_comment_length (s : list ascii) :
  (length (skip_comment s) <= length s)%nat.
Proof.
  induction s as [|c s IH]; simpl; [lia|].
  destruct (chr_is c "010" || chr_is c "013"); simpl; lia.
Qed.

Definition snoc (s : string) (c : ascii) : string := (s ++ String c "")%string.

(** The loop of [tokenize] over the input from index [i] on. *)
Equations? tokenize_loop (s : list ascii) (tokens : list string) (current : string)
  (inString : bool) (parenDepth : Z) (inHex : bool) : list string
  by wf (length s) lt :=
  tokenize_loop [] tokens current _ _ _ := flush tokens current;
  tokenize_loop (c :: rest) tokens current true parenDepth inHex
    with chr_is c "\", rest => {
    | true, c2 :: rest2 :=
        tokenize_loop rest2 tokens (snoc (snoc current c) c2) true parenDepth inHex;
    | _, rest' :=
        let current := snoc current c in
        if chr_is c "(" then
          tokenize_loop rest' tokens current true (parenDepth + 1) inHex
        else if chr_is c ")" then
          if Z.eqb (parenDepth - 1) 0
          then tokenize_loop rest' (tokens ++ [current]) "" false (parenDepth - 1) inHex
          else tokenize_loop rest' tokens current true (parenDepth - 1) inHex
        else tokenize_loop rest' tokens current true parenDepth inHex };
  tokenize_loop (c :: rest) tokens current false parenDepth true :=
    let current := snoc current c in
    if chr_is c ">"
    then tokenize_loop rest (tokens ++ [current]) "" false parenDepth false
    else tokenize_loop rest tokens current false parenDepth true;
  tokenize_loop (c :: rest) tokens current false parenDepth false :=
    if chr_is c "(" then
      tokenize_loop rest (flush tokens current) (String c "") true 1 false
    else if chr_is c "<" then
      tokenize_loop rest (flush tokens current) (String c "") false parenDepth true
    else if chr_is c "[" then
      tokenize_loop rest (flush tokens current ++ ["["]) "" false parenDepth false
    else if chr_is c "]" then
      tokenize_loop rest (flush tokens current ++ ["]"]) "" false parenDepth false
    else if isSpace c then
      tokenize_loop rest (flush tokens current) "" false parenDepth false
    else if chr_is c "/" then
      tokenize_loop (snd (read_name rest))
        (flush tokens current ++ [String c (fst (read_name rest))])
        "" false parenDepth false
    else if chr_is c "%" then
      tokenize_loop (skip_comment rest) (flush tokens current) "" false
        parenDepth false
    else tokenize_loop rest tokens (snoc current c) false parenDepth false.
Proof.
  all: try (simpl; lia).
  - pose proof (read_name_length rest). simpl. lia.
  - pose proof (skip_comment_length rest). simpl. lia.
Qed.

Definition tokenize (s : string) : list string :=
  tokenize_loop (list_ascii_of_string s) [] "" false 0 false.

Definition first_char (tok : string) : option ascii :=
  match tok with EmptyString => None | String c _ => Some c end.

Fixpoint last_char (tok : string) : option ascii :=
  match tok with
  | EmptyString => None
  | String c EmptyString => Some c
  | String _ tok' => last_char tok'
  end.

(** [tok[1 : len(tok)-1]]. *)
Definition inner (tok : string) : string :=
  substring 1 (String.length tok - 2) tok.

Definition isOperator (tok : string) : bool :=
  match tok with
  | EmptyString => false
  | String c _ =>
      if chr_is c "/" || chr_is c "(" || chr_is c "<" || chr_is c "[" || chr_is c "]"
      then false
      else if (Z.leb (code "0") (code c) && Z.leb (code c) (code "9")) ||
              chr_is c "-" || chr_is c "+" || chr_is c "."
      then false
      else if String.eqb tok "true" || String.eqb tok "false" || String.eqb tok "null"
      then false
      else true
  end.

Definition is_octal (c : ascii) : bool :=
  Z.leb (code "0") (code c) && Z.leb (code c) (code "7").

Definition octal_digit (c : ascii) : Z := code c - code "0".

(** [strconv.ParseUint(oct, 8, 8)] on one to three octal digits: the byte,
    when the value fits eight bits. *)
Definition write_octal (v : Z) (k : string) : string :=
  if Z.leb v 255 then String (ascii_of_nat (Z.to_nat v)) k else k.

(** [decodeString]: the escape sequences of a literal string. *)
Fixpoint decodeString_loop (s : list ascii) : string :=
  match s with
  | [] => ""
  | c :: rest =>
      match chr_is c "\", rest with
      | true, e :: rest1 =>
          if chr_is e "n" then String "010" (decodeString_loop rest1)
          else if chr_is e "r" then String "013" (decodeString_loop rest1)
          else if chr_is e "t" then String "009" (decodeString_loop rest1)
          else if chr_is e "b" then String "008" (decodeString_loop rest1)
          else if chr_is e "f" then String "012" (decodeString_loop rest1)
          else if chr_is e "(" then String "(" (decodeString_loop rest1)
          else if chr_is e ")" then String ")" (decodeString_loop rest1)
          else if chr_is e "\" then String "\" (decodeString_loop rest1)
          else if is_octal e then
            match rest1 with
            | d2 :: rest2 =>
                if is_octal d2 then
                  match rest2 with
                  | d3 :: rest3 =>
                      if is_octal d3 then
                        write_octal
                          (octal_digit e * 64 + octal_digit d2 * 8 + octal_digit d3)
                          (decodeString_loop rest3)
                      else
                        write_octal (octal_digit e * 8 + octal_digit d2)
                                    (decodeString_loop rest2)
                  | [] =>
                      write_octal (octal_digit e * 8 + octal_digit d2)
                                  (decodeString_loop rest2)
                  end
                else write_octal (octal_digit e) (decodeString_loop rest1)
            | [] => write_octal (octal_digit e) (decodeString_loop rest1)
            end
          else String e (decodeString_loop rest1)
      | _, _ => String c (decodeString_loop rest)
      end
  end.

Definition decodeString (s : string) : string :=
  decodeString_loop (list_ascii_of_string s).

Definition hex_nibble (c : ascii) : option Z :=
  if Z.leb (code "0") (code c) && Z.leb (code c) (code "9")
  then Some (code c - code "0")
  else if Z.leb (code "A") (code c) && Z.leb (code c) (code "F")
  then Some (code c - code "A" + 10)
  else if Z.leb (code "a") (code c) && Z.leb (code c) (code "f")
  then Some (code c - code "a" + 10)
  else None.

(** [decodeHexString]; [pending] is [hex] when [hasNibble] is set. *)
Fixpoint decodeHexString_loop (s : list ascii) (pending : option Z) : string :=
  match s with
  | [] =>
      match pending with
      | Some hex => String (ascii_of_nat (Z.to_nat (wrap8 (hex * 16)))) ""
      | None => ""
      end
  | c :: rest =>
      if isSpace c then decodeHexString_loop rest pending
      else
        match hex_nibble c with
        | None => decodeHexString_loop rest pending
        | Some nibble =>
            match pending with
            | Some hex =>
                String (ascii_of_nat (Z.to_nat (Z.lor (wrap8 (hex * 16)) nibble)))
                       (decodeHexString_loop rest None)
            | None => decodeHexString_loop rest (Some nibble)
            end
        end
  end.

Definition decodeHexString (s : string) : string :=
  decodeHexString_loop (list_ascii_of_string s) None.

Definition parseOperand (tok : string) : Value :=
  match first_char tok, last_char tok with
  | Some c, Some l =>
      if chr_is c "(" && chr_is l ")" then VString (decodeString (inner tok))
      else if chr_is c "<" && chr_is l ">" then VString (decodeHexString (inner tok))
      else if chr_is c "/" then VString (substring 1 (String.length tok - 1) tok)
      else if String.eqb tok "true" then VBool true
      else if String.eqb tok "false" then VBool false
      else if String.eqb tok "null" then VNil
      else if snd (ParseFloat tok) then VFloat64 (fst (ParseFloat tok))
      else VString tok
  | _, _ => VNil
  end.

(** The loop over the tokens of [ParseContentStream]. *)
Fixpoint parse_loop (tokens : list string) (ops : list Operator)
  (operands : list Value) : list Operator :=
  match tokens with
  | [] => ops
  | tok :: tokens' =>
      if isOperator tok
      then parse_loop tokens' (ops ++ [mkOperator tok operands]) []
      else parse_loop tokens' ops (operands ++ [parseOperand tok])
  end.

Definition ParseContentStream (data : string) : list Operator * error :=
  (parse_loop (tokenize data) [] [], None).

(** *** Writing string operands, for stating what the parser reads *)

(** A literal string with a backslash before every backslash and
    parenthesis, and a hexadecimal string with two upper-case digits per
    character. *)
Definition escape_char (c : ascii) : list ascii :=
  if chr_is c "\" || chr_is c "(" || chr_is c ")" then ["\"%char; c] else [c].

Definition escape (s : string) : string :=
  string_of_list_ascii (flat_map escape_char (list_ascii_of_string s)).

Definition hex_char (n : Z) : ascii :=
  ascii_of_nat (Z.to_nat (if Z.ltb n 10 then 48 + n else 55 + n)).

Definition hex_of_char (c : ascii) : list ascii :=
  [hex_char (code c / 16); hex_char (code c mod 16)].

Definition hex (s : string) : string :=
  string_of_list_ascii (flat_map hex_of_char (list_ascii_of_string s)).

(** What the parser needs of the two digits of a character. *)
Definition hex_pair_ok (c : ascii) : bool :=
  match hex_of_char c with
  | [h1; h2] =>
      negb (chr_is h1 ">") && negb (chr_is h2 ">") &&
      negb (isSpace h1) && negb (isSpace h2) &&
      match hex_nibble h1, hex_nibble h2 with
      | Some hi, Some lo =>
          Ascii.eqb (ascii_of_nat (Z.to_nat (Z.lor (wrap8 (hi * 16)) lo))) c
      | _, _ => false
      end
  | _ => false
  end.

(** ** Properties of the state stack *)

Lemma Path_Clone_eq (p : Path) : Path_Clone p = p.
Proof.
  destruct p as [segs cur st]. unfold Path_Clone. cbn [Segments current start].
  f_equal. induction segs as [|[o pts] segs IH]; cbn [map Op Points].
  - reflexivity.
  - rewrite IH. rewrite copy_same_length by apply repeat_length. reflexivity.
Qed.

(** The deep copy is a copy: every field of the clone, the dash pattern and
    the clip path included, equals the field of the original. *)
Lemma State_Clone_eq (s : State) : State_Clone s = s.
Proof.
  destruct s. unfold State_Clone. cbn.
  f_equal.
  - destruct ClipPath0; [now rewrite Path_Clone_eq | reflexivity].
  - destruct DashPattern0; [|reflexivity].
    now rewrite copy_same_length by apply repeat_length.
Qed.

Lemma ensure_nonempty (s : StateStack) : ensure s <> [].
Proof. destruct s; discriminate. Qed.

Lemma ensure_id (s : StateStack) : s <> [] -> ensure s = s.
Proof. destruct s; [congruence | reflexivity]. Qed.

Lemma top_snoc (s : StateStack) (st : State) : top (s ++ [st]) = st.
Proof. unfold top. apply last_last. Qed.

Lemma nonempty_snoc (s : StateStack) :
  s <> [] -> s = removelast s ++ [top s].
Proof. intros H. unfold top. now apply app_removelast_last. Qed.

Lemma Push_stack (s : StateStack) : s <> [] -> Push s = s ++ [top s].
Proof.
  intros H. unfold Push, Current. rewrite ensure_id by assumption.
  now rewrite State_Clone_eq.
Qed.

Lemma Pop_snoc (s : StateStack) (st : State) : s <> [] -> Pop (s ++ [st]) = s.
Proof.
  intros H. unfold Pop. rewrite length_app. simpl length.
  replace (Nat.ltb 1 (length s + 1)) with true.
  - apply removelast_last.
  - symmetry. apply Nat.ltb_lt. destruct s; [congruence | simpl; lia].
Qed.

Lemma Pop_nonempty (s : StateStack) : s <> [] -> Pop s <> [].
Proof.
  intros H. unfold Pop. destruct (Nat.ltb 1 (length s)) eqn:E; [|assumption].
  apply Nat.ltb_lt in E. destruct s as [|a [|b s]]; simpl in *; try lia.
  discriminate.
Qed.

Lemma set_top_lower (s : StateStack) (st : State) :
  removelast (set_top s st) = removelast s.
Proof. unfold set_top. apply removelast_last. Qed.

Lemma set_top_nonempty (s : StateStack) (st : State) : set_top s st <> [].
Proof. unfold set_top. destruct (removelast s); discriminate. Qed.

Lemma top_set_top (s : StateStack) (st : State) : top (set_top s st) = st.
Proof. unfold set_top. apply top_snoc. Qed.

(** *** The stack under the helpers of the interpreter *)

Lemma stack_with_path (i : Interpreter) (p : Path) : stack (with_path i p) = stack i.
Proof. reflexivity. Qed.

Lemma stack_emit (i : Interpreter) (e : Event) : stack (emit i e) = stack i.
Proof. reflexivity. Qed.

Lemma stack_set_state (i : Interpreter) (st : State) :
  stack (set_state i st) = set_top (stack i) st.
Proof. reflexivity. Qed.

Lemma stack_fill (i : Interpreter) (st : State) (r : FillRule) :
  stack (fill i st r) = stack i.
Proof. unfold fill. now destruct (OnFill i). Qed.

Lemma stack_stroke (i : Interpreter) (st : State) : stack (stroke i st) = stack i.
Proof. unfold stroke. now destruct (OnStroke i). Qed.

Lemma stack_show (i : Interpreter) (t : string) (st : State) :
  stack (show i t st) = stack i.
Proof. unfold show. now destruct (OnText i). Qed.

Lemma stack_clip (i : Interpreter) (st : State) (r : FillRule) :
  exists st', stack (clip i st r) = set_top (stack i) st'.
Proof. unfold clip. eexists. destruct (OnClip i); reflexivity. Qed.

(** An operator that writes to the stack writes to its top: the states
    below the current one are those of before. *)
Definition same_lower (s s' : StateStack) : Prop :=
  s' <> [] /\ removelast s' = removelast s.

Lemma same_lower_refl (s : StateStack) : s <> [] -> same_lower s s.
Proof. now split. Qed.

Lemma same_lower_set_top (s : StateStack) (st : State) : same_lower s (set_top s st).
Proof. split; [apply set_top_nonempty | apply set_top_lower]. Qed.

Lemma same_lower_trans (s1 s2 s3 : StateStack) :
  same_lower s1 s2 -> same_lower s2 s3 -> same_lower s1 s3.
Proof. intros (_ & H1) (H2 & H3). split; [assumption | congruence]. Qed.

Ltac stack_simpl :=
  repeat first
    [ rewrite stack_with_path | rewrite stack_emit | rewrite stack_fill
    | rewrite stack_stroke | rewrite stack_show | rewrite stack_set_state ].

Lemma dispatch_same_lower (i : Interpreter) (state : State) (op : Operator) :
  Name op <> "q" -> Name op <> "Q" -> stack i <> [] ->
  same_lower (stack i) (stack (dispatch i state op)).
Proof.
  intros Hq HQ Hne. unfold dispatch. cbv zeta.
  rewrite (proj2 (String.eqb_neq _ _) Hq), (proj2 (String.eqb_neq _ _) HQ).
  repeat match goal with
         | |- context [if ?b then _ else _] => destruct b
         | |- context [match ?v with VArray _ => _ | _ => _ end] => destruct v
         end;
    unfold applyExtGState;
    try match goal with
        | |- context [clip ?i ?st ?r] => destruct (stack_clip i st r) as (? & ->)
        end;
    stack_simpl;
    solve [ apply same_lower_refl; assumption
          | apply same_lower_set_top ].
Qed.

(** *** Sequences of operators *)

Lemma Execute_nil (i : Interpreter) : fst (Execute i []) = i.
Proof. reflexivity. Qed.

Lemma Execute_cons (i : Interpreter) (op : Operator) (w : list Operator) :
  fst (Execute i (op :: w)) = fst (Execute (fst (executeOp i op)) w).
Proof. reflexivity. Qed.

Lemma Execute_app (i : Interpreter) (w1 w2 : list Operator) :
  fst (Execute i (w1 ++ w2)) = fst (Execute (fst (Execute i w1)) w2).
Proof. unfold Execute. cbn [fst]. apply fold_left_app. Qed.

Lemma executeOp_q (i : Interpreter) (op : Operator) :
  Name op = "q" -> stack i <> [] ->
  stack (fst (executeOp i op)) = stack i ++ [top (stack i)].
Proof.
  intros Hq Hne. unfold executeOp, Current. rewrite ensure_id by assumption.
  cbn [fst]. unfold dispatch. cbv zeta. rewrite Hq. cbn [String.eqb Ascii.eqb Bool.eqb].
  cbn [stack with_stack]. now apply Push_stack.
Qed.

Lemma executeOp_Q (i : Interpreter) (op : Operator) :
  Name op = "Q" -> stack i <> [] ->
  stack (fst (executeOp i op)) = Pop (stack i).
Proof.
  intros HQ Hne. unfold executeOp, Current. rewrite ensure_id by assumption.
  cbn [fst]. unfold dispatch. cbv zeta. rewrite HQ. cbn [String.eqb Ascii.eqb Bool.eqb].
  reflexivity.
Qed.

Lemma executeOp_other (i : Interpreter) (op : Operator) :
  Name op <> "q" -> Name op <> "Q" -> stack i <> [] ->
  same_lower (stack i) (stack (fst (executeOp i op))).
Proof.
  intros Hq HQ Hne. unfold executeOp, Current. rewrite ensure_id by assumption.
  cbn [fst]. apply (dispatch_same_lower (with_stack i (stack i))); assumption.
Qed.

(** The first thing [executeOp] does is [Current]: an empty stack gets a
    new state. *)
Lemma executeOp_ensure (i : Interpreter) (op : Operator) :
  executeOp i op = executeOp (with_stack i (ensure (stack i))) op.
Proof.
  unfold executeOp, Current. cbn [stack with_stack].
  rewrite (ensure_id (ensure (stack i))) by apply ensure_nonempty.
  reflexivity.
Qed.

(** Operators between a [q] and its [Q]: every [Q] in the sequence closes a
    [q] of the sequence. *)
Inductive nested : list Operator -> Prop :=
| nested_nil : nested []
| nested_other (op : Operator) (w : list Operator) :
    Name op <> "q" -> Name op <> "Q" -> nested w -> nested (op :: w)
| nested_block (q : Operator) (w : list Operator) (Q : Operator) (w' : list Operator) :
    Name q = "q" -> Name Q = "Q" -> nested w -> nested w' ->
    nested (q :: w ++ Q :: w').

(** A balanced sequence: blocks [q ... Q], of any depth of nesting, with
    any operators inside them. *)
Inductive balanced : list Operator -> Prop :=
| balanced_nil : balanced []
| balanced_block (q : Operator) (w : list Operator) (Q : Operator) (w' : list Operator) :
    Name q = "q" -> Name Q = "Q" -> nested w -> balanced w' ->
    balanced (q :: w ++ Q :: w').

Lemma block_restores (i : Interpreter) (q Q : Operator) (w : list Operator) :
  Name q = "q" -> Name Q = "Q" -> stack i <> [] ->
  (forall j, stack j <> [] -> same_lower (stack j) (stack (fst (Execute j w)))) ->
  stack (fst (Execute i (q :: w ++ [Q]))) = stack i.
Proof.
  intros Hq HQ Hne Hw.
  rewrite Execute_cons, Execute_app, Execute_cons, Execute_nil.
  set (i1 := fst (executeOp i q)).
  assert (H1 : stack i1 = stack i ++ [top (stack i)]) by now apply executeOp_q.
  assert (Hne1 : stack i1 <> []) by (rewrite H1; now destruct (stack i)).
  destruct (Hw i1 Hne1) as (Hne2 & Hlow).
  set (i2 := fst (Execute i1 w)) in *.
  rewrite executeOp_Q by assumption.
  rewrite (nonempty_snoc (stack i2) Hne2), Hlow, H1, removelast_last.
  now apply Pop_snoc.
Qed.

Lemma nested_same_lower (w : list Operator) :
  nested w ->
  forall i, stack i <> [] -> same_lower (stack i) (stack (fst (Execute i w))).
Proof.
  induction 1 as [|op w Hq HQ Hw IH|q w Q w' Hq HQ Hw IHw Hw' IHw'];
    intros i Hne.
  - now apply same_lower_refl.
  - rewrite Execute_cons.
    pose proof (executeOp_other i op Hq HQ Hne) as H1.
    eapply same_lower_trans; [exact H1|]. apply IH. apply H1.
  - replace (q :: w ++ Q :: w') with ((q :: w ++ [Q]) ++ w')
      by (simpl; now rewrite <- app_assoc).
    rewrite Execute_app.
    pose proof (block_restores i q Q w Hq HQ Hne IHw) as Hblock.
    set (i1 := fst (Execute i (q :: w ++ [Q]))) in *.
    rewrite <- Hblock. apply IHw'. now rewrite Hblock.
Qed.

Lemma balanced_restores_nonempty (w : list Operator) :
  balanced w ->
  forall i, stack i <> [] -> stack (fst (Execute i w)) = stack i.
Proof.
  induction 1 as [|q w Q w' Hq HQ Hw Hw' IHw']; intros i Hne.
  - reflexivity.
  - replace (q :: w ++ Q :: w') with ((q :: w ++ [Q]) ++ w')
      by (simpl; now rewrite <- app_assoc).
    rewrite Execute_app.
    pose proof (block_restores i q Q w Hq HQ Hne (nested_same_lower w Hw))
      as Hblock.
    rewrite IHw' by now rewrite Hblock. exact Hblock.
Qed.

Lemma Execute_ensure (i : Interpreter) (w : list Operator) :
  w <> [] ->
  fst (Execute i w) = fst (Execute (with_stack i (ensure (stack i))) w).
Proof.
  destruct w as [|op w]; [congruence|]. intros _.
  now rewrite !Execute_cons, executeOp_ensure.
Qed.

Lemma Pop_firstn (s : StateStack) :
  s <> [] -> Pop s = firstn (Nat.max 1 (length s - 1)) s.
Proof.
  intros Hne. unfold Pop. destruct (Nat.ltb 1 (length s)) eqn:E.
  - apply Nat.ltb_lt in E. rewrite removelast_firstn_len.
    f_equal. lia.
  - apply Nat.ltb_ge in E. symmetry. apply firstn_all2. lia.
Qed.

Lemma Execute_Qs (Qs : list Operator) :
  Forall (fun op => Name op = "Q") Qs ->
  forall i, stack i <> [] ->
  stack (fst (Execute i Qs)) =
  firstn (Nat.max 1 (length (stack i) - length Qs)) (stack i).
Proof.
  induction 1 as [|Q Qs HQ HQs IH]; intros i Hne.
  - rewrite Execute_nil. symmetry. apply firstn_all2. cbn [length]. lia.
  - rewrite Execute_cons.
    assert (H1 : stack (fst (executeOp i Q)) = Pop (stack i))
      by now apply executeOp_Q.
    rewrite IH by (rewrite H1; now apply Pop_nonempty).
    rewrite H1, Pop_firstn by assumption.
    assert (Hlen : (1 <= length (stack i))%nat)
      by (destruct (stack i); [congruence | simpl; lia]).
    rewrite firstn_firstn, length_firstn. simpl length. f_equal. lia.
Qed.

Lemma hd_removelast (s : StateStack) :
  (1 < length s)%nat -> hd NewState (removelast s) = hd NewState s.
Proof. destruct s as [|a [|b s]]; simpl; intros; try lia; reflexivity. Qed.

Lemma In_removelast (s : StateStack) (st : State) :
  In st (removelast s) -> In st s.
Proof.
  induction s as [|a s IH]; [tauto|].
  destruct s as [|b s]; [simpl; tauto|].
  change (removelast (a :: b :: s)) with (a :: removelast (b :: s)).
  intros [->|H]; [now left | right; now apply IH].
Qed.

Lemma top_In (s : StateStack) : s <> [] -> In (top s) s.
Proof.
  intros H. rewrite (nonempty_snoc s H) at 2.
  apply in_or_app. right. now left.
Qed.

(** Under any sequence of [q] and [Q] the stack keeps its base state and
    holds only states it held before. *)
Lemma Execute_q_Q (w : list Operator) :
  Forall (fun op => Name op = "q" \/ Name op = "Q") w ->
  forall i, stack i <> [] ->
  let s' := stack (fst (Execute i w)) in
  s' <> [] /\ hd NewState s' = hd NewState (stack i) /\
  Forall (fun st => In st (stack i)) s'.
Proof.
  induction 1 as [|op w Hop Hw IH]; intros i Hne; cbv zeta.
  - rewrite Execute_nil. split; [assumption|]. split; [reflexivity|].
    apply Forall_forall. auto.
  - rewrite Execute_cons.
    set (i1 := fst (executeOp i op)).
    assert (H1 : stack i1 <> [] /\ hd NewState (stack i1) = hd NewState (stack i) /\
                 forall st, In st (stack i1) -> In st (stack i)).
    { destruct Hop as [Hq|HQ].
      - unfold i1. rewrite executeOp_q by assumption.
        split; [now destruct (stack i)|]. split.
        + destruct (stack i); [congruence | reflexivity].
        + intros st Hin. apply in_app_or in Hin as [Hin|[<-|[]]]; [assumption|].
          now apply top_In.
      - unfold i1. rewrite executeOp_Q by assumption.
        split; [now apply Pop_nonempty|]. unfold Pop.
        destruct (Nat.ltb 1 (length (stack i))) eqn:E.
        + apply Nat.ltb_lt in E. split; [now apply hd_removelast|].
          apply In_removelast.
        + split; auto. }
    destruct H1 as (Hne1 & Hhd1 & Hin1).
    destruct (IH i1 Hne1) as (Hne2 & Hhd2 & Hin2).
    split; [assumption|]. split; [congruence|].
    rewrite Forall_forall in *. auto.
Qed.

(** C4.  After a balanced sequence of [q ... Q] blocks, of any depth and
    with any operators inside the blocks, the stack and its current state
    are those of before; the clone pushed by [q] equals the state it copies
    in every field, dash pattern and clip path included.  Followed by any
    number of further [Q], the stack is the one of before cut down to the
    states that remain, never to fewer than one; and once the further [Q]
    are as many as the states above the base, the base state is the only
    state left and the current one.  Under every sequence of [q] and [Q],
    whatever their numbers, the stack is never empty and keeps its base
    state, and from a stack of one state the current state is that state. *)
Theorem balanced_q_Q_restores_state :
  (forall s, State_Clone s = s) /\
  (forall i w, balanced w ->
     Current (stack (fst (Execute i w))) = Current (stack i)) /\
  (forall i w Qs, balanced w -> Forall (fun op => Name op = "Q") Qs ->
     ensure (stack (fst (Execute i (w ++ Qs)))) =
     firstn (Nat.max 1 (length (ensure (stack i)) - length Qs))
            (ensure (stack i))) /\
  (forall i w Qs, balanced w -> Forall (fun op => Name op = "Q") Qs ->
     (length (ensure (stack i)) <= S (length Qs))%nat ->
     Current (stack (fst (Execute i (w ++ Qs)))) =
     ([hd NewState (ensure (stack i))], hd NewState (ensure (stack i)))) /\
  (forall i w, Forall (fun op => Name op = "q" \/ Name op = "Q") w ->
     stack i <> [] ->
     stack (fst (Execute i w)) <> [] /\
     hd NewState (stack (fst (Execute i w))) = hd NewState (stack i)) /\
  (forall i w base, Forall (fun op => Name op = "q" \/ Name op = "Q") w ->
     stack i = [base] ->
     snd (Current (stack (fst (Execute i w)))) = base).
Proof.
  assert (HA : forall i w, balanced w ->
            ensure (stack (fst (Execute i w))) = ensure (stack i)).
  { intros i w Hw. destruct w as [|op w].
    - reflexivity.
    - rewrite Execute_ensure by discriminate.
      rewrite (balanced_restores_nonempty _ Hw) by apply ensure_nonempty.
      cbn [stack with_stack]. apply ensure_id, ensure_nonempty. }
  assert (HB : forall i w Qs, balanced w -> Forall (fun op => Name op = "Q") Qs ->
            ensure (stack (fst (Execute i (w ++ Qs)))) =
            firstn (Nat.max 1 (length (ensure (stack i)) - length Qs))
                   (ensure (stack i))).
  { intros i w Qs Hw HQs. rewrite Execute_app.
    set (i1 := fst (Execute i w)). rewrite <- (HA i w Hw). fold i1.
    destruct Qs as [|Q Qs].
    - rewrite Execute_nil. symmetry. apply firstn_all2. cbn [length]. lia.
    - rewrite Execute_ensure by discriminate.
      rewrite (Execute_Qs _ HQs) by apply ensure_nonempty.
      cbn [stack with_stack]. apply ensure_id.
      destruct (ensure (stack i1)) as [|st0 l] eqn:E;
        [now apply ensure_nonempty in E|].
      cbn [length].
      destruct (Nat.max 1 (S (length l) - S (length Qs))) eqn:Em; [lia|].
      discriminate. }
  split; [exact State_Clone_eq|]. split; [|split; [|split; [|split]]].
  - intros i w Hw. unfold Current. now rewrite (HA i w Hw).
  - exact HB.
  - intros i w Qs Hw HQs Hdepth. unfold Current. rewrite (HB i w Qs Hw HQs).
    replace (Nat.max 1 (length (ensure (stack i)) - length Qs)) with 1%nat by lia.
    destruct (ensure (stack i)) eqn:E; [now apply ensure_nonempty in E|].
    reflexivity.
  - intros i w Hw Hne. destruct (Execute_q_Q w Hw i Hne) as (H1 & H2 & _).
    now split.
  - intros i w base Hw Hbase.
    destruct (Execute_q_Q w Hw i) as (Hne & _ & Hin);
      [rewrite Hbase; discriminate|].
    unfold Current. cbn [snd]. rewrite ensure_id by assumption.
    rewrite Forall_forall in Hin. rewrite Hbase in Hin.
    assert (Htop : In (top (stack (fst (Execute i w)))) [base]).
    { apply Hin. now apply top_In. }
    destruct Htop as [<-|[]]. reflexivity.
Qed.

(** ** Properties of the interpreter *)

(** [Interpreter.State]: the current state. *)
Definition state_of (i : Interpreter) : State := snd (Current (stack i)).

Lemma with_stack_id (i : Interpreter) : with_stack i (stack i) = i.
Proof. now destruct i. Qed.

Lemma state_of_set_state (i : Interpreter) (st : State) :
  state_of (set_state i st) = st.
Proof.
  unfold state_of, Current. cbn [snd]. rewrite stack_set_state.
  rewrite ensure_id by apply set_top_nonempty. apply top_set_top.
Qed.

Lemma state_of_show (i : Interpreter) (t : string) (st : State) :
  state_of (show i t st) = state_of i.
Proof. unfold state_of. now rewrite stack_show. Qed.

Lemma state_of_with_stack_ensure (i : Interpreter) :
  state_of (with_stack i (ensure (stack i))) = state_of i.
Proof.
  unfold state_of, Current. cbn [snd stack with_stack].
  now rewrite (ensure_id (ensure (stack i))) by apply ensure_nonempty.
Qed.

Lemma len_ge (A : Type) (l : list A) (n : nat) :
  (n <= length l)%nat -> Z.leb (Z.of_nat n) (len l) = true.
Proof. intros H. apply Z.leb_le. unfold len. lia. Qed.

(** The [cm] operator as the code has it: the new matrix is the right
    operand of [Multiply]. *)
Lemma executeOp_cm (i : Interpreter) (a b c d e f : Value) (rest : list Value) :
  CTM (state_of (fst (executeOp i (mkOperator "cm" (a :: b :: c :: d :: e :: f :: rest))))) =
  Multiply (CTM (state_of i))
    (mkMatrix (toFloat a) (toFloat b) (toFloat c) (toFloat d) (toFloat e) (toFloat f)).
Proof.
  unfold executeOp. cbn [Current fst snd]. unfold dispatch. cbv zeta.
  cbn [Name Operands String.eqb Ascii.eqb Bool.eqb nth].
  rewrite (len_ge _ _ 6) by (simpl; lia).
  rewrite state_of_set_state. reflexivity.
Qed.

(** C8.  [Td tx ty] sets the line matrix to the product Translate x
    LineMatrix of the row-vector convention, and the text matrix to the new
    line matrix.  With the rows [1 0 0], [0 1 0], [tx ty 1] of the
    translation and the rows [a b 0], [c d 0], [e f 1] of the line matrix,
    the entries of the new line matrix are, in the arithmetic of float64,
    [1 a + 0 c], [1 b + 0 d], [0 a + 1 c], [0 b + 1 d],
    [tx a + ty c + e] and [tx b + ty d + f]: the translation is applied
    before the line matrix.  This is what [Multiply] returns for
    [Translate tx ty] and the line matrix, in this order.  [TD] does the
    same after setting the leading to [-ty]; the operators T-star, quote
    and double-quote do the same with the translation [(0, -Leading)]. *)
Theorem text_line_matrix_premultiplied (i : Interpreter) :
  let before := TextState_ (state_of i) in
  let after op := TextState_ (state_of (fst (executeOp i op))) in
  let L := LineMatrix before in
  let product (tx ty : float) : Matrix float :=
    mkMatrix (1 * m0 L + 0 * m2 L)%float (1 * m1 L + 0 * m3 L)%float
             (0 * m0 L + 1 * m2 L)%float (0 * m1 L + 1 * m3 L)%float
             (tx * m0 L + ty * m2 L + m4 L)%float
             (tx * m1 L + ty * m3 L + m5 L)%float in
  (forall tx ty rest,
     let t := after (mkOperator "Td" (tx :: ty :: rest)) in
     LineMatrix t = product (toFloat tx) (toFloat ty) /\
     LineMatrix t = Multiply (Translate (toFloat tx) (toFloat ty)) L /\
     TextMatrix t = LineMatrix t) /\
  (forall tx ty rest,
     let t := after (mkOperator "TD" (tx :: ty :: rest)) in
     LineMatrix t = product (toFloat tx) (toFloat ty) /\
     LineMatrix t = Multiply (Translate (toFloat tx) (toFloat ty)) L /\
     TextMatrix t = LineMatrix t /\
     Leading t = (- toFloat ty)%float) /\
  (forall operands,
     let t := after (mkOperator "T*" operands) in
     LineMatrix t = product 0%float (- Leading before)%float /\
     LineMatrix t = Multiply (Translate 0%float (- Leading before)%float) L /\
     TextMatrix t = LineMatrix t) /\
  (forall operands,
     let t := after (mkOperator "'" operands) in
     LineMatrix t = product 0%float (- Leading before)%float /\
     LineMatrix t = Multiply (Translate 0%float (- Leading before)%float) L /\
     TextMatrix t = LineMatrix t) /\
  (forall aw ac text rest,
     let t := after (mkOperator dquote (aw :: ac :: text :: rest)) in
     LineMatrix t = product 0%float (- Leading before)%float /\
     LineMatrix t = Multiply (Translate 0%float (- Leading before)%float) L /\
     TextMatrix t = LineMatrix t).
Proof.
  cbv zeta. unfold executeOp. cbn [Current fst snd]. unfold dispatch. cbv zeta.
  cbn [Name Operands]. fold (state_of i).
  repeat split; intros;
    cbn [String.eqb Ascii.eqb Bool.eqb orb nth dquote];
    try rewrite (len_ge _ _ 2) by (simpl; lia);
    try rewrite (len_ge _ _ 3) by (simpl; lia);
    try match goal with
        | |- context [if Z.leb 1 ?n then _ else _] => destruct (Z.leb 1 n)
        end;
    rewrite ?state_of_show, state_of_set_state; reflexivity.
Qed.

(** *** Unknown operators *)

(** The names of the [case] clauses of [executeOp]. *)
Definition known_operators : list string :=
  [ "q"; "Q"; "cm"; "w"; "J"; "j"; "M"; "d"; "ri"; "i"; "gs";
    "m"; "l"; "c"; "v"; "y"; "h"; "re";
    "S"; "s"; "f"; "F"; "f*"; "B"; "B*"; "b"; "b*"; "n";
    "W"; "W*";
    "CS"; "cs"; "SC"; "SCN"; "sc"; "scn"; "G"; "g"; "RG"; "rg"; "K"; "k";
    "BT"; "ET"; "Tc"; "Tw"; "Tz"; "TL"; "Tf"; "Tr"; "Ts";
    "Td"; "TD"; "Tm"; "T*"; "Tj"; "TJ"; "'"; dquote; "Do" ].

Lemma dispatch_unknown (i : Interpreter) (state : State) (op : Operator) :
  ~ In (Name op) known_operators -> dispatch i state op = i.
Proof.
  intros Hunknown. unfold dispatch. cbv zeta.
  repeat match goal with
         | |- context [String.eqb (Name op) ?x] =>
             rewrite (proj2 (String.eqb_neq (Name op) x))
               by (intros E; apply Hunknown; rewrite E; simpl; tauto)
         end.
  reflexivity.
Qed.

Lemma executeOp_nonempty (i : Interpreter) (op : Operator) :
  stack (fst (executeOp i op)) <> [].
Proof.
  rewrite executeOp_ensure.
  set (j := with_stack i (ensure (stack i))).
  assert (Hj : stack j <> []) by apply ensure_nonempty.
  destruct (string_dec (Name op) "q") as [Hq|Hq].
  - rewrite executeOp_q by assumption. now destruct (stack j).
  - destruct (string_dec (Name op) "Q") as [HQ|HQ].
    + rewrite executeOp_Q by assumption. now apply Pop_nonempty.
    + apply (executeOp_other j op Hq HQ Hj).
Qed.

Lemma Execute_nonempty (w : list Operator) (i : Interpreter) :
  stack i <> [] -> stack (fst (Execute i w)) <> [].
Proof.
  revert i. induction w as [|op w IH]; intros i Hne; [assumption|].
  rewrite Execute_cons. apply IH, executeOp_nonempty.
Qed.

(** *** The operator loop of the parser *)

Lemma parse_loop_operands (args rest : list string) (ops : list Operator)
  (operands : list Value) :
  Forall (fun tok => isOperator tok = false) args ->
  parse_loop (args ++ rest) ops operands =
  parse_loop rest ops (operands ++ map parseOperand args).
Proof.
  intros Hargs. revert operands.
  induction Hargs as [|tok args Htok Hargs IH]; intros operands.
  - now rewrite app_nil_r.
  - cbn [app parse_loop map]. rewrite Htok, IH, <- app_assoc. reflexivity.
Qed.

(** An operator with the operand tokens written before it. *)
Definition group_tokens (g : list string * string) : list string :=
  fst g ++ [snd g].

Definition group_operator (g : list string * string) : Operator :=
  mkOperator (snd g) (map parseOperand (fst g)).

Definition group_ok (g : list string * string) : Prop :=
  Forall (fun tok => isOperator tok = false) (fst g) /\ isOperator (snd g) = true.

Lemma parse_loop_groups (groups : list (list string * string))
  (trailing : list string) (ops : list Operator) :
  Forall group_ok groups ->
  Forall (fun tok => isOperator tok = false) trailing ->
  parse_loop (concat (map group_tokens groups) ++ trailing) ops [] =
  ops ++ map group_operator groups.
Proof.
  intros Hgroups Htrailing. revert ops.
  induction Hgroups as [|[args name] groups (Hargs & Hname) Hgroups IH];
    intros ops.
  - cbn [map concat app]. rewrite <- (app_nil_r trailing).
    rewrite parse_loop_operands by assumption. now rewrite app_nil_r.
  - cbn [map concat]. unfold group_tokens at 1. cbn [fst snd] in *.
    rewrite <- !app_assoc. rewrite parse_loop_operands by assumption.
    cbn [app parse_loop]. rewrite Hname, IH, <- app_assoc. reflexivity.
Qed.

(** C9.  An operator whose name is none of the names of [executeOp] is
    skipped: [executeOp] returns no error and leaves the current state, the
    stack, the path and the trace of callbacks as they are (an empty stack
    gets its initial state, as for every operator), and [Execute] gives
    what it gives without that operator.  The parser hands every operator
    the operands read since the operator before it, whatever the name of
    the operator: the operand list is cleared after each one. *)
Theorem unknown_operators_skipped :
  (forall i op, ~ In (Name op) known_operators ->
     executeOp i op = (with_stack i (ensure (stack i)), None)) /\
  (forall i op, ~ In (Name op) known_operators -> stack i <> [] ->
     executeOp i op = (i, None)) /\
  (forall i w1 op w2, ~ In (Name op) known_operators -> stack i <> [] ->
     Execute i (w1 ++ op :: w2) = Execute i (w1 ++ w2)) /\
  (forall groups trailing,
     Forall group_ok groups ->
     Forall (fun tok => isOperator tok = false) trailing ->
     parse_loop (concat (map group_tokens groups) ++ trailing) [] [] =
     map group_operator groups).
Proof.
  assert (H1 : forall i op, ~ In (Name op) known_operators ->
            executeOp i op = (with_stack i (ensure (stack i)), None)).
  { intros i op Hunknown. unfold executeOp. cbn [Current].
    now rewrite dispatch_unknown. }
  assert (H2 : forall i op, ~ In (Name op) known_operators -> stack i <> [] ->
            executeOp i op = (i, None)).
  { intros i op Hunknown Hne. rewrite H1 by assumption.
    now rewrite ensure_id, with_stack_id. }
  split; [exact H1|]. split; [exact H2|]. split.
  - intros i w1 op w2 Hunknown Hne. unfold Execute. f_equal.
    rewrite !fold_left_app. cbn [fold_left].
    change (fold_left (fun i op => fst (executeOp i op)) w1 i)
      with (fst (Execute i w1)).
    rewrite H2; [reflexivity|assumption|now apply Execute_nonempty].
  - intros groups trailing Hg Ht.
    now rewrite parse_loop_groups by assumption.
Qed.


(** *** Operators that stand for a sequence of operators *)

(** [executeOp] on a stack that holds a state: the switch runs on the
    state on top. *)
Lemma executeOp_dispatch (i : Interpreter) (op : Operator) :
  stack i <> [] -> fst (executeOp i op) = dispatch i (top (stack i)) op.
Proof.
  intros H. unfold executeOp, Current. rewrite ensure_id by assumption.
  now rewrite with_stack_id.
Qed.

Lemma executeOp_after_set_state (i : Interpreter) (st : State) (op : Operator) :
  fst (executeOp (set_state i st) op) = dispatch (set_state i st) st op.
Proof.
  rewrite executeOp_dispatch by (rewrite stack_set_state; apply set_top_nonempty).
  now rewrite stack_set_state, top_set_top.
Qed.

Lemma set_state_twice (i : Interpreter) (a b : State) :
  set_state (set_state i a) b = set_state i b.
Proof.
  unfold set_state, with_stack. cbn [stack path OnFill OnStroke OnClip OnText OnImage events].
  unfold set_top at 1. now rewrite set_top_lower.
Qed.

Lemma show_set_state (i : Interpreter) (a b : State) (t : string) (st : State) :
  OnText (set_state i a) = OnText i.
Proof. reflexivity. Qed.

(** The start of [executeOp]: the interpreter with a state on its stack,
    and that state. *)
Definition entered (i : Interpreter) : Interpreter := with_stack i (ensure (stack i)).

Lemma executeOp_entered (i : Interpreter) (op : Operator) :
  fst (executeOp i op) = dispatch (entered i) (state_of i) op.
Proof. reflexivity. Qed.

Ltac run_dispatch :=
  unfold dispatch; cbv zeta;
  cbn [Name Operands String.eqb Ascii.eqb Bool.eqb orb nth dquote toFloat toString];
  repeat rewrite (len_ge _ _ 1) by (simpl; lia);
  repeat rewrite (len_ge _ _ 2) by (simpl; lia);
  repeat rewrite (len_ge _ _ 3) by (simpl; lia);
  repeat rewrite (len_ge _ _ 4) by (simpl; lia).

(** [TD] is [TL] with the negated second operand followed by [Td]; T-star
    is [Td] by [(0, -Leading)]; quote is T-star followed by [Tj]; and
    double-quote is [Tw], [Tc] and quote. *)
Theorem text_operator_shorthands (i : Interpreter) :
  (forall tx ty rest,
     fst (Execute i [mkOperator "TD" (tx :: ty :: rest)]) =
     fst (Execute i [mkOperator "TL" [VFloat64 (- toFloat ty)%float];
                     mkOperator "Td" (tx :: ty :: rest)])) /\
  (forall operands,
     fst (Execute i [mkOperator "T*" operands]) =
     fst (Execute i [mkOperator "Td"
                       [VFloat64 0%float;
                        VFloat64 (- Leading (TextState_ (state_of i)))%float]])) /\
  (forall text rest,
     fst (Execute i [mkOperator "'" (text :: rest)]) =
     fst (Execute i [mkOperator "T*" []; mkOperator "Tj" (text :: rest)])) /\
  (forall aw ac text rest,
     fst (Execute i [mkOperator dquote (aw :: ac :: text :: rest)]) =
     fst (Execute i [mkOperator "Tw" [aw]; mkOperator "Tc" [ac];
                     mkOperator "'" [text]])).
Proof.
  repeat split; intros; rewrite ?Execute_cons, !Execute_nil;
    rewrite !(executeOp_entered i); run_dispatch;
    repeat (rewrite executeOp_after_set_state; run_dispatch);
    now rewrite ?set_state_twice.
Qed.

Lemma executeOp_after_with_path (i : Interpreter) (p : Path) (op : Operator) :
  fst (executeOp (with_path (entered i) p) op) =
  dispatch (with_path (entered i) p) (state_of i) op.
Proof.
  rewrite executeOp_dispatch by (cbn [stack with_path entered with_stack]; apply ensure_nonempty).
  reflexivity.
Qed.

(** The painting operators that close the path first are [h] followed by
    the operator that does not: [s] is [h S], [b] is [h B] and b-star is
    [h] B-star; [F] is [f]. *)
Theorem closing_paint_operators (i : Interpreter) (operands : list Value) :
  fst (Execute i [mkOperator "s" operands]) =
    fst (Execute i [mkOperator "h" []; mkOperator "S" []]) /\
  fst (Execute i [mkOperator "b" operands]) =
    fst (Execute i [mkOperator "h" []; mkOperator "B" []]) /\
  fst (Execute i [mkOperator "b*" operands]) =
    fst (Execute i [mkOperator "h" []; mkOperator "B*" []]) /\
  fst (Execute i [mkOperator "F" operands]) =
    fst (Execute i [mkOperator "f" []]).
Proof.
  repeat split; rewrite ?Execute_cons, !Execute_nil;
    rewrite !(executeOp_entered i); run_dispatch;
    try (rewrite executeOp_after_with_path; run_dispatch);
    reflexivity.
Qed.

(** Every painting operator, and [n], leaves the current path empty and the
    stack of states as it was. *)
Theorem paint_operators_clear_path (i : Interpreter) (op : Operator) :
  In (Name op) ["S"; "s"; "f"; "F"; "f*"; "B"; "B*"; "b"; "b*"; "n"] ->
  path (fst (executeOp i op)) = NewPath /\
  stack (fst (executeOp i op)) = ensure (stack i).
Proof.
  intros Hname. rewrite executeOp_entered.
  destruct op as [name operands]. cbn [Name] in Hname.
  cbn [In] in Hname.
  repeat match goal with
         | H : _ \/ _ |- _ => destruct H as [<-|H]
         | H : False |- _ => destruct H
         end;
    run_dispatch; cbn [path with_path];
    rewrite ?stack_with_path, ?stack_stroke, ?stack_fill, ?stack_with_path;
    split; reflexivity.
Qed.

(** The colour operators of the device spaces select the colour space and
    then set the colour: [g] is [cs] with DeviceGray followed by [sc], [rg]
    and [k] the same with DeviceRGB and DeviceCMYK, and [G], [RG] and [K]
    the same for stroking with [CS] and [SC]. *)
Theorem device_colour_operators (i : Interpreter) :
  (forall x rest,
     fst (Execute i [mkOperator "g" (x :: rest)]) =
     fst (Execute i [mkOperator "cs" [VString ColorSpaceDeviceGray];
                     mkOperator "sc" (x :: rest)])) /\
  (forall r g b rest,
     fst (Execute i [mkOperator "rg" (r :: g :: b :: rest)]) =
     fst (Execute i [mkOperator "cs" [VString ColorSpaceDeviceRGB];
                     mkOperator "sc" (r :: g :: b :: rest)])) /\
  (forall c m y k rest,
     fst (Execute i [mkOperator "k" (c :: m :: y :: k :: rest)]) =
     fst (Execute i [mkOperator "cs" [VString ColorSpaceCMYK];
                     mkOperator "sc" (c :: m :: y :: k :: rest)])) /\
  (forall x rest,
     fst (Execute i [mkOperator "G" (x :: rest)]) =
     fst (Execute i [mkOperator "CS" [VString ColorSpaceDeviceGray];
                     mkOperator "SC" (x :: rest)])) /\
  (forall r g b rest,
     fst (Execute i [mkOperator "RG" (r :: g :: b :: rest)]) =
     fst (Execute i [mkOperator "CS" [VString ColorSpaceDeviceRGB];
                     mkOperator "SC" (r :: g :: b :: rest)])) /\
  (forall c m y k rest,
     fst (Execute i [mkOperator "K" (c :: m :: y :: k :: rest)]) =
     fst (Execute i [mkOperator "CS" [VString ColorSpaceCMYK];
                     mkOperator "SC" (c :: m :: y :: k :: rest)])).
Proof.
  repeat split; intros; rewrite ?Execute_cons, !Execute_nil;
    rewrite !(executeOp_entered i); run_dispatch;
    rewrite executeOp_after_set_state; run_dispatch;
    unfold parseColor;
    cbn [FillColorSpace StrokeColorSpace set_FillColorSpace set_StrokeColorSpace
         ColorSpaceDeviceGray ColorSpaceDeviceRGB ColorSpaceCMYK
         String.eqb Ascii.eqb Bool.eqb nth];
    try rewrite (len_ge _ _ 1) by (simpl; lia);
    try rewrite (len_ge _ _ 3) by (simpl; lia);
    try rewrite (len_ge _ _ 4) by (simpl; lia);
    now rewrite set_state_twice.
Qed.

(** The number [k] of the test [len(op.Operands) >= k] that encloses the
    whole case of the operator in [executeOp], and 0 for a case that is not
    enclosed by such a test.  The cases without a test are those of the
    operators that read no operand, and those of [SC], [SCN], [sc], [scn]
    and quote, which read their operands behind tests of their own
    ([parseColor], and the test before [OnText]). *)
Definition guarded_operands (name : string) : Z :=
  if existsb (String.eqb name) ["cm"; "c"; "Tm"] then 6
  else if existsb (String.eqb name) ["v"; "y"; "re"; "K"; "k"] then 4
  else if existsb (String.eqb name) ["RG"; "rg"; dquote] then 3
  else if existsb (String.eqb name) ["d"; "m"; "l"; "Tf"; "Td"; "TD"] then 2
  else if existsb (String.eqb name)
            ["w"; "J"; "j"; "M"; "ri"; "i"; "gs"; "CS"; "cs"; "G"; "g";
             "Tc"; "Tw"; "Tz"; "TL"; "Tr"; "Ts"; "Tj"; "TJ"; "Do"] then 1
  else 0.

(** The number of operands that [parseColor] reads for a colour space; for
    a space that is none of the three device spaces it reads none and
    returns black. *)
Definition colour_components (space : ColorSpace) : Z :=
  if String.eqb space ColorSpaceDeviceGray then 1
  else if String.eqb space ColorSpaceDeviceRGB then 3
  else if String.eqb space ColorSpaceCMYK then 4
  else 0.

Lemma parseColor_short (space : ColorSpace) (operands : list Value) :
  len operands < colour_components space -> parseColor space operands = Black.
Proof.
  unfold colour_components, parseColor. intros Hshort.
  destruct (String.eqb space ColorSpaceDeviceGray);
    [|destruct (String.eqb space ColorSpaceDeviceRGB);
      [|destruct (String.eqb space ColorSpaceCMYK)]];
    try reflexivity;
    match goal with
    | |- context [Z.leb ?k (len operands)] =>
        replace (Z.leb k (len operands)) with false
          by (symmetry; apply Z.leb_gt; lia)
    end; reflexivity.
Qed.

(** What an operator does when it comes with too few operands.  An operator
    whose case is enclosed by the test [len(op.Operands) >= k] is skipped
    when it has fewer than [k] operands: the interpreter is the one of
    before.  The operators that read operands without such a test are not
    skipped: [sc] and [scn], with fewer operands than the fill colour
    space has components, set the fill colour to black, and [SC] and [SCN]
    the stroke colour; quote without an operand still moves to the next
    line, as T-star does, and shows no text. *)
Theorem operators_with_short_operands (i : Interpreter) :
  (forall op,
     len (Operands op) < guarded_operands (Name op) ->
     fst (executeOp i op) = entered i) /\
  (forall name operands,
     In name ["sc"; "scn"] ->
     len operands < colour_components (FillColorSpace (state_of i)) ->
     fst (executeOp i (mkOperator name operands)) =
     set_state (entered i) (set_FillColor (state_of i) Black)) /\
  (forall name operands,
     In name ["SC"; "SCN"] ->
     len operands < colour_components (StrokeColorSpace (state_of i)) ->
     fst (executeOp i (mkOperator name operands)) =
     set_state (entered i) (set_StrokeColor (state_of i) Black)) /\
  fst (executeOp i (mkOperator "'" [])) =
    set_state (entered i) (next_line (state_of i)) /\
  fst (executeOp i (mkOperator "'" [])) = fst (executeOp i (mkOperator "T*" [])).
Proof.
  split; [|split; [|split; [|split]]].
  - intros op Hshort. rewrite executeOp_entered.
    generalize (entered i) (state_of i).
    intros j state. destruct op as [name operands]. cbn [Name Operands] in *.
    pose proof (len_nonneg operands) as Hlen.
    unfold guarded_operands in Hshort. unfold dispatch. cbv zeta.
    cbn [Name Operands existsb] in *.
    repeat match goal with
           | |- context [String.eqb name ?x] =>
               destruct (String.eqb_spec name x) as [->|?];
               [ cbn [String.eqb Ascii.eqb Bool.eqb orb] in Hshort |- *;
                 repeat match goal with
                        | |- context [Z.leb ?k (len operands)] =>
                            replace (Z.leb k (len operands)) with false
                              by (symmetry; apply Z.leb_gt; lia)
                        end;
                 try reflexivity; exfalso; lia
               | ]
           end.
    cbn [orb] in *. reflexivity.
  - intros name operands Hname Hshort. rewrite executeOp_entered.
    cbn [In] in Hname. destruct Hname as [<-|[<-|[]]];
      unfold dispatch; cbv zeta;
      cbn [Name Operands String.eqb Ascii.eqb Bool.eqb orb];
      now rewrite parseColor_short.
  - intros name operands Hname Hshort. rewrite executeOp_entered.
    cbn [In] in Hname. destruct Hname as [<-|[<-|[]]];
      unfold dispatch; cbv zeta;
      cbn [Name Operands String.eqb Ascii.eqb Bool.eqb orb];
      now rewrite parseColor_short.
  - rewrite executeOp_entered. reflexivity.
  - rewrite !executeOp_entered. reflexivity.
Qed.


(** *** The stack of states *)

(** [Push] followed by [Pop] gives back the stack, with a state on it when
    it was empty; the state that [Push] adds is the current one; and [Pop]
    takes a state off only when more than one is left, so that a stack that
    holds a state never becomes empty. *)
Theorem StateStack_Push_Pop (s : StateStack) :
  Pop (Push s) = ensure s /\
  top (Push s) = top (ensure s) /\
  Depth (Push s) = Depth (ensure s) + 1 /\
  Depth (Pop s) = (if Z.leb (Depth s) 1 then Depth s else Depth s - 1) /\
  (Pop s = [] <-> s = []).
Proof.
  assert (Hpush : Push s = ensure s ++ [top (ensure s)]).
  { unfold Push, Current. now rewrite State_Clone_eq. }
  split; [|split; [|split; [|split]]].
  - rewrite Hpush. apply Pop_snoc, ensure_nonempty.
  - rewrite Hpush. apply top_snoc.
  - rewrite Hpush. unfold Depth. rewrite len_app. reflexivity.
  - unfold Pop, Depth, len. destruct (Nat.ltb_spec 1 (length s)) as [Hmore|Hone].
    + replace (Z.leb (Z.of_nat (length s)) 1) with false
        by (symmetry; apply Z.leb_gt; lia).
      destruct s as [|a s]; [simpl in *; lia|].
      assert (E : a :: s = removelast (a :: s) ++ [last (a :: s) a])
        by (apply app_removelast_last; discriminate).
      rewrite E at 2. rewrite length_app. cbn [length]. lia.
    + now replace (Z.leb (Z.of_nat (length s)) 1) with true
        by (symmetry; apply Z.leb_le; lia).
  - split.
    + intros E. destruct s as [|a s]; [reflexivity|].
      exfalso. apply (Pop_nonempty (a :: s)); [discriminate|assumption].
    + now intros ->.
Qed.


(** *** String operands, from the bytes of the stream to the operand *)

Lemma append_assoc_string (a b c : string) :
  ((a ++ b) ++ c = a ++ (b ++ c))%string.
Proof. induction a as [|x a IH]; cbn; [reflexivity|now rewrite IH]. Qed.

Lemma list_ascii_of_string_append (a b : string) :
  list_ascii_of_string (a ++ b)%string =
  list_ascii_of_string a ++ list_ascii_of_string b.
Proof. induction a as [|x a IH]; cbn; [reflexivity|now rewrite IH]. Qed.

Lemma string_of_list_ascii_app (a b : list ascii) :
  string_of_list_ascii (a ++ b) =
  (string_of_list_ascii a ++ string_of_list_ascii b)%string.
Proof. induction a as [|x a IH]; cbn; [reflexivity|now rewrite IH]. Qed.

Lemma length_append (a b : string) :
  String.length (a ++ b)%string = (String.length a + String.length b)%nat.
Proof. induction a as [|x a IH]; cbn; [reflexivity|now rewrite IH]. Qed.

Lemma substring_prefix (a b : string) :
  substring 0 (String.length a) (a ++ b)%string = a.
Proof.
  induction a as [|x a IH]; cbn.
  - now destruct b.
  - now rewrite IH.
Qed.

Lemma last_char_append (a : string) (c : ascii) :
  last_char (a ++ String c "")%string = Some c.
Proof.
  induction a as [|x a IH]; [reflexivity|].
  cbn [append last_char]. rewrite IH.
  destruct (a ++ String c "")%string eqn:E; [|reflexivity].
  destruct a; discriminate.
Qed.

Lemma tokenize_in_string_plain (c : ascii) (rest : list ascii) (tokens : list string)
  (current : string) (depth : Z) (inHex : bool) :
  chr_is c "\" = false -> chr_is c "(" = false -> chr_is c ")" = false ->
  tokenize_loop (c :: rest) tokens current true depth inHex =
  tokenize_loop rest tokens (snoc current c) true depth inHex.
Proof.
  intros H1 H2 H3. simp tokenize_loop. rewrite H1.
  unfold tokenize_loop_unfold_clause_2_clause_1. cbv zeta.
  rewrite H2, H3. now simp tokenize_loop.
Qed.

Lemma tokenize_in_string_escaped (c : ascii) (rest : list ascii) (tokens : list string)
  (current : string) (depth : Z) (inHex : bool) :
  tokenize_loop ("\"%char :: c :: rest) tokens current true depth inHex =
  tokenize_loop rest tokens (snoc (snoc current "\") c) true depth inHex.
Proof.
  simp tokenize_loop. change (chr_is "\" "\") with true.
  unfold tokenize_loop_unfold_clause_2_clause_1. now simp tokenize_loop.
Qed.

Lemma tokenize_in_string_close (rest : list ascii) (tokens : list string)
  (current : string) (inHex : bool) :
  tokenize_loop (")"%char :: rest) tokens current true 1 inHex =
  tokenize_loop rest (tokens ++ [snoc current ")"]) "" false 0 inHex.
Proof.
  simp tokenize_loop. change (chr_is ")" "\") with false.
  unfold tokenize_loop_unfold_clause_2_clause_1. cbv zeta.
  change (chr_is ")" "(") with false. change (chr_is ")" ")") with true.
  cbn [Z.sub Z.add Z.opp Z.pos_sub Z.eqb]. now simp tokenize_loop.
Qed.

Lemma tokenize_in_hex (c : ascii) (rest : list ascii) (tokens : list string)
  (current : string) (depth : Z) :
  tokenize_loop (c :: rest) tokens current false depth true =
  if chr_is c ">"
  then tokenize_loop rest (tokens ++ [snoc current c]) "" false depth false
  else tokenize_loop rest tokens (snoc current c) false depth true.
Proof. now simp tokenize_loop. Qed.

(** After a string: a space, the operator [Tj], and the end of the input. *)
Lemma tokenize_Tj (tokens : list string) (depth : Z) :
  tokenize_loop [" "; "T"; "j"]%char tokens "" false depth false = tokens ++ ["Tj"].
Proof.
  simp tokenize_loop. cbn. simp tokenize_loop. cbn. simp tokenize_loop. cbn.
  now simp tokenize_loop.
Qed.

Lemma snoc_append (current : string) (c : ascii) (s : string) :
  (snoc current c ++ s = current ++ String c s)%string.
Proof. unfold snoc. now rewrite append_assoc_string. Qed.

Lemma tokenize_escaped (l : list ascii) :
  forall rest tokens current inHex,
    tokenize_loop (flat_map escape_char l ++ rest) tokens current true 1 inHex =
    tokenize_loop rest tokens
      (current ++ string_of_list_ascii (flat_map escape_char l)) true 1 inHex.
Proof.
  induction l as [|c l IH]; intros rest tokens current inHex.
  - cbn. f_equal. clear. induction current as [|x s IH]; cbn; [reflexivity|now rewrite <- IH].
  - cbn [flat_map]. unfold escape_char at 1 3.
    destruct (chr_is c "\" || chr_is c "(" || chr_is c ")") eqn:E.
    + cbn [app]. rewrite tokenize_in_string_escaped, IH.
      cbn [string_of_list_ascii]. now rewrite !snoc_append.
    + apply orb_false_elim in E. destruct E as [E E3].
      apply orb_false_elim in E. destruct E as [E1 E2].
      cbn [app]. rewrite tokenize_in_string_plain, IH by assumption.
      cbn [string_of_list_ascii]. now rewrite snoc_append.
Qed.

Lemma decodeString_escaped (l : list ascii) :
  decodeString_loop (flat_map escape_char l) = string_of_list_ascii l.
Proof.
  induction l as [|c l IH]; [reflexivity|].
  cbn [flat_map]. unfold escape_char at 1.
  destruct (chr_is c "\" || chr_is c "(" || chr_is c ")") eqn:E.
  - cbn [app decodeString_loop]. change (chr_is "\" "\") with true. cbv iota.
    assert (Hc : c = "\"%char \/ c = "("%char \/ c = ")"%char).
    { unfold chr_is in E.
      destruct (Ascii.eqb_spec c "\"); [auto|].
      destruct (Ascii.eqb_spec c "("); [auto|].
      destruct (Ascii.eqb_spec c ")"); [auto|discriminate]. }
    destruct Hc as [-> | [-> | ->]]; cbn; now rewrite IH.
  - apply orb_false_elim in E. destruct E as [E _].
    apply orb_false_elim in E. destruct E as [E1 _].
    cbn [app decodeString_loop]. rewrite E1. cbn [string_of_list_ascii].
    now rewrite IH.
Qed.

Lemma hex_pairs_ok (c : ascii) : hex_pair_ok c = true.
Proof. destruct c as [[ | ] [ | ] [ | ] [ | ] [ | ] [ | ] [ | ] [ | ]]; vm_compute; reflexivity. Qed.

Lemma hex_pair_facts (c : ascii) :
  exists h1 h2 hi lo,
    hex_of_char c = [h1; h2] /\
    chr_is h1 ">" = false /\ chr_is h2 ">" = false /\
    isSpace h1 = false /\ isSpace h2 = false /\
    hex_nibble h1 = Some hi /\ hex_nibble h2 = Some lo /\
    ascii_of_nat (Z.to_nat (Z.lor (wrap8 (hi * 16)) lo)) = c.
Proof.
  pose proof (hex_pairs_ok c) as H. unfold hex_pair_ok in H.
  unfold hex_of_char in *.
  set (h1 := hex_char (code c / 16)) in *. set (h2 := hex_char (code c mod 16)) in *.
  repeat (apply andb_prop in H; destruct H as [H ?]).
  destruct (hex_nibble h1) as [hi|] eqn:E1; [|discriminate].
  destruct (hex_nibble h2) as [lo|] eqn:E2; [|discriminate].
  exists h1, h2, hi, lo.
  repeat match goal with
         | E : negb _ = true |- _ => apply negb_true_iff in E
         end.
  match goal with
  | E : Ascii.eqb _ c = true |- _ => apply Ascii.eqb_eq in E
  end.
  repeat split; assumption.
Qed.

Lemma tokenize_hex (l : list ascii) :
  forall rest tokens current depth,
    tokenize_loop (flat_map hex_of_char l ++ rest) tokens current false depth true =
    tokenize_loop rest tokens
      (current ++ string_of_list_ascii (flat_map hex_of_char l)) false depth true.
Proof.
  induction l as [|c l IH]; intros rest tokens current depth.
  - cbn. f_equal. clear. induction current as [|x s IH]; cbn; [reflexivity|now rewrite <- IH].
  - cbn [flat_map].
    destruct (hex_pair_facts c) as (h1 & h2 & hi & lo & -> & G1 & G2 & _).
    cbn [app]. rewrite !tokenize_in_hex, G1, G2, IH.
    cbn [string_of_list_ascii]. now rewrite !snoc_append.
Qed.

Lemma decodeHexString_hex (l : list ascii) :
  decodeHexString_loop (flat_map hex_of_char l) None = string_of_list_ascii l.
Proof.
  induction l as [|c l IH]; [reflexivity|].
  cbn [flat_map].
  destruct (hex_pair_facts c) as (h1 & h2 & hi & lo & -> & _ & _ & S1 & S2 & N1 & N2 & E).
  cbn [app decodeHexString_loop]. rewrite S1, N1, S2, N2, E, IH. reflexivity.
Qed.

(** A string operand is read as it was written.  For every string [s], the
    content stream that shows [s] as a literal string, with its
    backslashes and parentheses escaped, and the one that shows it as a
    hexadecimal string, are both parsed to the single operator [Tj] with
    the operand [s]. *)
Theorem string_operands_read_back (s : string) :
  ParseContentStream (String "(" (escape s ++ ") Tj")) =
    ([mkOperator "Tj" [VString s]], None) /\
  ParseContentStream (String "<" (hex s ++ "> Tj")) =
    ([mkOperator "Tj" [VString s]], None).
Proof.
  unfold ParseContentStream, tokenize. split; f_equal.
  - cbn [list_ascii_of_string]. rewrite list_ascii_of_string_append.
    unfold escape. rewrite list_ascii_of_string_of_list_ascii.
    simp tokenize_loop. cbn [flush].
    change (chr_is "(" "(") with true. cbv iota.
    rewrite tokenize_escaped. cbn [list_ascii_of_string].
    rewrite tokenize_in_string_close, tokenize_Tj.
    cbn [app parse_loop]. unfold snoc. cbn [append].
    set (body := string_of_list_ascii (flat_map escape_char (list_ascii_of_string s))).
    change (isOperator (String "(" (body ++ ")"))) with false. cbv iota.
    change (isOperator "Tj") with true. cbv iota. cbn [app].
    f_equal. f_equal. f_equal. unfold parseOperand.
    cbn [first_char]. change (String "(" (body ++ ")"))%string
      with (String "(" body ++ String ")" "")%string at 1.
    rewrite last_char_append.
    change (chr_is "(" "(" && chr_is ")" ")") with true. cbv iota. f_equal.
    unfold inner. cbn [String.length substring].
    rewrite length_append. cbn [String.length].
    replace (S (String.length body + 1) - 2)%nat with (String.length body) by lia.
    rewrite substring_prefix. unfold decodeString, body.
    rewrite list_ascii_of_string_of_list_ascii, decodeString_escaped.
    apply string_of_list_ascii_of_string.
  - cbn [list_ascii_of_string]. rewrite list_ascii_of_string_append.
    unfold hex. rewrite list_ascii_of_string_of_list_ascii.
    simp tokenize_loop. cbn [flush].
    change (chr_is "<" "(") with false. change (chr_is "<" "<") with true. cbv iota.
    rewrite tokenize_hex. cbn [list_ascii_of_string].
    rewrite tokenize_in_hex. change (chr_is ">" ">") with true. cbv iota.
    rewrite tokenize_Tj.
    cbn [app parse_loop]. unfold snoc. cbn [append].
    set (body := string_of_list_ascii (flat_map hex_of_char (list_ascii_of_string s))).
    change (isOperator (String "<" (body ++ ">"))) with false. cbv iota.
    change (isOperator "Tj") with true. cbv iota. cbn [app].
    f_equal. f_equal. f_equal. unfold parseOperand.
    cbn [first_char]. change (String "<" (body ++ ">"))%string
      with (String "<" body ++ String ">" "")%string at 1.
    rewrite last_char_append.
    change (chr_is "<" "(" && chr_is ">" ")") with false.
    change (chr_is "<" "<" && chr_is ">" ">") with true. cbv iota. f_equal.
    unfold inner. cbn [String.length substring].
    rewrite length_append. cbn [String.length].
    replace (S (String.length body + 1) - 2)%nat with (String.length body) by lia.
    rewrite substring_prefix. unfold decodeHexString, body.
    rewrite list_ascii_of_string_of_list_ascii, decodeHexString_hex.
    apply string_of_list_ascii_of_string.
Qed.

End Interp.

(** ** The composition order of [cm] *)

(** In exact arithmetic [Multiply a b] is the matrix product a x b of the
    row-vector convention: it maps a point as [a] followed by [b]. *)
Lemma Multiply_row_vector (a b : Matrix Z) (x y : Z) :
  Transform (Multiply a b) x y =
  Transform b (fst (Transform a x y)) (snd (Transform a x y)).
Proof.
  destruct a, b. unfold Transform, Multiply. cbn. f_equal; ring.
Qed.

Definition cm (a b c d e f : float) : Operator :=
  mkOperator "cm" [VFloat64 a; VFloat64 b; VFloat64 c; VFloat64 d; VFloat64 e;
                   VFloat64 f].

(** C1 at the content stream [1 0 0 1 1 0 cm 2 0 0 2 0 0 cm]: the
    interpreter ends with the current matrix times the new one,
    [[2 0 0 2 2 0]], where the rule of the claim, the new matrix times the
    current one, gives [[2 0 0 2 1 0]]. *)
Theorem cm_multiplies_on_the_right
  (ParseFloat : string -> float * bool) (Atoi : string -> Z * bool)
  (float64_of_int : Z -> float) (int_of_float64 : float -> Z)
  (Sprint : Value -> string) :
  let M1 : Matrix float := mkMatrix 1%float 0%float 0%float 1%float 1%float 0%float in
  let M2 : Matrix float := mkMatrix 2%float 0%float 0%float 2%float 0%float 0%float in
  let i := fst (Execute ParseFloat Atoi float64_of_int int_of_float64 Sprint
                  NewInterpreter [cm 1 0 0 1 1 0; cm 2 0 0 2 0 0]) in
  CTM (state_of i) = Multiply (Multiply Identity M1) M2 /\
  CTM (state_of i) = mkMatrix 2%float 0%float 0%float 2%float 2%float 0%float /\
  Multiply M2 (Multiply M1 Identity) =
    mkMatrix 2%float 0%float 0%float 2%float 1%float 0%float /\
  CTM (state_of i) <> Multiply M2 (Multiply M1 Identity).
Proof.
  cbv zeta. repeat split; try reflexivity.
  intros E. apply (f_equal (fun m => PrimFloat.eqb (m4 m) 2)) in E.
  vm_compute in E. discriminate.
Qed.

(** ** Instances *)

(** A run-time without conversions, for operands that are numbers
    already. *)
Definition no_float (_ : string) : float * bool := (0%float, false).
Definition no_int (_ : string) : Z * bool := (0, false).
Definition no_float_of_int (_ : Z) : float := 0%float.
Definition no_int_of_float (_ : float) : Z := 0.
Definition no_sprint (_ : Value) : string := "".

Definition op0 (name : string) : Operator := mkOperator name [].

(** The stream [q 2 0 0 2 0 0 cm q 5 w Q Q], then [Q Q Q]. *)
Lemma balanced_q_Q_restores_state_witness :
  let w := [op0 "q"; cm 2 0 0 2 0 0; op0 "q"; mkOperator "w" [VFloat64 5];
            op0 "Q"; op0 "Q"] in
  let run := Execute no_float no_int no_float_of_int no_int_of_float no_sprint in
  Current (stack (fst (run NewInterpreter w))) = Current (stack NewInterpreter) /\
  Current (stack (fst (run NewInterpreter (w ++ [op0 "Q"; op0 "Q"; op0 "Q"])))) =
  ([NewState], NewState).
Proof.
  cbv zeta.
  destruct (balanced_q_Q_restores_state no_float no_int no_float_of_int
              no_int_of_float no_sprint) as (_ & HA & _ & HC & _).
  assert (Hw : balanced [op0 "q"; cm 2 0 0 2 0 0; op0 "q";
                         mkOperator "w" [VFloat64 5]; op0 "Q"; op0 "Q"]).
  { apply (balanced_block (op0 "q")
             [cm 2 0 0 2 0 0; op0 "q"; mkOperator "w" [VFloat64 5]; op0 "Q"]
             (op0 "Q") []); try reflexivity; [|constructor].
    apply nested_other; try discriminate.
    apply (nested_block (op0 "q") [mkOperator "w" [VFloat64 5]] (op0 "Q") []);
      try reflexivity; [|constructor].
    apply nested_other; try discriminate. constructor. }
  split.
  - apply HA. exact Hw.
  - apply (HC NewInterpreter _ [op0 "Q"; op0 "Q"; op0 "Q"] Hw).
    + repeat constructor.
    + simpl. lia.
Defined.

(** The stream [q BX 1 0 0 1 0 0 cm EX Q] with the unknown operators [BX]
    and [EX], and the tokens [1 2 BX 3 EX 4]. *)
Lemma unknown_operators_skipped_witness :
  let run := Execute no_float no_int no_float_of_int no_int_of_float no_sprint in
  run NewInterpreter [op0 "q"; op0 "BX"; cm 1 0 0 1 0 0; op0 "Q"] =
  run NewInterpreter [op0 "q"; cm 1 0 0 1 0 0; op0 "Q"] /\
  parse_loop no_float ["1"; "2"; "BX"; "3"; "EX"; "4"] [] [] =
  [mkOperator "BX" [parseOperand no_float "1"; parseOperand no_float "2"];
   mkOperator "EX" [parseOperand no_float "3"]].
Proof.
  cbv zeta.
  destruct (unknown_operators_skipped no_float no_int no_float_of_int
              no_int_of_float no_sprint) as (_ & _ & Hskip & Hparse).
  split.
  - apply (Hskip NewInterpreter [op0 "q"] (op0 "BX") [cm 1 0 0 1 0 0; op0 "Q"]).
    + simpl. intuition discriminate.
    + discriminate.
  - apply (Hparse [(["1"; "2"], "BX"); (["3"], "EX")] ["4"]).
    + repeat constructor.
    + repeat constructor.
Defined.


(** [Td 3 4] on the line matrix [[2 0 0 2 10 20]], set by [Tm]: the new
    line matrix is [[2 0 0 2 16 28]], the translation followed by the line
    matrix, and not [[2 0 0 2 13 24]], the product in the other order. *)
Definition Tm_2_10_20 : Operator :=
  mkOperator "Tm" [VFloat64 2; VFloat64 0; VFloat64 0; VFloat64 2; VFloat64 10;
                   VFloat64 20].

Lemma text_line_matrix_premultiplied_witness :
  let run := executeOp no_float no_int no_float_of_int no_int_of_float no_sprint in
  let i := fst (run NewInterpreter Tm_2_10_20) in
  let t := TextState_ (state_of (fst (run i (mkOperator "Td" [VFloat64 3; VFloat64 4])))) in
  LineMatrix (TextState_ (state_of i)) =
    mkMatrix 2%float 0%float 0%float 2%float 10%float 20%float /\
  LineMatrix t = mkMatrix 2%float 0%float 0%float 2%float 16%float 28%float /\
  TextMatrix t = LineMatrix t /\
  Multiply (LineMatrix (TextState_ (state_of i))) (Translate 3%float 4%float) =
    mkMatrix 2%float 0%float 0%float 2%float 13%float 24%float.
Proof.
  cbv zeta.
  destruct (text_line_matrix_premultiplied no_float no_int no_float_of_int
              no_int_of_float no_sprint
              (fst (executeOp no_float no_int no_float_of_int no_int_of_float
                              no_sprint NewInterpreter Tm_2_10_20)))
    as (HTd & _).
  destruct (HTd (VFloat64 3) (VFloat64 4) []) as (Hproduct & _ & Htext).
  split; [reflexivity|]. split; [|split; [exact Htext | reflexivity]].
  rewrite Hproduct. reflexivity.
Defined.

(** The bordered rectangle is painted and the path is empty after it. *)
Lemma paint_operators_clear_path_witness :
  path (fst (executeOp no_float no_int no_float_of_int no_int_of_float
                       no_sprint (with_path NewInterpreter (Rect NewPath 0 0 1 1))
                       (mkOperator "B" []))) = NewPath.
Proof.
  apply (paint_operators_clear_path no_float no_int no_float_of_int no_int_of_float
           no_sprint (with_path NewInterpreter (Rect NewPath 0 0 1 1)) (mkOperator "B" [])).
  simpl. tauto.
Defined.

(** [cm] with three operands is skipped, and [sc] without operands sets
    the fill colour of the first state to black. *)
Lemma operators_with_short_operands_witness :
  let run := executeOp no_float no_int no_float_of_int no_int_of_float no_sprint in
  fst (run NewInterpreter (mkOperator "cm" [VInt 1; VInt 0; VInt 0])) =
    NewInterpreter /\
  fst (run NewInterpreter (mkOperator "sc" [])) =
    set_state NewInterpreter (set_FillColor NewState Black).
Proof.
  cbv zeta.
  destruct (operators_with_short_operands no_float no_int no_float_of_int
              no_int_of_float no_sprint NewInterpreter) as (Hskip & Hfill & _).
  split.
  - apply (Hskip (mkOperator "cm" [VInt 1; VInt 0; VInt 0])).
    vm_compute. reflexivity.
  - apply (Hfill "sc"%string []).
    + simpl. tauto.
    + vm_compute. reflexivity.
Defined.

End Graphics.

(** * pkg/font: glyph to path (renderer.go) *)

Module Font.

Import Graphics.

Local Open Scope Z_scope.

(** [ttf.GlyphComponent]. *)
Record GlyphComponent := mkGlyphComponent {
  GlyphIndex : Z;
  Flags : Z;
  Arg1 : Z;
  Arg2 : Z;
  Scale : float;
  ScaleX : float;
  ScaleY : float;
  Scale01 : float;
  Scale10 : float
}.

(** [ttf.Glyph]. *)
Record Glyph := mkGlyph {
  XMin : Z; YMin : Z; XMax : Z; YMax : Z;
  NumContours : Z;
  EndPtsOfContours : list Z;
  Instructions : list Z;
  PointFlags : list Z;
  XCoordinates : list Z;
  YCoordinates : list Z;
  Components : list GlyphComponent
}.

Definition IsCompound (g : Glyph) : bool := Z.ltb (NumContours g) 0.

(** The loop of [compoundGlyphToPath] and of [RenderString] that adds the
    segments of a path to [result]. *)
Definition add_segment (result : Path) (seg : PathSegment) : Path :=
  match Op seg, Points seg with
  | PathOpMoveTo, p :: _ => MoveTo result (X p) (Y p)
  | PathOpLineTo, p :: _ => LineTo result (X p) (Y p)
  | PathOpCurveTo, p1 :: p2 :: p3 :: _ =>
      CurveTo result (X p1) (Y p1) (X p2) (Y p2) (X p3) (Y p3)
  | PathOpClose, _ => Close result
  | _, _ => result
  end.

Section Renderer.

(** The renderer: the font, as the function [GetGlyph] from a glyph ID to
    the parsed glyph or an error, and the two scales.  [simpleGlyphToPath]
    walks the points of one glyph and calls no other glyph; its result is
    taken as given. *)
Variable GetGlyph : Z -> Glyph + string.
Variable simpleGlyphToPath : Glyph -> Path.
Variable float64_of_int : Z -> float.
Variables (scale hScale : float).

Definition fneq (a b : float) : bool := negb (PrimFloat.eqb a b).

(** The transformation of one component. *)
Definition component_matrix (comp : GlyphComponent) : Matrix float :=
  let dx := (float64_of_int (Arg1 comp) * scale * hScale)%float in
  let dy := (float64_of_int (Arg2 comp) * scale)%float in
  let m := Identity in
  let m :=
    if fneq (Scale comp) 1 || fneq (ScaleX comp) 1 || fneq (ScaleY comp) 1 ||
       fneq (Scale01 comp) 0 || fneq (Scale10 comp) 0
    then Multiply m (mkMatrix (ScaleX comp) (Scale01 comp) (Scale10 comp)
                              (ScaleY comp) 0%float 0%float)
    else m in
  Multiply m (Translate dx dy).

(** [GlyphToPath] and [compoundGlyphToPath], which call each other; [fuel]
    bounds the depth of the calls and [None] is its exhaustion.  The source
    has no such bound. *)
Fixpoint GlyphToPath (fuel : nat) (glyphID : Z) : option (Path + string) :=
  match fuel with
  | O => None
  | S fuel' =>
      match GetGlyph glyphID with
      | inr err => Some (inr err)
      | inl glyph =>
          if IsCompound glyph then
            (* compoundGlyphToPath *)
            result <-
              fold_left
                (fun acc comp =>
                   result <- acc ;;
                   r <- GlyphToPath fuel' (GlyphIndex comp) ;;
                   match r with
                   | inr _ => Some result
                   | inl compPath =>
                       let transformed :=
                         Path_Transform compPath (component_matrix comp) in
                       Some (fold_left add_segment (Segments transformed) result)
                   end)
                (Components glyph) (Some NewPath) ;;
            Some (inl result)
          else Some (inl (simpleGlyphToPath glyph))
      end
  end.

(** The glyphs whose expansion nests to depth [d] at most. *)
#[local] Set Warnings "-register-all".
Inductive expands : Z -> nat -> Prop :=
| expands_error (g : Z) (err : string) (d : nat) :
    GetGlyph g = inr err -> expands g d
| expands_simple (g : Z) (glyph : Glyph) (d : nat) :
    GetGlyph g = inl glyph -> IsCompound glyph = false -> expands g d
| expands_compound (g : Z) (glyph : Glyph) (d : nat) :
    GetGlyph g = inl glyph -> IsCompound glyph = true ->
    Forall (fun comp => expands (GlyphIndex comp) d) (Components glyph) ->
    expands g (S d).

(** One component of a compound glyph, given the path of the component. *)
Definition add_component (result : Path) (comp : GlyphComponent)
  (r : Path + string) : Path :=
  match r with
  | inr _ => result
  | inl compPath =>
      fold_left add_segment
        (Segments (Path_Transform compPath (component_matrix comp))) result
  end.

Lemma components_expand (fuel : nat) (comps : list GlyphComponent) :
  Forall (fun comp => exists r, GlyphToPath fuel (GlyphIndex comp) = Some r) comps ->
  forall acc, exists result,
    fold_left
      (fun acc comp =>
         result <- acc ;;
         r <- GlyphToPath fuel (GlyphIndex comp) ;;
         match r with
         | inr _ => Some result
         | inl compPath =>
             Some (fold_left add_segment
                     (Segments (Path_Transform compPath (component_matrix comp)))
                     result)
         end)
      comps (Some acc) = Some result.
Proof.
  induction 1 as [|comp comps (r & Hr) _ IH]; intros acc.
  - exists acc. reflexivity.
  - cbn [fold_left bind]. rewrite Hr. cbn [bind].
    destruct r as [compPath|err]; apply IH.
Qed.

(** A glyph whose nesting has depth [d] at most is expanded by calls nested
    to depth [d + 1] at most. *)
Lemma GlyphToPath_returns (d : nat) :
  forall g, expands g d -> exists r, GlyphToPath (S d) g = Some r.
Proof.
  induction d as [|d IH]; intros g Hg.
  - inversion Hg as [g' err d' E|g' glyph d' E Hsimple|]; subst;
      cbn [GlyphToPath]; rewrite E; [eauto|]. rewrite Hsimple. eauto.
  - inversion Hg as [g' err d' E|g' glyph d' E Hsimple
                    |g' glyph d' E Hcompound Hcomps]; subst.
    + cbn [GlyphToPath]. rewrite E. eauto.
    + cbn [GlyphToPath]. rewrite E, Hsimple. eauto.
    + change (GlyphToPath (S (S d)) g) with
        (match GetGlyph g with
         | inr err => Some (inr err)
         | inl glyph =>
             if IsCompound glyph then
               result <-
                 fold_left
                   (fun acc comp =>
                      result <- acc ;;
                      r <- GlyphToPath (S d) (GlyphIndex comp) ;;
                      match r with
                      | inr _ => Some result
                      | inl compPath =>
                          Some (fold_left add_segment
                                  (Segments (Path_Transform compPath
                                               (component_matrix comp)))
                                  result)
                      end)
                   (Components glyph) (Some NewPath) ;;
               Some (inl result)
             else Some (inl (simpleGlyphToPath glyph))
         end).
      rewrite E, Hcompound.
      destruct (components_expand (S d) (Components glyph)) with (acc := NewPath)
        as (result & ->).
      * eapply Forall_impl; [|exact Hcomps]. intros comp Hc. now apply IH.
      * cbn [bind]. eauto.
Qed.

End Renderer.

(** A font whose every glyph is a compound glyph with itself as its one
    component: no depth of calls expands glyph 0. *)
Definition self_glyph : Glyph :=
  mkGlyph 0 0 0 0 (-1) [] [] [] [] []
          [mkGlyphComponent 0 0 0 0 1%float 1%float 1%float 0%float 0%float].

Lemma GlyphToPath_self_reference (simple : Glyph -> Path) (conv : Z -> float)
  (scale hScale : float) (fuel : nat) :
  GlyphToPath (fun _ => inl self_glyph) simple conv scale hScale fuel 0 = None.
Proof.
  induction fuel as [|fuel IH]; [reflexivity|].
  cbn [GlyphToPath]. cbn [IsCompound self_glyph NumContours Z.ltb Z.compare
                           Components fold_left bind GlyphIndex].
  rewrite IH. reflexivity.
Qed.

End Font.

(** * pkg/cos: the document reader *)

From stdpp Require Import gmap strings.

Module Cos.

Local Open Scope Z_scope.

(** ** Objects (the types of the object model) *)

(** [Object]: [Dict] is [map[Name]Object]; [Reference] and [Stream] are the
    pointers [*Reference] and [*Stream]. *)
#[local] Set Warnings "-register-all".
Inductive Object :=
| Null
| Boolean (b : bool)
| Integer (n : Z)
| Real (x : float)
| String_ (s : string)
| Name (s : string)
| Array (a : list Object)
| Dict (d : gmap string Object)
| Reference (ObjectNumber GenerationNumber : Z)
| Stream (d : gmap string Object) (data : list Z).

Definition Dict_ := gmap string Object.

(** [Dict.Get]: [None] is the [nil] of an absent key. *)
Definition Get (d : Dict_) (key : string) : option Object := d !! key.

Definition GetName (d : Dict_) (key : string) : string * bool :=
  match d !! key with
  | Some (Name n) => (n, true)
  | _ => (""%string, false)
  end.

Definition GetInt (d : Dict_) (key : string) : Z * bool :=
  match d !! key with
  | Some (Integer n) => (n, true)
  | _ => (0, false)
  end.

(** ** The cross-reference table *)

Record XrefEntry := mkXrefEntry {
  Offset : Z;
  Generation : Z;
  InUse : bool;
  ObjectStreamNum : Z;
  IndexInStream : Z
}.

Record XrefTable := mkXrefTable {
  Entries : gmap Z XrefEntry;
  Trailer : Dict_
}.

(** [Reader]: the table, the cache of resolved objects and the cache of
    the parsed object streams.  The bytes of the file do not change and are
    read through the parsers below. *)
Record Reader := mkReader {
  xref : XrefTable;
  cache : gmap Z Object;
  objStm : gmap Z (gmap Z Object)
}.

Definition result (A : Type) : Type := A + string.

Section File.

(** The parsers and the decoders of the library, as functions of the file:
    [ParseXref(r.data, offset)], [ParseObjectAt(r.data, offset)] (the
    object of the indirect object), [ParseObjectsFromStream], and the
    filters [decodeFlateDecode], [decodeASCIIHex] and [decodeASCII85]. *)
Variable ParseXref : Z -> result XrefTable.
Variable ParseObjectAt : Z -> result Object.
Variable ParseObjectsFromStream : list Z -> Dict_ -> result (gmap Z Object).
Variable decodeFlateDecode : list Z -> Dict_ -> result (list Z).
Variable decodeASCIIHex : list Z -> result (list Z).
Variable decodeASCII85 : list Z -> result (list Z).

(** [decodeLZW] of this package decodes nothing. *)
Definition decodeLZW (data : list Z) (dict : Dict_) : result (list Z) :=
  inr "LZW decoding not fully implemented"%string.

(** *** The Prev chain *)

(** [loadPrevXref]: the entries of the older section are merged where the
    newer table has none, and the function calls itself on the [Prev] of
    the older section.  [fuel] bounds the depth of the calls and [None] is
    its exhaustion; the source has no such bound. *)
Fixpoint loadPrevXref (fuel : nat) (entries : gmap Z XrefEntry) (offset : Z)
  : option (gmap Z XrefEntry * error) :=
  match fuel with
  | O => None
  | S fuel' =>
      match ParseXref offset with
      | inr err => Some (entries, Some err)
      | inl prevXref =>
          let entries := entries ∪ Entries prevXref in
          match GetInt (Trailer prevXref) "Prev" with
          | (prevPrev, true) => loadPrevXref fuel' entries prevPrev
          | (_, false) => Some (entries, None)
          end
      end
  end.

(** *** Objects by number *)

(** A call on the reader: the result and the reader after the call;
    [None] is the exhaustion of the fuel. *)
Definition call (A : Type) : Type := option (result A * Reader).

Definition with_cache (r : Reader) (c : gmap Z Object) : Reader :=
  mkReader (xref r) c (objStm r).

Definition with_objStm (r : Reader) (o : gmap Z (gmap Z Object)) : Reader :=
  mkReader (xref r) (cache r) o.

Section Calls.

(** [GetObject], as the functions below call it. *)
Variable GetObject : Reader -> Z -> call Object.

(** [Reader.Resolve]. *)
Definition Resolve_ (r : Reader) (obj : Object) : call Object :=
  match obj with
  | Reference n _ => GetObject r n
  | _ => Some (inl obj, r)
  end.

Definition getObjectAtOffset_ (r : Reader) (offset expectedObjNum : Z)
  : call Object :=
  match ParseObjectAt offset with
  | inr err => Some (inr "failed to parse object"%string, r)
  | inl (Stream dict data) =>
      match Get dict "Length" with
      | Some (Reference n _) =>
          res <- GetObject r n ;;
          match res with
          | (inl (Integer length), r) =>
              Some (inl (Stream (<["Length"%string := Integer length]> dict) data), r)
          | (_, r) => Some (inl (Stream dict data), r)
          end
      | _ => Some (inl (Stream dict data), r)
      end
  | inl obj => Some (inl obj, r)
  end.

(** The names of the filters of a stream; the errors of [Resolve] are
    dropped as in the source. *)
Fixpoint filter_names (r : Reader) (items : list Object)
  : option (list string * Reader) :=
  match items with
  | [] => Some ([], r)
  | item :: items' =>
      res <- Resolve_ r item ;;
      let '(resolved, r) := res in
      rest <- filter_names r items' ;;
      let '(names, r) := rest in
      match resolved with
      | inl (Name n) => Some (n :: names, r)
      | _ => Some (names, r)
      end
  end.

Fixpoint apply_filters (filters : list string) (dict : Dict_) (data : list Z)
  : result (list Z) :=
  match filters with
  | [] => inl data
  | f :: filters' =>
      let decoded :=
        if String.eqb f "FlateDecode" then Some (decodeFlateDecode data dict)
        else if String.eqb f "ASCIIHexDecode" then Some (decodeASCIIHex data)
        else if String.eqb f "ASCII85Decode" then Some (decodeASCII85 data)
        else if String.eqb f "LZWDecode" then Some (decodeLZW data dict)
        else None in
      match decoded with
      | None => inr "unsupported filter"%string
      | Some (inr err) => inr "filter failed"%string
      | Some (inl data) => apply_filters filters' dict data
      end
  end.

(** [Reader.DecodeStream]. *)
Definition DecodeStream_ (r : Reader) (dict : Dict_) (data : list Z)
  : call (list Z) :=
  match Get dict "Filter" with
  | None => Some (inl data, r)
  | Some filter =>
      res <- Resolve_ r filter ;;
      let '(filter, r) := res in
      names <-
        match filter with
        | inl (Name f) => Some ([f], r)
        | inl (Array items) => filter_names r items
        | _ => Some ([], r)
        end ;;
      let '(filters, r) := names in
      Some (apply_filters filters dict data, r)
  end.

Definition getObjectFromStream_ (r : Reader) (streamObjNum index targetObjNum : Z)
  : call Object :=
  let cached :=
    match objStm r !! streamObjNum with
    | Some objects => objects !! targetObjNum
    | None => None
    end in
  match cached with
  | Some obj => Some (inl obj, r)
  | None =>
      res <- GetObject r streamObjNum ;;
      match res with
      | (inr err, r) => Some (inr "failed to get object stream"%string, r)
      | (inl (Stream dict data), r) =>
          dec <- DecodeStream_ r dict data ;;
          match dec with
          | (inr err, r) => Some (inr "failed to decode object stream"%string, r)
          | (inl decoded, r) =>
              match ParseObjectsFromStream decoded dict with
              | inr err =>
                  Some (inr "failed to parse object stream contents"%string, r)
              | inl objects =>
                  let r := with_objStm r (<[streamObjNum := objects]> (objStm r)) in
                  match objects !! targetObjNum with
                  | Some obj => Some (inl obj, r)
                  | None => Some (inr "object not found in object stream"%string, r)
                  end
              end
          end
      | (inl _, r) => Some (inr "object is not a stream"%string, r)
      end
  end.

(** The body of [GetObject]. *)
Definition GetObject_body (r : Reader) (objNum : Z) : call Object :=
  match cache r !! objNum with
  | Some obj => Some (inl obj, r)
  | None =>
      match Entries (xref r) !! objNum with
      | None => Some (inr "object not found in xref"%string, r)
      | Some entry =>
          if negb (InUse entry) then Some (inl Null, r)
          else
            res <-
              (if Z.ltb 0 (ObjectStreamNum entry)
               then getObjectFromStream_ r (ObjectStreamNum entry)
                                         (IndexInStream entry) objNum
               else getObjectAtOffset_ r (Offset entry) objNum) ;;
            match res with
            | (inr err, r) => Some (inr err, r)
            | (inl obj, r) =>
                Some (inl obj, with_cache r (<[objNum := obj]> (cache r)))
            end
      end
  end.

(** *** What a call keeps *)

(** The cache holds objects of entries in use only. *)
Definition cache_ok (r : Reader) : Prop :=
  forall n obj, cache r !! n = Some obj ->
  exists entry, Entries (xref r) !! n = Some entry /\ InUse entry = true.

(** A call keeps the table and the invariant of the cache. *)
Definition keeps {A : Type} (r : Reader) (c : call A) : Prop :=
  forall res r', c = Some (res, r') ->
  xref r' = xref r /\ (cache_ok r -> cache_ok r').

Lemma keeps_ret {A : Type} (r : Reader) (x : result A) : keeps r (Some (x, r)).
Proof. intros res r' E. injection E as _ <-. auto. Qed.

Lemma keeps_bind {A B : Type} (r : Reader) (c : call A)
  (k : result A * Reader -> call B) :
  keeps r c -> (forall x r1, keeps r1 (k (x, r1))) -> keeps r (x <- c ;; k x).
Proof.
  intros Hc Hk res r' E. destruct c as [[x r1]|]; [|discriminate].
  cbn [bind] in E. destruct (Hc x r1 eq_refl) as (Hx & Hok).
  destruct (Hk x r1 res r' E) as (Hx' & Hok'). split; [congruence | auto].
Qed.

Hypothesis GetObject_keeps : forall r n, keeps r (GetObject r n).

Lemma Resolve_keeps (r : Reader) (obj : Object) : keeps r (Resolve_ r obj).
Proof. destruct obj; try apply keeps_ret. apply GetObject_keeps. Qed.

Lemma getObjectAtOffset_keeps (r : Reader) (offset n : Z) :
  keeps r (getObjectAtOffset_ r offset n).
Proof.
  unfold getObjectAtOffset_.
  destruct (ParseObjectAt offset) as [obj|err]; [|apply keeps_ret].
  destruct obj; try apply keeps_ret.
  destruct (Get d "Length") as [[]|]; try apply keeps_ret.
  apply keeps_bind; [apply GetObject_keeps|].
  intros [[]|] r1; apply keeps_ret.
Qed.

Lemma filter_names_keeps (items : list Object) (r : Reader) :
  forall names r', filter_names r items = Some (names, r') ->
  xref r' = xref r /\ (cache_ok r -> cache_ok r').
Proof.
  revert r. induction items as [|item items IH]; intros r names r' E.
  - injection E as _ <-. auto.
  - cbn [filter_names] in E.
    destruct (Resolve_ r item) as [[resolved r1]|] eqn:E1; [|discriminate].
    cbn [bind] in E.
    destruct (filter_names r1 items) as [[names1 r2]|] eqn:E2; [|discriminate].
    cbn [bind] in E.
    destruct (Resolve_keeps r item _ _ E1) as (Hx1 & Hok1).
    destruct (IH r1 _ _ E2) as (Hx2 & Hok2).
    assert (Er : r' = r2) by (destruct resolved as [[]|]; congruence).
    subst r'. split; [congruence | auto].
Qed.

Lemma DecodeStream_keeps (r : Reader) (dict : Dict_) (data : list Z) :
  keeps r (DecodeStream_ r dict data).
Proof.
  unfold DecodeStream_. destruct (Get dict "Filter") as [filter|];
    [|apply keeps_ret].
  apply keeps_bind; [apply Resolve_keeps|].
  intros resolved r1 res r' E.
  destruct resolved as [obj|err].
  - destruct obj; cbn [bind] in E; try (injection E as _ <-; now auto).
    destruct (filter_names r1 a) as [[names r2]|] eqn:E2; [|discriminate].
    cbn [bind] in E. injection E as _ <-.
    exact (filter_names_keeps _ _ _ _ E2).
  - cbn [bind] in E. injection E as _ <-. auto.
Qed.

Lemma with_objStm_keeps {A : Type} (r : Reader) (o : gmap Z (gmap Z Object))
  (x : result A) :
  keeps r (Some (x, with_objStm r o)).
Proof. intros res r' E. injection E as _ <-. auto. Qed.

Lemma getObjectFromStream_keeps (r : Reader) (streamObjNum index n : Z) :
  keeps r (getObjectFromStream_ r streamObjNum index n).
Proof.
  unfold getObjectFromStream_.
  match goal with |- context [match ?c with Some _ => _ | None => _ end] =>
    destruct c end; [apply keeps_ret|].
  apply keeps_bind; [apply GetObject_keeps|].
  intros [obj|err] r1; [|apply keeps_ret].
  destruct obj; try apply keeps_ret.
  apply keeps_bind; [apply DecodeStream_keeps|].
  intros [decoded|err] r2; [|apply keeps_ret].
  destruct (ParseObjectsFromStream decoded d) as [objects|err];
    [|apply keeps_ret].
  destruct (objects !! n); apply with_objStm_keeps.
Qed.

Lemma GetObject_body_keeps (r : Reader) (n : Z) : keeps r (GetObject_body r n).
Proof.
  unfold GetObject_body.
  destruct (cache r !! n) as [obj|] eqn:Ecache; [apply keeps_ret|].
  destruct (Entries (xref r) !! n) as [entry|] eqn:Eentry; [|apply keeps_ret].
  destruct (InUse entry) eqn:Einuse; cbn [negb]; [|apply keeps_ret].
  intros res r' E.
  match type of E with bind ?c _ = _ =>
    destruct c as [[x r1]|] eqn:Ec; [|discriminate] end.
  cbn [bind] in E.
  assert (Hk : xref r1 = xref r /\ (cache_ok r -> cache_ok r1)).
  { destruct (Z.ltb 0 (ObjectStreamNum entry)).
    - exact (getObjectFromStream_keeps _ _ _ _ _ _ Ec).
    - exact (getObjectAtOffset_keeps _ _ _ _ _ Ec). }
  destruct Hk as (Hx & Hok).
  destruct x as [obj|err]; injection E as _ <-; [|auto].
  split; [exact Hx|]. intros Hr m o Hm. cbn [cache with_cache xref] in *.
  destruct (decide (m = n)) as [->|Hne].
  - exists entry. rewrite Hx. auto.
  - rewrite lookup_insert_ne in Hm by congruence.
    destruct (Hok Hr m o Hm) as (e & He & Hin). exists e. auto.
Qed.

End Calls.

(** [Reader.GetObject]; [fuel] bounds the depth of its calls of itself
    (through the length of a stream and through object streams). *)
Fixpoint GetObject (fuel : nat) (r : Reader) (objNum : Z) : call Object :=
  match fuel with
  | O => None
  | S fuel' => GetObject_body (GetObject fuel') r objNum
  end.

Definition Resolve (fuel : nat) : Reader -> Object -> call Object :=
  Resolve_ (GetObject fuel).

Definition DecodeStream (fuel : nat) : Reader -> Dict_ -> list Z -> call (list Z) :=
  DecodeStream_ (GetObject fuel).

(** The Prev chains that end after [n] older sections at most: at a section
    that does not parse or one without [Prev]. *)
Inductive chain_ends : Z -> nat -> Prop :=
| chain_error (offset : Z) (err : string) (n : nat) :
    ParseXref offset = inr err -> chain_ends offset n
| chain_last (offset : Z) (prevXref : XrefTable) (n : nat) :
    ParseXref offset = inl prevXref ->
    snd (GetInt (Trailer prevXref) "Prev") = false ->
    chain_ends offset n
| chain_next (offset : Z) (prevXref : XrefTable) (prevPrev : Z) (n : nat) :
    ParseXref offset = inl prevXref ->
    GetInt (Trailer prevXref) "Prev" = (prevPrev, true) ->
    chain_ends prevPrev n ->
    chain_ends offset (S n).

Lemma loadPrevXref_returns (offset : Z) (n : nat) :
  chain_ends offset n ->
  forall entries, exists res, loadPrevXref (S n) entries offset = Some res.
Proof.
  induction 1 as [offset err n E|offset prevXref n E Hlast
                 |offset prevXref prevPrev n E Hprev _ IH]; intros entries.
  - cbn [loadPrevXref]. rewrite E. eauto.
  - cbn [loadPrevXref]. rewrite E.
    destruct (GetInt (Trailer prevXref) "Prev") as [p []];
      [discriminate | eauto].
  - change (loadPrevXref (S (S n)) entries offset) with
      (match ParseXref offset with
       | inr err => Some (entries, Some err)
       | inl prevXref =>
           match GetInt (Trailer prevXref) "Prev" with
           | (prevPrev, true) =>
               loadPrevXref (S n) (entries ∪ Entries prevXref) prevPrev
           | (_, false) => Some (entries ∪ Entries prevXref, None)
           end
       end).
    rewrite E, Hprev. apply IH.
Qed.

(** *** Opening the file *)

Variable findStartXref : result Z.

(** [NewReader]: the table at [startxref], the older sections merged in
    (an error of [loadPrevXref] is dropped), and empty caches. *)
Definition NewReader (fuel : nat) : option (result Reader) :=
  match findStartXref with
  | inr err => Some (inr "failed to find startxref"%string)
  | inl startXref =>
      match ParseXref startXref with
      | inr err => Some (inr "failed to parse xref"%string)
      | inl table =>
          match GetInt (Trailer table) "Prev" with
          | (prevOffset, true) =>
              res <- loadPrevXref fuel (Entries table) prevOffset ;;
              Some (inl (mkReader (mkXrefTable (fst res) (Trailer table)) ∅ ∅))
          | (_, false) => Some (inl (mkReader table ∅ ∅))
          end
      end
  end.

(** The readers a program can hold: the one [NewReader] returns, and the
    reader after a call of [GetObject], [Resolve] or [DecodeStream]. *)
Inductive reachable : Reader -> Prop :=
| reachable_new (fuel : nat) (r : Reader) :
    NewReader fuel = Some (inl r) -> reachable r
| reachable_GetObject (fuel : nat) (r : Reader) (n : Z) (res : result Object)
    (r' : Reader) :
    reachable r -> GetObject fuel r n = Some (res, r') -> reachable r'
| reachable_Resolve (fuel : nat) (r : Reader) (obj : Object)
    (res : result Object) (r' : Reader) :
    reachable r -> Resolve fuel r obj = Some (res, r') -> reachable r'
| reachable_DecodeStream (fuel : nat) (r : Reader) (dict : Dict_) (data : list Z)
    (res : result (list Z)) (r' : Reader) :
    reachable r -> DecodeStream fuel r dict data = Some (res, r') -> reachable r'.

(** *** Properties of [GetObject] and [Resolve] *)

Lemma GetObject_keeps (fuel : nat) (r : Reader) (n : Z) :
  keeps r (GetObject fuel r n).
Proof.
  revert r n. induction fuel as [|fuel IH]; intros r n.
  - intros res r' E. discriminate.
  - cbn [GetObject]. now apply GetObject_body_keeps.
Qed.

Lemma NewReader_cache_ok (fuel : nat) (r : Reader) :
  NewReader fuel = Some (inl r) -> cache_ok r.
Proof.
  unfold NewReader. intros E n obj Hn.
  assert (Hempty : cache r = ∅).
  { destruct findStartXref as [startXref|]; [|discriminate].
    destruct (ParseXref startXref) as [table|]; [|discriminate].
    destruct (GetInt (Trailer table) "Prev") as [prevOffset []].
    - destruct (loadPrevXref fuel (Entries table) prevOffset); [|discriminate].
      cbn [bind] in E. injection E as <-. reflexivity.
    - injection E as <-. reflexivity. }
  rewrite Hempty, lookup_empty in Hn. discriminate.
Qed.

Lemma reachable_cache_ok (r : Reader) : reachable r -> cache_ok r.
Proof.
  induction 1 as [fuel r E|fuel r n res r' _ IH E|fuel r obj res r' _ IH E
                 |fuel r dict data res r' _ IH E].
  - exact (NewReader_cache_ok fuel r E).
  - exact (proj2 (GetObject_keeps fuel r n res r' E) IH).
  - refine (proj2 (Resolve_keeps _ _ r obj res r' E) IH).
    intros r0 n0. apply GetObject_keeps.
  - refine (proj2 (DecodeStream_keeps _ _ r dict data res r' E) IH).
    intros r0 n0. apply GetObject_keeps.
Qed.

(** C5.  Resolving a reference to object [n] is [GetObject n]: the same
    result and the same reader after the call.  For an object number whose
    entry is free, [GetObject], and so [Resolve] on a reference to it,
    returns the null object and no error, on every reader a program can
    hold. *)
Theorem resolve_reference_is_GetObject :
  (forall fuel r n gen,
     Resolve fuel r (Reference n gen) = GetObject fuel r n) /\
  (forall fuel r n gen entry,
     reachable r ->
     Entries (xref r) !! n = Some entry -> InUse entry = false ->
     GetObject (S fuel) r n = Some (inl Null, r) /\
     Resolve (S fuel) r (Reference n gen) = Some (inl Null, r)).
Proof.
  split; [reflexivity|].
  intros fuel r n gen entry Hr Hentry Hfree.
  assert (Hget : GetObject (S fuel) r n = Some (inl Null, r)).
  { cbn [GetObject]. unfold GetObject_body.
    destruct (cache r !! n) as [obj|] eqn:Ecache.
    - destruct (reachable_cache_ok r Hr n obj Ecache) as (e & He & Hin).
      congruence.
    - rewrite Hentry, Hfree. reflexivity. }
  split; [exact Hget|]. exact Hget.
Qed.

(** A stream whose filter is LZWDecode is not decoded by this package:
    [DecodeStream] returns an error for every payload. *)
Lemma DecodeStream_LZWDecode_fails (fuel : nat) (r : Reader) (dict : Dict_)
  (data : list Z) :
  Get dict "Filter" = Some (Name "LZWDecode") ->
  DecodeStream fuel r dict data = Some (inr "filter failed"%string, r).
Proof.
  intros Hfilter. unfold DecodeStream, DecodeStream_. rewrite Hfilter.
  reflexivity.
Qed.

(** *** The sections of an updated file *)

Lemma loadPrevXref_keeps (fuel : nat) :
  forall entries offset entries' err,
  loadPrevXref fuel entries offset = Some (entries', err) -> entries ⊆ entries'.
Proof.
  induction fuel as [|fuel IH]; intros entries offset entries' err E;
    [discriminate|].
  cbn [loadPrevXref] in E.
  destruct (ParseXref offset) as [prevXref|e].
  - destruct (GetInt (Trailer prevXref) "Prev") as [prevPrev [|]].
    + transitivity (entries ∪ Entries prevXref);
        [apply map_union_subseteq_l | exact (IH _ _ _ _ E)].
    + injection E as <- _. apply map_union_subseteq_l.
  - injection E as <- _. reflexivity.
Qed.

Lemma loadPrevXref_older (fuel : nat) (entries : gmap Z XrefEntry) (offset : Z)
  (entries' : gmap Z XrefEntry) (err : error) (prevXref : XrefTable) :
  loadPrevXref fuel entries offset = Some (entries', err) ->
  ParseXref offset = inl prevXref ->
  entries ∪ Entries prevXref ⊆ entries'.
Proof.
  destruct fuel as [|fuel]; [discriminate|]. cbn [loadPrevXref].
  intros E Hprev. rewrite Hprev in E.
  destruct (GetInt (Trailer prevXref) "Prev") as [prevPrev [|]].
  - exact (loadPrevXref_keeps _ _ _ _ _ E).
  - injection E as <- _. reflexivity.
Qed.

(** The table of a reader that [NewReader] returns: the trailer is the one
    of the newest section, every entry of the newest section is kept as it
    is, and an object number that the newest section does not list takes the
    entry of the section its [Prev] names.  Without [Prev] the table is the
    newest section. *)
Theorem NewReader_newest_section_wins (fuel : nat) (startXref : Z)
  (table : XrefTable) (r : Reader) :
  findStartXref = inl startXref ->
  ParseXref startXref = inl table ->
  NewReader fuel = Some (inl r) ->
  Trailer (xref r) = Trailer table /\
  (forall n entry, Entries table !! n = Some entry ->
     Entries (xref r) !! n = Some entry) /\
  (forall prevOffset prevXref n entry,
     GetInt (Trailer table) "Prev" = (prevOffset, true) ->
     ParseXref prevOffset = inl prevXref ->
     Entries table !! n = None -> Entries prevXref !! n = Some entry ->
     Entries (xref r) !! n = Some entry) /\
  (snd (GetInt (Trailer table) "Prev") = false -> xref r = table).
Proof.
  intros Hstart Htable E. unfold NewReader in E. rewrite Hstart, Htable in E.
  destruct (GetInt (Trailer table) "Prev") as [prevOffset [|]] eqn:Eprev.
  - destruct (loadPrevXref fuel (Entries table) prevOffset) as [[entries' err]|]
      eqn:Eload; [|discriminate].
    cbn [bind fst] in E. injection E as <-. cbn [xref Trailer Entries].
    split; [reflexivity|]. split; [|split].
    + intros n entry Hn.
      exact (lookup_weaken _ _ _ _ Hn (loadPrevXref_keeps _ _ _ _ _ Eload)).
    + intros prevOffset' prevXref n entry Hp Hprev Hnone Hold.
      injection Hp as <-.
      refine (lookup_weaken _ _ _ _ _ (loadPrevXref_older _ _ _ _ _ _ Eload Hprev)).
      rewrite lookup_union_r by exact Hnone. exact Hold.
    + discriminate.
  - injection E as <-. cbn [xref]. split; [reflexivity|]. split; [|split].
    + auto.
    + intros prevOffset' prevXref n entry Hp. discriminate.
    + intros _. now destruct table.
Qed.

(** *** The cache of resolved objects *)

(** A call does not drop or change an object that is in the cache. *)
Definition grows {A : Type} (r : Reader) (c : call A) : Prop :=
  forall res r', c = Some (res, r') -> cache r ⊆ cache r'.

Lemma grows_ret {A : Type} (r : Reader) (x : result A) : grows r (Some (x, r)).
Proof. intros res r' E. injection E as _ <-. reflexivity. Qed.

Lemma grows_bind {A B : Type} (r : Reader) (c : call A)
  (k : result A * Reader -> call B) :
  grows r c -> (forall x r1, grows r1 (k (x, r1))) -> grows r (x <- c ;; k x).
Proof.
  intros Hc Hk res r' E. destruct c as [[x r1]|]; [|discriminate].
  cbn [bind] in E. transitivity (cache r1); [exact (Hc x r1 eq_refl)|].
  exact (Hk x r1 res r' E).
Qed.

Section Growth.

Variable G : Reader -> Z -> call Object.
Hypothesis G_grows : forall r n, grows r (G r n).

Lemma Resolve_grows (r : Reader) (obj : Object) : grows r (Resolve_ G r obj).
Proof. destruct obj; try apply grows_ret. apply G_grows. Qed.

Lemma getObjectAtOffset_grows (r : Reader) (offset n : Z) :
  grows r (getObjectAtOffset_ G r offset n).
Proof.
  unfold getObjectAtOffset_.
  destruct (ParseObjectAt offset) as [obj|err]; [|apply grows_ret].
  destruct obj; try apply grows_ret.
  destruct (Get d "Length") as [[]|]; try apply grows_ret.
  apply grows_bind; [apply G_grows|].
  intros [[]|] r1; apply grows_ret.
Qed.

Lemma filter_names_grows (items : list Object) (r : Reader) :
  forall names r', filter_names G r items = Some (names, r') ->
  cache r ⊆ cache r'.
Proof.
  revert r. induction items as [|item items IH]; intros r names r' E.
  - injection E as _ <-. reflexivity.
  - cbn [filter_names] in E.
    destruct (Resolve_ G r item) as [[resolved r1]|] eqn:E1; [|discriminate].
    cbn [bind] in E.
    destruct (filter_names G r1 items) as [[names1 r2]|] eqn:E2; [|discriminate].
    cbn [bind] in E.
    assert (Er : r' = r2) by (destruct resolved as [[]|]; congruence).
    subst r'. transitivity (cache r1).
    + exact (Resolve_grows r item _ _ E1).
    + exact (IH r1 _ _ E2).
Qed.

Lemma DecodeStream_grows (r : Reader) (dict : Dict_) (data : list Z) :
  grows r (DecodeStream_ G r dict data).
Proof.
  unfold DecodeStream_. destruct (Get dict "Filter") as [filter|];
    [|apply grows_ret].
  apply grows_bind; [apply Resolve_grows|].
  intros resolved r1 res r' E.
  destruct resolved as [obj|err].
  - destruct obj; cbn [bind] in E; try (injection E as _ <-; reflexivity).
    destruct (filter_names G r1 a) as [[names r2]|] eqn:E2; [|discriminate].
    cbn [bind] in E. injection E as _ <-.
    exact (filter_names_grows _ _ _ _ E2).
  - cbn [bind] in E. injection E as _ <-. reflexivity.
Qed.

Lemma with_objStm_grows {A : Type} (r : Reader) (o : gmap Z (gmap Z Object))
  (x : result A) :
  grows r (Some (x, with_objStm r o)).
Proof. intros res r' E. injection E as _ <-. reflexivity. Qed.

Lemma getObjectFromStream_grows (r : Reader) (streamObjNum index n : Z) :
  grows r (getObjectFromStream_ G r streamObjNum index n).
Proof.
  unfold getObjectFromStream_.
  match goal with |- context [match ?c with Some _ => _ | None => _ end] =>
    destruct c end; [apply grows_ret|].
  apply grows_bind; [apply G_grows|].
  intros [obj|err] r1; [|apply grows_ret].
  destruct obj; try apply grows_ret.
  apply grows_bind; [apply DecodeStream_grows|].
  intros [decoded|err] r2; [|apply grows_ret].
  destruct (ParseObjectsFromStream decoded d) as [objects|err];
    [|apply grows_ret].
  destruct (objects !! n); apply with_objStm_grows.
Qed.

Lemma GetObject_body_grows (r : Reader) (n : Z) : grows r (GetObject_body G r n).
Proof.
  unfold GetObject_body.
  destruct (cache r !! n) as [obj|] eqn:Ecache; [apply grows_ret|].
  destruct (Entries (xref r) !! n) as [entry|] eqn:Eentry; [|apply grows_ret].
  destruct (InUse entry) eqn:Einuse; cbn [negb]; [|apply grows_ret].
  intros res r' E.
  match type of E with bind ?c _ = _ =>
    destruct c as [[x r1]|] eqn:Ec; [|discriminate] end.
  cbn [bind] in E.
  assert (Hk : cache r ⊆ cache r1).
  { destruct (Z.ltb 0 (ObjectStreamNum entry)).
    - exact (getObjectFromStream_grows _ _ _ _ _ _ Ec).
    - exact (getObjectAtOffset_grows _ _ _ _ _ Ec). }
  destruct x as [obj|err]; injection E as _ <-; [|exact Hk].
  cbn [cache with_cache]. now apply insert_subseteq_r.
Qed.

End Growth.

Lemma GetObject_grows (fuel : nat) (r : Reader) (n : Z) :
  grows r (GetObject fuel r n).
Proof.
  revert r n. induction fuel as [|fuel IH]; intros r n.
  - intros res r' E. discriminate.
  - cbn [GetObject]. now apply GetObject_body_grows.
Qed.

(** Whatever [GetObject], [Resolve] or [DecodeStream] returns, an error
    too, every object that was in the cache before the call is in the cache
    after it, unchanged. *)
Theorem calls_keep_the_cache (fuel : nat) (r : Reader) (m : Z) (cached : Object) :
  cache r !! m = Some cached ->
  (forall n res r', GetObject fuel r n = Some (res, r') ->
     cache r' !! m = Some cached) /\
  (forall obj res r', Resolve fuel r obj = Some (res, r') ->
     cache r' !! m = Some cached) /\
  (forall dict data res r', DecodeStream fuel r dict data = Some (res, r') ->
     cache r' !! m = Some cached).
Proof.
  intros Hm. split; [|split].
  - intros n res r' E.
    exact (lookup_weaken _ _ _ _ Hm (GetObject_grows fuel r n res r' E)).
  - intros obj res r' E.
    exact (lookup_weaken _ _ _ _ Hm
             (Resolve_grows _ (GetObject_grows fuel) r obj res r' E)).
  - intros dict data res r' E.
    exact (lookup_weaken _ _ _ _ Hm
             (DecodeStream_grows _ (GetObject_grows fuel) r dict data res r' E)).
Qed.

(** An object that [GetObject] has returned is returned again: a second
    call for the same number gives the same object, at any depth of calls
    allowed, and leaves the reader as it is.  For an entry in use the object
    is then in the cache. *)
Theorem GetObject_again (fuel : nat) (r : Reader) (n : Z) (obj : Object)
  (r' : Reader) :
  GetObject fuel r n = Some (inl obj, r') ->
  (forall fuel', GetObject (S fuel') r' n = Some (inl obj, r')) /\
  (forall entry, Entries (xref r) !! n = Some entry -> InUse entry = true ->
     cache r' !! n = Some obj).
Proof.
  destruct fuel as [|fuel]; [discriminate|].
  cbn [GetObject]. unfold GetObject_body.
  destruct (cache r !! n) as [cached|] eqn:Ecache.
  - intros E. injection E as <- <-. rewrite Ecache. auto.
  - destruct (Entries (xref r) !! n) as [entry|] eqn:Eentry; [|discriminate].
    destruct (InUse entry) eqn:Einuse; cbn [negb].
    + intros E.
      match type of E with bind ?c _ = _ =>
        destruct c as [[x r1]|]; [|discriminate] end.
      cbn [bind] in E. destruct x as [o|err]; [|discriminate].
      injection E as <- <-. cbn [cache with_cache].
      rewrite lookup_insert_eq. auto.
    + intros E. injection E as <- <-. rewrite Ecache, Eentry, Einuse.
      split; [reflexivity|]. intros entry' Hentry' Hin. congruence.
Qed.

End File.

(** ** The page tree *)

Section PageTree.

(** [Reader.Resolve] as a function of the file: the object that
    [GetObject] returns for a reference, and the object itself otherwise.
    The caches change no result. *)
Variable resolve : Object -> result Object.

Definition ResolveDict (obj : Object) : result Dict_ :=
  match resolve obj with
  | inr err => inr err
  | inl (Dict d) => inl d
  | inl _ => inr "expected Dict"%string
  end.

Definition ResolveArray (obj : Object) : result (list Object) :=
  match resolve obj with
  | inr err => inr err
  | inl (Array a) => inl a
  | inl _ => inr "expected Array"%string
  end.

(** The loop over [kidsArray] of [findPage]; [findPage] is the function
    called on a kid that is a Pages node. *)
Fixpoint findPage_kids (findPage : Dict_ -> Z -> Z -> option (result Dict_))
  (kids : list Object) (targetPage pageIndex : Z) : option (result Dict_) :=
  match kids with
  | [] => Some (inr "page not found"%string)
  | kid :: kids' =>
      match ResolveDict kid with
      | inr _ => findPage_kids findPage kids' targetPage pageIndex
      | inl kidDict =>
          if String.eqb (fst (GetName kidDict "Type")) "Page" then
            if Z.eqb pageIndex targetPage then Some (inl kidDict)
            else findPage_kids findPage kids' targetPage (wrap_int (pageIndex + 1))
          else
            let count := fst (GetInt kidDict "Count") in
            if Z.ltb targetPage (wrap_int (pageIndex + count))
            then findPage kidDict targetPage pageIndex
            else findPage_kids findPage kids' targetPage
                               (wrap_int (pageIndex + count))
      end
  end.

(** [Reader.findPage]; [fuel] bounds the depth of the calls and [None] is
    its exhaustion.  The source has no such bound. *)
Fixpoint findPage (fuel : nat) (node : Dict_) (targetPage currentPage : Z)
  : option (result Dict_) :=
  match fuel with
  | O => None
  | S fuel' =>
      if String.eqb (fst (GetName node "Type")) "Page" then
        if Z.eqb currentPage targetPage then Some (inl node)
        else Some (inr "page not found"%string)
      else
        match Get node "Kids" with
        | None => Some (inr "Pages node without Kids"%string)
        | Some kids =>
            match ResolveArray kids with
            | inr err => Some (inr err)
            | inl kidsArray =>
                findPage_kids (findPage fuel') kidsArray targetPage currentPage
            end
        end
  end.

(** The nodes below which the page tree has depth [d] at most. *)
Inductive page_depth : Dict_ -> nat -> Prop :=
| page_depth_page (node : Dict_) (d : nat) :
    fst (GetName node "Type") = "Page"%string -> page_depth node d
| page_depth_no_kids (node : Dict_) (d : nat) :
    Get node "Kids" = None -> page_depth node d
| page_depth_bad_kids (node : Dict_) (kids : Object) (err : string) (d : nat) :
    Get node "Kids" = Some kids -> ResolveArray kids = inr err ->
    page_depth node d
| page_depth_kids (node : Dict_) (kids : Object) (kidsArray : list Object)
    (d : nat) :
    Get node "Kids" = Some kids -> ResolveArray kids = inl kidsArray ->
    Forall (fun kid => forall kidDict, ResolveDict kid = inl kidDict ->
                       page_depth kidDict d) kidsArray ->
    page_depth node (S d).

Lemma findPage_kids_returns (rec : Dict_ -> Z -> Z -> option (result Dict_))
  (kids : list Object) :
  Forall (fun kid => forall kidDict, ResolveDict kid = inl kidDict ->
                     forall t c, exists res, rec kidDict t c = Some res) kids ->
  forall t c, exists res, findPage_kids rec kids t c = Some res.
Proof.
  induction 1 as [|kid kids Hkid _ IH]; intros t c; cbn [findPage_kids].
  - eauto.
  - destruct (ResolveDict kid) as [kidDict|err]; [|apply IH].
    destruct (String.eqb (fst (GetName kidDict "Type")) "Page").
    + destruct (Z.eqb c t); [eauto | apply IH].
    + destruct (Z.ltb t (wrap_int (c + fst (GetInt kidDict "Count"))));
        [now apply Hkid | apply IH].
Qed.

Lemma findPage_returns (d : nat) :
  forall node, page_depth node d ->
  forall t c, exists res, findPage (S d) node t c = Some res.
Proof.
  induction d as [|d IH]; intros node Hnode t c.
  - cbn [findPage].
    inversion Hnode as [node' d' Hpage|node' d' Hnone|node' kids err d' Hk Herr|];
      subst.
    + rewrite Hpage. cbn. destruct (Z.eqb c t); eauto.
    + destruct (String.eqb _ _); [destruct (Z.eqb c t); eauto|].
      rewrite Hnone. eauto.
    + destruct (String.eqb _ _); [destruct (Z.eqb c t); eauto|].
      rewrite Hk, Herr. eauto.
  - change (findPage (S (S d)) node t c) with
      (if String.eqb (fst (GetName node "Type")) "Page" then
         if Z.eqb c t then Some (inl node)
         else Some (inr "page not found"%string)
       else
         match Get node "Kids" with
         | None => Some (inr "Pages node without Kids"%string)
         | Some kids =>
             match ResolveArray kids with
             | inr err => Some (inr err)
             | inl kidsArray => findPage_kids (findPage (S d)) kidsArray t c
             end
         end).
    destruct (String.eqb _ _) eqn:Etype; [destruct (Z.eqb c t); eauto|].
    inversion Hnode as [node' d' Hpage|node' d' Hnone|node' kids err d' Hk Herr
                       |node' kids kidsArray d' Hk Harr Hkids]; subst.
    + rewrite Hpage in Etype. discriminate.
    + rewrite Hnone. eauto.
    + rewrite Hk, Herr. eauto.
    + rewrite Hk, Harr. apply findPage_kids_returns.
      eapply Forall_impl; [exact Hkids|].
      intros kid Hkid kidDict Hres t' c'. apply IH. now apply Hkid.
Qed.

(** *** The pages of a tree, in the order of the document *)

(** The pages below the kids of a Pages node, from left to right: a kid that
    does not resolve to a dictionary has none, a kid of type Page is one
    page, and any other kid is a Pages node whose [Count] is the number of
    the pages below it. *)
Inductive kids_of (pages : Dict_ -> list Dict_ -> Prop)
  : list Object -> list Dict_ -> Prop :=
| kids_of_none : kids_of pages [] []
| kids_of_skipped (kid : Object) (err : string) (kids : list Object)
    (ps : list Dict_) :
    ResolveDict kid = inr err -> kids_of pages kids ps ->
    kids_of pages (kid :: kids) ps
| kids_of_page (kid : Object) (kidDict : Dict_) (kids : list Object)
    (ps : list Dict_) :
    ResolveDict kid = inl kidDict ->
    String.eqb (fst (GetName kidDict "Type")) "Page" = true ->
    kids_of pages kids ps ->
    kids_of pages (kid :: kids) (kidDict :: ps)
| kids_of_pages (kid : Object) (kidDict : Dict_) (kids : list Object)
    (ps1 ps : list Dict_) :
    ResolveDict kid = inl kidDict ->
    String.eqb (fst (GetName kidDict "Type")) "Page" = false ->
    pages kidDict ps1 -> fst (GetInt kidDict "Count") = len ps1 ->
    kids_of pages kids ps ->
    kids_of pages (kid :: kids) (ps1 ++ ps).

(** The pages below a node of a tree of depth [d] at most. *)
Fixpoint pages_of (d : nat) (node : Dict_) (ps : list Dict_) : Prop :=
  (String.eqb (fst (GetName node "Type")) "Page" = true /\ ps = [node]) \/
  match d with
  | O => False
  | S d' =>
      String.eqb (fst (GetName node "Type")) "Page" = false /\
      exists kids kidsArray,
        Get node "Kids" = Some kids /\ ResolveArray kids = inl kidsArray /\
        kids_of (pages_of d') kidsArray ps
  end.

(** What a search returns below a node whose pages are [ps], the first of
    them being page [c] of the document: page [t] when it is one of them,
    and an error otherwise. *)
Definition finds (search : Z -> Z -> option (result Dict_)) (ps : list Dict_)
  : Prop :=
  forall t c, 0 <= c -> c + len ps < 2 ^ 63 ->
  match idx ps (t - c) with
  | Some page => search t c = Some (inl page)
  | None => exists err, search t c = Some (inr err)
  end.

(** *** The document *)

Section Document.

(** [r.xref.Trailer]. *)
Variable trailer : Dict_.

(** [Dict.GetRef]: the object and generation number of the reference. *)
Definition GetRef (d : Dict_) (key : string) : option (Z * Z) :=
  match d !! key with
  | Some (Reference n g) => Some (n, g)
  | _ => None
  end.

Definition Catalog : result Dict_ :=
  match GetRef trailer "Root" with
  | None => inr "no Root in trailer"%string
  | Some (n, g) => ResolveDict (Reference n g)
  end.

Definition Pages : result Dict_ :=
  match Catalog with
  | inr err => inr err
  | inl catalog =>
      match Get catalog "Pages" with
      | None => inr "no Pages in catalog"%string
      | Some pagesRef => ResolveDict pagesRef
      end
  end.

Definition PageCount : result Z :=
  match Pages with
  | inr err => inr err
  | inl pages =>
      match GetInt pages "Count" with
      | (count, true) => inl count
      | (_, false) => inr "no Count in Pages"%string
      end
  end.

Definition GetPage (fuel : nat) (pageNum : Z) : option (result Dict_) :=
  match Pages with
  | inr err => Some (inr err)
  | inl pages => findPage fuel pages pageNum 0
  end.

End Document.

Lemma idx_cons {A : Type} (x : A) (s : list A) (i : Z) :
  idx (x :: s) i = if Z.eqb i 0 then Some x else idx s (i - 1).
Proof.
  unfold idx. destruct (Z.eqb_spec i 0) as [->|Hne]; [reflexivity|].
  destruct (Z.ltb_spec i 0) as [Hneg|Hpos].
  - destruct (Z.ltb_spec (i - 1) 0); [reflexivity | lia].
  - destruct (Z.ltb_spec (i - 1) 0); [lia|].
    replace (Z.to_nat i) with (S (Z.to_nat (i - 1))) by lia. reflexivity.
Qed.

Lemma idx_negative {A : Type} (s : list A) (i : Z) : i < 0 -> idx s i = None.
Proof. intros Hi. unfold idx. destruct (Z.ltb_spec i 0); [reflexivity | lia]. Qed.

Lemma idx_beyond {A : Type} (s : list A) (i : Z) : len s <= i -> idx s i = None.
Proof.
  intros Hi. unfold idx. pose proof (len_nonneg s).
  destruct (Z.ltb_spec i 0); [reflexivity|].
  apply nth_error_None. unfold len in Hi. lia.
Qed.

Lemma wrap_int_in_range (x : Z) : 0 <= x < 2 ^ 63 -> wrap_int x = x.
Proof.
  intros Hx. unfold wrap_int.
  change (2 ^ 63) with 9223372036854775808 in *.
  change (2 ^ 64) with 18446744073709551616.
  rewrite Z.mod_small by lia. lia.
Qed.

Lemma findPage_kids_finds (rec : Dict_ -> Z -> Z -> option (result Dict_))
  (pages : Dict_ -> list Dict_ -> Prop) (kids : list Object) (ps : list Dict_) :
  (forall node ps1, pages node ps1 -> finds (rec node) ps1) ->
  kids_of pages kids ps ->
  finds (findPage_kids rec kids) ps.
Proof.
  intros Hrec. induction 1 as [|kid err kids ps Hkid _ IH
                              |kid kidDict kids ps Hkid Hpage _ IH
                              |kid kidDict kids ps1 ps Hkid Hpage Hps1 Hcount _ IH];
    intros t c Hc Hmax; cbn [findPage_kids].
  - replace (idx [] (t - c)) with (@None Dict_)
      by (unfold idx; destruct (Z.ltb (t - c) 0); [|destruct (Z.to_nat (t - c))];
          reflexivity).
    eauto.
  - rewrite Hkid. now apply IH.
  - rewrite Hkid, Hpage. rewrite len_cons in Hmax. pose proof (len_nonneg ps).
    rewrite idx_cons. destruct (Z.eqb_spec c t) as [->|Hne].
    + rewrite Z.sub_diag. reflexivity.
    + destruct (Z.eqb_spec (t - c) 0) as [E0|_]; [lia|].
      rewrite wrap_int_in_range by lia.
      replace (t - c - 1) with (t - (c + 1)) by lia. apply IH; lia.
  - rewrite Hkid, Hpage, Hcount. rewrite len_app in Hmax.
    pose proof (len_nonneg ps1). pose proof (len_nonneg ps).
    rewrite wrap_int_in_range by lia.
    destruct (Z.ltb_spec t (c + len ps1)) as [Hlt|Hge].
    + specialize (Hrec kidDict ps1 Hps1 t c Hc ltac:(lia)).
      destruct (Z.ltb_spec (t - c) 0) as [Hneg|Hpos].
      * rewrite idx_negative in Hrec |- * by lia. exact Hrec.
      * rewrite idx_app_l by lia. exact Hrec.
    + replace (t - c) with (len ps1 + (t - (c + len ps1))) by lia.
      destruct (Z.ltb_spec (t - (c + len ps1)) 0) as [Hneg|Hpos]; [lia|].
      rewrite idx_app_r by lia. apply IH; lia.
Qed.

Lemma findPage_step (fuel : nat) (node : Dict_) (t c : Z) :
  findPage (S fuel) node t c =
    if String.eqb (fst (GetName node "Type")) "Page" then
      if Z.eqb c t then Some (inl node)
      else Some (inr "page not found"%string)
    else
      match Get node "Kids" with
      | None => Some (inr "Pages node without Kids"%string)
      | Some kids =>
          match ResolveArray kids with
          | inr err => Some (inr err)
          | inl kidsArray => findPage_kids (findPage fuel) kidsArray t c
          end
      end.
Proof. reflexivity. Qed.

Lemma findPage_finds (d : nat) :
  forall node ps, pages_of d node ps -> finds (findPage (S d) node) ps.
Proof.
  assert (Hleaf : forall fuel node ps,
             String.eqb (fst (GetName node "Type")) "Page" = true ->
             ps = [node] -> finds (findPage (S fuel) node) ps).
  { intros fuel node ps Hpage -> t c Hc Hmax.
    rewrite findPage_step, Hpage, idx_cons.
    destruct (Z.eqb_spec c t) as [->|Hne].
    - rewrite Z.sub_diag. reflexivity.
    - destruct (Z.eqb_spec (t - c) 0); [lia|].
      replace (idx [] (t - c - 1)) with (@None Dict_)
        by (unfold idx; destruct (Z.ltb (t - c - 1) 0);
            [|destruct (Z.to_nat (t - c - 1))]; reflexivity).
      eauto. }
  induction d as [|d IH]; intros node ps Hps.
  - destruct Hps as [[Hpage ->]|[]]. now apply Hleaf.
  - destruct Hps as [[Hpage ->]|(Hpage & kids & kidsArray & Hkids & Harr & Hof)];
      [now apply Hleaf|].
    intros t c Hc Hmax. rewrite findPage_step, Hpage, Hkids, Harr.
    exact (findPage_kids_finds (findPage (S d)) (pages_of d) kidsArray ps IH Hof
             t c Hc Hmax).
Qed.

(** [findPage] counts the pages in the order of the document.  Below a node
    of a well-formed tree whose pages are [ps], searched with the number
    [currentPage] of its first page, [findPage] returns page
    [targetPage - currentPage] of [ps] when there is one, and an error for
    every other target. *)
Theorem findPage_in_document_order (d : nat) (node : Dict_) (ps : list Dict_)
  (targetPage currentPage : Z) :
  pages_of d node ps ->
  0 <= currentPage -> currentPage + len ps < 2 ^ 63 ->
  match idx ps (targetPage - currentPage) with
  | Some page => findPage (S d) node targetPage currentPage = Some (inl page)
  | None => exists err,
      findPage (S d) node targetPage currentPage = Some (inr err)
  end.
Proof.
  intros Hps Hc Hmax. exact (findPage_finds d node ps Hps _ _ Hc Hmax).
Qed.

(** [GetPage] and [PageCount] agree on a well-formed tree whose root counts
    its pages: [PageCount] is the number of the pages, [GetPage] returns
    page [pageNum] of the document for [0 <= pageNum < PageCount] and an
    error for every other number. *)
Theorem GetPage_below_PageCount (trailer : Dict_) (d : nat) (root : Dict_)
  (ps : list Dict_) :
  Pages trailer = inl root ->
  pages_of d root ps ->
  GetInt root "Count" = (len ps, true) ->
  len ps < 2 ^ 63 ->
  PageCount trailer = inl (len ps) /\
  forall pageNum,
    (0 <= pageNum < len ps ->
     exists page, idx ps pageNum = Some page /\
                  GetPage trailer (S d) pageNum = Some (inl page)) /\
    (~ 0 <= pageNum < len ps ->
     exists err, GetPage trailer (S d) pageNum = Some (inr err)).
Proof.
  intros Hroot Hps Hcount Hmax. unfold PageCount, GetPage. rewrite Hroot, Hcount.
  split; [reflexivity|]. intros pageNum.
  pose proof (findPage_finds d root ps Hps pageNum 0 ltac:(lia) ltac:(lia)) as H.
  rewrite Z.sub_0_r in H. split.
  - intros Hin. destruct (idx_in_range ps pageNum Hin) as [page Hpage].
    rewrite Hpage in H. eauto.
  - intros Hout.
    assert (Hnone : idx ps pageNum = None).
    { destruct (Z.ltb_spec pageNum 0);
        [apply idx_negative | apply idx_beyond]; lia. }
    rewrite Hnone in H. exact H.
Qed.

End PageTree.

(** ** Instances *)

Definition no_object (_ : Z) : result Object := inr "no object"%string.
Definition no_objects (_ : list Z) (_ : Dict_) : result (gmap Z Object) :=
  inr "no objects"%string.
Definition no_flate (_ : list Z) (_ : Dict_) : result (list Z) :=
  inr "no data"%string.
Definition no_decode (_ : list Z) : result (list Z) := inr "no data"%string.

(** A file with one section: object 0 free, object 1 in use. *)
Definition small_table : XrefTable :=
  mkXrefTable
    (<[0 := mkXrefEntry 0 65535 false 0 0]> {[ 1 := mkXrefEntry 15 0 true 0 0 ]})
    ∅.

Definition small_reader : Reader := mkReader small_table ∅ ∅.

Lemma resolve_reference_is_GetObject_witness :
  GetObject no_object no_objects no_flate no_decode no_decode 1 small_reader 0 =
    Some (inl Null, small_reader) /\
  Resolve no_object no_objects no_flate no_decode no_decode 1 small_reader
    (Reference 0 65535) = Some (inl Null, small_reader).
Proof.
  destruct (resolve_reference_is_GetObject (fun _ => inl small_table) no_object
              no_objects no_flate no_decode no_decode (inl 0)) as (_ & Hfree).
  apply (Hfree 0%nat small_reader 0 65535 (mkXrefEntry 0 65535 false 0 0)).
  - apply (reachable_new _ _ _ _ _ _ _ 0%nat). reflexivity.
  - reflexivity.
  - reflexivity.
Defined.

(** A file whose every section has [Prev 0]. *)
Definition cyclic_xref (_ : Z) : result XrefTable :=
  inl (mkXrefTable ∅ {[ "Prev"%string := Integer 0 ]}).

Lemma loadPrevXref_cycle (fuel : nat) (entries : gmap Z XrefEntry) :
  loadPrevXref cyclic_xref fuel entries 0 = None.
Proof.
  revert entries. induction fuel as [|fuel IH]; intros entries; [reflexivity|].
  cbn [loadPrevXref cyclic_xref Trailer Entries].
  replace (GetInt {[ "Prev"%string := Integer 0 ]} "Prev") with (0, true)
    by reflexivity.
  apply IH.
Qed.

(** A Pages node whose one kid is a reference that resolves to the node
    itself. *)
Definition self_pages : Dict_ :=
  <["Type"%string := Name "Pages"]>
    (<["Kids"%string := Array [Reference 1 0]]> {[ "Count"%string := Integer 1 ]}).

Definition self_resolve (obj : Object) : result Object :=
  match obj with
  | Reference _ _ => inl (Dict self_pages)
  | _ => inl obj
  end.

Lemma findPage_cycle (fuel : nat) :
  findPage self_resolve fuel self_pages 0 0 = None.
Proof.
  induction fuel as [|fuel IH]; [reflexivity|].
  cbn [findPage].
  replace (GetName self_pages "Type") with ("Pages"%string, true) by reflexivity.
  replace (Get self_pages "Kids") with (Some (Array [Reference 1 0]))
    by reflexivity.
  cbn [fst String.eqb Ascii.eqb Bool.eqb ResolveArray self_resolve
       findPage_kids ResolveDict].
  replace (GetName self_pages "Type") with ("Pages"%string, true) by reflexivity.
  replace (GetInt self_pages "Count") with (1, true) by reflexivity.
  cbn [fst String.eqb Ascii.eqb Bool.eqb].
  replace (Z.ltb 0 (wrap_int (0 + 1))) with true by reflexivity.
  exact IH.
Qed.

(** A file updated once: the newest section, at 100, lists object 1 again
    and names the section at 50, which lists the objects 1 and 2. *)
Definition newest_section : XrefTable :=
  mkXrefTable {[ 1 := mkXrefEntry 80 0 true 0 0 ]}
              {[ "Prev"%string := Integer 50 ]}.

Definition older_section : XrefTable :=
  mkXrefTable
    (<[1 := mkXrefEntry 15 0 true 0 0]> {[ 2 := mkXrefEntry 30 0 true 0 0 ]})
    ∅.

Definition updated_file (offset : Z) : result XrefTable :=
  if Z.eqb offset 100 then inl newest_section
  else if Z.eqb offset 50 then inl older_section
  else inr "no xref"%string.

Definition updated_reader : Reader :=
  mkReader
    (mkXrefTable (Entries newest_section ∪ Entries older_section)
                 (Trailer newest_section))
    ∅ ∅.

Lemma NewReader_newest_section_wins_witness :
  Entries (xref updated_reader) !! 1 = Some (mkXrefEntry 80 0 true 0 0) /\
  Entries (xref updated_reader) !! 2 = Some (mkXrefEntry 30 0 true 0 0).
Proof.
  destruct (NewReader_newest_section_wins updated_file (inl 100) 2%nat 100
              newest_section updated_reader eq_refl eq_refl eq_refl)
    as (_ & Hnew & Hold & _).
  split.
  - apply Hnew. reflexivity.
  - apply (Hold 50 older_section); reflexivity.
Defined.

(** A file whose every object is the integer 7, and the reader after
    object 1 has been read. *)
Definition one_object (_ : Z) : result Object := inl (Integer 7).

Definition cached_reader : Reader :=
  mkReader small_table (<[1 := Integer 7]> ∅) ∅.

Lemma GetObject_again_witness :
  GetObject one_object no_objects no_flate no_decode no_decode 1 cached_reader 1 =
    Some (inl (Integer 7), cached_reader).
Proof.
  apply (proj1 (GetObject_again one_object no_objects no_flate no_decode
                  no_decode 1%nat small_reader 1 (Integer 7) cached_reader
                  eq_refl) 0%nat).
Defined.

(** The reader of the updated file after object 1 has been read, and after
    object 2 has been read too. *)
Definition reader_after_one : Reader :=
  mkReader (xref updated_reader) (<[1 := Integer 7]> ∅) ∅.

Definition reader_after_two : Reader :=
  mkReader (xref updated_reader) (<[2 := Integer 7]> (<[1 := Integer 7]> ∅)) ∅.

Lemma calls_keep_the_cache_witness :
  cache reader_after_two !! 1 = Some (Integer 7).
Proof.
  apply (proj1 (calls_keep_the_cache one_object no_objects no_flate no_decode
                  no_decode 1%nat reader_after_one 1 (Integer 7) eq_refl)
           2 (inl (Integer 7)) reader_after_two).
  reflexivity.
Defined.

(** A document of three pages: the first is a kid of the root, the other
    two are the kids of a Pages node that is the second kid of the root. *)
Definition numbered_page (k : Z) : Dict_ :=
  <["Type"%string := Name "Page"]> {[ "StructParents"%string := Integer k ]}.

Definition inner_pages : Dict_ :=
  <["Type"%string := Name "Pages"]>
    (<["Kids"%string := Array [Reference 4 0; Reference 5 0]]>
       {[ "Count"%string := Integer 2 ]}).

Definition outer_pages : Dict_ :=
  <["Type"%string := Name "Pages"]>
    (<["Kids"%string := Array [Reference 2 0; Reference 3 0]]>
       {[ "Count"%string := Integer 3 ]}).

Definition catalog_dict : Dict_ :=
  <["Type"%string := Name "Catalog"]> {[ "Pages"%string := Reference 1 0 ]}.

Definition document_trailer : Dict_ := {[ "Root"%string := Reference 6 0 ]}.

Definition document_resolve (obj : Object) : result Object :=
  match obj with
  | Reference n _ =>
      if Z.eqb n 1 then inl (Dict outer_pages)
      else if Z.eqb n 2 then inl (Dict (numbered_page 0))
      else if Z.eqb n 3 then inl (Dict inner_pages)
      else if Z.eqb n 4 then inl (Dict (numbered_page 1))
      else if Z.eqb n 5 then inl (Dict (numbered_page 2))
      else if Z.eqb n 6 then inl (Dict catalog_dict)
      else inr "object not found in xref"%string
  | _ => inl obj
  end.

Lemma document_pages :
  pages_of document_resolve 2 outer_pages
    [numbered_page 0; numbered_page 1; numbered_page 2].
Proof.
  right. split; [reflexivity|].
  exists (Array [Reference 2 0; Reference 3 0]), [Reference 2 0; Reference 3 0].
  split; [reflexivity|]. split; [reflexivity|].
  apply (kids_of_page document_resolve _ (Reference 2 0) (numbered_page 0));
    [reflexivity | reflexivity |].
  apply (kids_of_pages document_resolve _ (Reference 3 0) inner_pages []
           [numbered_page 1; numbered_page 2] []);
    [reflexivity | reflexivity | | reflexivity | constructor].
  right. split; [reflexivity|].
  exists (Array [Reference 4 0; Reference 5 0]), [Reference 4 0; Reference 5 0].
  split; [reflexivity|]. split; [reflexivity|].
  apply (kids_of_page document_resolve _ (Reference 4 0) (numbered_page 1));
    [reflexivity | reflexivity |].
  apply (kids_of_page document_resolve _ (Reference 5 0) (numbered_page 2));
    [reflexivity | reflexivity | constructor].
Qed.

Lemma findPage_in_document_order_witness :
  findPage document_resolve 3 outer_pages 2 0 = Some (inl (numbered_page 2)).
Proof.
  apply (findPage_in_document_order document_resolve 2 outer_pages
           [numbered_page 0; numbered_page 1; numbered_page 2] 2 0
           document_pages);
    [lia | vm_compute; reflexivity].
Defined.

Lemma GetPage_below_PageCount_witness :
  PageCount document_resolve document_trailer = inl 3 /\
  exists page,
    idx [numbered_page 0; numbered_page 1; numbered_page 2] 1 = Some page /\
    GetPage document_resolve document_trailer 3 1 = Some (inl page).
Proof.
  destruct (GetPage_below_PageCount document_resolve document_trailer 2
              outer_pages [numbered_page 0; numbered_page 1; numbered_page 2]
              eq_refl document_pages eq_refl ltac:(vm_compute; reflexivity))
    as (Hcount & Hpage).
  split; [exact Hcount|]. apply (proj1 (Hpage 1)). unfold len. simpl. lia.
Defined.

End Cos.

(** * The recursive traversals *)

Module Recursion.

Import Graphics Font Cos.

Local Open Scope Z_scope.



(** A file with two sections, a page tree with one page under its root,
    and a compound glyph with one simple component. *)
Definition two_sections (offset : Z) : result XrefTable :=
  if Z.eqb offset 100
  then inl (mkXrefTable ∅ {[ "Prev"%string := Integer 50 ]})
  else if Z.eqb offset 50 then inl (mkXrefTable ∅ ∅)
  else inr "no xref"%string.

Definition leaf_page : Dict_ := {[ "Type"%string := Name "Page" ]}.

Definition root_pages : Dict_ :=
  <["Type"%string := Name "Pages"]>
    (<["Kids"%string := Array [Reference 2 0]]> {[ "Count"%string := Integer 1 ]}).

Definition tree_resolve (obj : Object) : result Object :=
  match obj with
  | Reference _ _ => inl (Dict leaf_page)
  | _ => inl obj
  end.

Definition accent_font (glyphID : Z) : Glyph + string :=
  if Z.eqb glyphID 0 then
    inl (mkGlyph 0 0 0 0 (-1) [] [] [] [] []
           [mkGlyphComponent 1 0 0 0 1%float 1%float 1%float 0%float 0%float])
  else if Z.eqb glyphID 1 then inl (mkGlyph 0 0 0 0 0 [] [] [] [] [] [])
  else inr "glyph ID out of range"%string.


End Recursion.
